(** * Windoze side panel: a shallow embedding of [sidepanel.js]

    The side panel mirrors the browser's windows, tab groups and tabs as a
    collapsible tree.  This development embeds the script's data model, its
    persistence functions, the DOM builders, the render loop of
    [renderList] (both the current first-encounter loop and the earlier
    group-first loop that is still in the repository) and
    [updateActiveStates], and states the properties of the specification
    over them.

    Conventions of the embedding:
    - host ids (window, tab, group) are integers, [Z];
    - a JavaScript string is a [string] holding the bytes of its UTF-8
      encoding; [String(n)] for an integer [n] is stdpp's [pretty n];
    - [windowTitles] is a map from window id to title, [collapsedState] a
      map from section key to flag;
    - a DOM element is an [Element] record, a DOM tree a [node]; the text of
      an element is kept on the element, and the closure registered with
      [addEventListener] is recorded as a [Listener] value;
    - an asynchronous function is cut at its [await]s into the tasks of an
      event loop: a [Panel] holds the [World] and the calls in flight, a
      [Step] is one task, and the answers of the host and of the storage
      come with the steps that resume a call. *)

From stdpp Require Import gmap strings list fin_maps pretty sorting.
From Stdlib Require Import ZArith Lia Ascii.

Local Open Scope string_scope.
Local Open Scope Z_scope.
Local Open Scope list_scope.

(** ** JavaScript values *)

(** [a || d] where [a] is a string or [undefined]: the empty string and
    [undefined] are falsy. *)
Definition js_or (a : option string) (d : string) : string :=
  match a with
  | Some s => if String.eqb s "" then d else s
  | None => d
  end.

(** [typeof u === 'string' && (u.startsWith('http://') || u.startsWith('https://'))] *)
Definition isHttpUrl (u : option string) : bool :=
  match u with
  | Some s => String.prefix "http://" s || String.prefix "https://" s
  | None => false
  end.

(** The bytes of a string; a JavaScript string is held as its UTF-8
    encoding. *)
Definition bytes (s : string) : list ascii := String.list_ascii_of_string s.
Definition ofBytes (l : list ascii) : string := String.string_of_list_ascii l.

(** The white space that [String.prototype.trim] strips: the code points of
    ECMAScript's WhiteSpace and LineTerminator productions, each as the
    bytes of its UTF-8 encoding. *)
Definition whiteSpace : list (list ascii) :=
  (λ code : list nat, ascii_of_nat <$> code) <$>
  [ [9]; [10]; [11]; [12]; [13];          (* TAB, LF, VT, FF, CR *)
    [32];                                 (* SPACE *)
    [194; 160];                           (* U+00A0 NO-BREAK SPACE *)
    [225; 154; 128];                      (* U+1680 *)
    [226; 128; 128]; [226; 128; 129]; [226; 128; 130]; [226; 128; 131];
    [226; 128; 132]; [226; 128; 133]; [226; 128; 134]; [226; 128; 135];
    [226; 128; 136]; [226; 128; 137]; [226; 128; 138];   (* U+2000 .. U+200A *)
    [226; 128; 168]; [226; 128; 169];     (* U+2028, U+2029 *)
    [226; 128; 175];                      (* U+202F *)
    [226; 129; 159];                      (* U+205F *)
    [227; 128; 128];                      (* U+3000 *)
    [239; 187; 191] ]%nat%list.           (* U+FEFF *)

(** [l] without its prefix [p], when it starts with [p]. *)
Fixpoint dropPrefix (p l : list ascii) : option (list ascii) :=
  match p with
  | [] => Some l
  | a :: p' =>
      match l with
      | b :: l' => if Ascii.eqb a b then dropPrefix p' l' else None
      | [] => None
      end
  end.

(** [l] without the first of [codes] that it starts with. *)
Fixpoint dropOne (codes : list (list ascii)) (l : list ascii) : option (list ascii) :=
  match codes with
  | [] => None
  | c :: codes' =>
      match dropPrefix c l with
      | Some l' => Some l'
      | None => dropOne codes' l
      end
  end.

(** Leading [codes] dropped for as long as there is one, in at most [n]
    rounds. *)
Fixpoint dropLeading (codes : list (list ascii)) (n : nat) (l : list ascii)
  : list ascii :=
  match n with
  | O => l
  | S n' =>
      match dropOne codes l with
      | Some l' => dropLeading codes n' l'
      | None => l
      end
  end.

Definition trimStart (l : list ascii) : list ascii :=
  dropLeading whiteSpace (length l) l.

Definition trimEnd (l : list ascii) : list ascii :=
  reverse (dropLeading (reverse <$> whiteSpace) (length l) (reverse l)).

(** [s.trim()] *)
Definition trim (s : string) : string := ofBytes (trimEnd (trimStart (bytes s))).

(** ** Host data: tabs, tab groups, windows *)

Record Tab := {
  tab_id : Z;
  tab_groupId : Z;                  (* -1 when the tab is in no group *)
  tab_title : option string;
  tab_url : option string;
  tab_favIconUrl : option string;
  tab_pinned : bool;
  tab_active : bool
}.

Record TabGroup := {
  group_id : Z;
  group_windowId : Z;
  group_title : option string;
  group_color : string
}.

Record Window := {
  win_id : Z;
  win_focused : bool;
  win_tabs : list Tab
}.

Global Instance Tab_eq_dec : EqDecision Tab.
Proof. solve_decision. Defined.
Global Instance TabGroup_eq_dec : EqDecision TabGroup.
Proof. solve_decision. Defined.
Global Instance Window_eq_dec : EqDecision Window.
Proof. solve_decision. Defined.

(** ** The DOM *)

(** What a registered event listener does when it fires. *)
Inductive Listener :=
| ToggleSection (key : string)            (* click on a toggle arrow *)
| FocusWindow (windowId : Z)              (* click on a window title area *)
| ActivateTab (windowId tabId : Z)        (* click on a tab row *)
| ActivateGroup (windowId groupId : Z)    (* click on a group title area *)
| EditTitle (windowId : Z).               (* blur / Enter on a window title *)

Global Instance Listener_eq_dec : EqDecision Listener.
Proof. solve_decision. Defined.

Record Element := {
  tag : string;
  ident : option string;                  (* the id attribute *)
  classList : list string;
  attrs : list (string * string);         (* data-*, src, style, aria-* ... *)
  textContent : string;
  listener : option Listener
}.

Global Instance Element_eq_dec : EqDecision Element.
Proof. solve_decision. Defined.

Local Unset Elimination Schemes.
Inductive node := Node (e : Element) (kids : list node).
Local Set Elimination Schemes.

(** Induction on trees: the property holds of a node when it holds of all
    its children. *)
Section node_induction.
Variable P : node → Prop.
Hypothesis HNode : ∀ e ks, Forall P ks → P (Node e ks).

Fixpoint node_ind (n : node) : P n :=
  match n with
  | Node e ks =>
      HNode e ks
        ((fix all (l : list node) : Forall P l :=
            match l with
            | [] => @List.Forall_nil node P
            | k :: l' => @List.Forall_cons node P k l' (node_ind k) (all l')
            end) ks)
  end.
End node_induction.

Definition elem (n : node) : Element := match n with Node e _ => e end.
Definition children (n : node) : list node := match n with Node _ ks => ks end.

(** [document.createElement(t)] *)
Definition createElement (t : string) : Element :=
  {| tag := t; ident := None; classList := []; attrs := [];
     textContent := ""; listener := None |}.

Definition withClassName (c : list string) (e : Element) : Element :=
  {| tag := tag e; ident := ident e; classList := c; attrs := attrs e;
     textContent := textContent e; listener := listener e |}.

Definition withId (i : string) (e : Element) : Element :=
  {| tag := tag e; ident := Some i; classList := classList e; attrs := attrs e;
     textContent := textContent e; listener := listener e |}.

Definition withAttr (k v : string) (e : Element) : Element :=
  {| tag := tag e; ident := ident e; classList := classList e;
     attrs := attrs e ++ [(k, v)];
     textContent := textContent e; listener := listener e |}.

Definition withText (t : string) (e : Element) : Element :=
  {| tag := tag e; ident := ident e; classList := classList e; attrs := attrs e;
     textContent := t; listener := listener e |}.

Definition withListener (l : Listener) (e : Element) : Element :=
  {| tag := tag e; ident := ident e; classList := classList e; attrs := attrs e;
     textContent := textContent e; listener := Some l |}.

(** [el.classList.contains(c)] *)
Definition hasClass (c : string) (e : Element) : bool :=
  bool_decide (c ∈ classList e).

(** [el.classList.add(c)] *)
Definition classList_add (c : string) (e : Element) : Element :=
  if hasClass c e then e else withClassName (classList e ++ [c]) e.

(** [el.classList.remove(c)] *)
Definition classList_remove (c : string) (e : Element) : Element :=
  withClassName (filter (λ x, x ≠ c) (classList e)) e.

(** [el.classList.toggle(c, force)] *)
Definition classList_toggle (c : string) (force : bool) (e : Element) : Element :=
  if force then classList_add c e else classList_remove c e.

(** Structural equality of trees, used where the script passes a node it
    has just built as the reference of [insertBefore]. *)
Fixpoint node_eqb (n m : node) : bool :=
  match n, m with
  | Node e ks, Node e' ks' =>
      bool_decide (e = e') &&
      (fix all2 (l l' : list node) : bool :=
         match l, l' with
         | [], [] => true
         | k :: l, k' :: l' => node_eqb k k' && all2 l l'
         | _, _ => false
         end) ks ks'
  end.

(** [parent.appendChild(child)] *)
Definition appendChild (parent child : node) : node :=
  match parent with Node e ks => Node e (ks ++ [child]) end.

(** The children of a parent after [insertBefore(new, ref)].  The DOM raises
    NotFoundError when [ref] is not a child; the script's one call passes a
    child it has just appended (see [insertBefore_title_found]), and the
    unreachable case is given the value of appending. *)
Fixpoint insertBeforeIn (new ref : node) (ks : list node) : list node :=
  match ks with
  | [] => [new]
  | k :: ks' => if node_eqb k ref then new :: k :: ks'
                else k :: insertBeforeIn new ref ks'
  end.

(** [parent.insertBefore(new, ref)] *)
Definition insertBefore (parent new ref : node) : node :=
  match parent with Node e ks => Node e (insertBeforeIn new ref ks) end.

(** The elements of a tree in document order. *)
Fixpoint elements (n : node) : list Element :=
  match n with
  | Node e ks => e :: flat_map elements ks
  end.

(** [f] applied to every element of a tree. *)
Fixpoint mapNode (f : Element → Element) (n : node) : node :=
  match n with
  | Node e ks => Node (f e) (map (mapNode f) ks)
  end.

(** ** [innerHTML] *)

(** [el.innerHTML = markup] makes the children of the element what the
    browser's fragment parser makes of the markup: elements of any tag, id,
    class and attribute that the markup spells out.  The parser is the
    host's; the development holds whatever it makes of a markup.  No
    listener is registered on an element that comes out of it. *)
Class HtmlParser := parseHTML : string → list node.

Definition withoutListener (e : Element) : Element :=
  {| tag := tag e; ident := ident e; classList := classList e; attrs := attrs e;
     textContent := textContent e; listener := None |}.

Definition setInnerHTML {parser : HtmlParser} (n : node) (markup : string) : node :=
  Node (elem n) (map (mapNode withoutListener) (parseHTML markup)).

(** ** Tab rows: [createTabList] *)

(** The elements of a tab's row: favicon, title, and for a pinned tab the
    visual marker and the screen-reader-only label. *)
Definition faviconEl (tab : Tab) : Element :=
  withAttr "src"
    (if isHttpUrl (tab_favIconUrl tab)
     then default "" (tab_favIconUrl tab) else "icons/icon16.png")
    (withClassName ["item-icon"] (createElement "img")).

Definition tabTitleEl (tab : Tab) : Element :=
  withText (js_or (tab_title tab) (js_or (tab_url tab) ""))
    (withClassName ["item-title"] (createElement "span")).

Definition pinnedMarkerEl : Element :=
  withAttr "aria-hidden" "true"
    (withText "▴" (withClassName ["pinned-marker"] (createElement "span"))).

Definition srOnlyEl : Element :=
  withText " (pinned)" (withClassName ["sr-only"] (createElement "span")).

(** The body of the loop of [createTabList]: the [li] built for one tab. *)
Definition tabItem (windowId : Z) (tab : Tab) : node :=
  let tabLink :=
    Node (withListener (ActivateTab windowId (tab_id tab))
           (withAttr "data-tab-id" (pretty (tab_id tab))
             (withClassName ["tab-item"] (createElement "div")))) [] in
  let favicon := Node (faviconEl tab) [] in
  let title := Node (tabTitleEl tab) [] in
  let tabLink := appendChild tabLink favicon in
  let tabLink := appendChild tabLink title in
  let tabLink :=
    if tab_pinned tab then
      let marker := Node pinnedMarkerEl [] in
      let sr := Node srOnlyEl [] in
      let tabLink := insertBefore tabLink marker title in
      appendChild tabLink sr
    else tabLink in
  appendChild (Node (createElement "li") []) tabLink.

Definition createTabList (tabs : list Tab) (windowId : Z) (className : string) : node :=
  Node (withClassName [className] (createElement "ul")) (map (tabItem windowId) tabs).

(** ** The state of the panel *)

(** [chrome.storage.local]: the two keys the script reads and writes, each
    absent until first written. *)
Record Storage := {
  customWindowTitles : option (gmap Z string);
  storedCollapsedState : option (gmap string bool)
}.

(** The mount point with what is rendered under it and its scroll offset,
    the two global maps of the script, the persistent storage, and the
    full renders scheduled with [setTimeout] and not yet started, each with
    the [shouldRestoreScroll] it will be called with. *)
Record World := {
  dom : node;
  scrollTop : Z;
  windowTitles : gmap Z string;
  collapsedState : gmap string bool;
  storage : Storage;
  scheduledRenders : list bool
}.

(** [windowTitles = data.customWindowTitles || {}], where [data] is the
    answer of the storage. *)
Definition setWindowTitles (data : option (gmap Z string)) (w : World) : World :=
  {| dom := dom w; scrollTop := scrollTop w;
     windowTitles := default ∅ data;
     collapsedState := collapsedState w;
     storage := storage w;
     scheduledRenders := scheduledRenders w |}.

(** [loadWindowTitles] when nothing comes between the answer of the storage
    and the assignment. *)
Definition loadWindowTitles (w : World) : World :=
  setWindowTitles (customWindowTitles (storage w)) w.

(** [saveWindowTitle(windowId, title)].  The map in memory is updated and
    the whole map is handed to the storage in the task of the call; the
    storage serves its requests in the order in which they are made, so the
    write is taken as done when it is requested, and a load that is
    answered later reads it.  The timer that the function sets once the
    write is acknowledged is kept as a scheduled render from the call on:
    it fires in some later task. *)
Definition saveWindowTitle (windowId : Z) (title : string) (w : World) : World :=
  let titles := <[windowId := title]> (windowTitles w) in
  {| dom := dom w; scrollTop := scrollTop w;
     windowTitles := titles;
     collapsedState := collapsedState w;
     storage := {| customWindowTitles := Some titles;
                   storedCollapsedState := storedCollapsedState (storage w) |};
     scheduledRenders := scheduledRenders w ++ [true] |}.

(** [collapsedState = data.collapsedState || {}], where [data] is the
    answer of the storage. *)
Definition setCollapsedState (data : option (gmap string bool)) (w : World) : World :=
  {| dom := dom w; scrollTop := scrollTop w;
     windowTitles := windowTitles w;
     collapsedState := default ∅ data;
     storage := storage w;
     scheduledRenders := scheduledRenders w |}.

(** [loadCollapsedState] when nothing comes between the answer of the
    storage and the assignment. *)
Definition loadCollapsedState (w : World) : World :=
  setCollapsedState (storedCollapsedState (storage w)) w.

(** [saveCollapsedState(key, isCollapsed)]: the flag is set in memory and
    the whole map is handed to the storage, as for the titles. *)
Definition saveCollapsedState (key : string) (isCollapsed : bool) (w : World) : World :=
  let flags := <[key := isCollapsed]> (collapsedState w) in
  {| dom := dom w; scrollTop := scrollTop w;
     windowTitles := windowTitles w;
     collapsedState := flags;
     storage := {| customWindowTitles := customWindowTitles (storage w);
                   storedCollapsedState := Some flags |};
     scheduledRenders := scheduledRenders w |}.

(** The [blur] listener of a window's editable title, fired with the text
    the span holds. *)
Definition onTitleBlur (windowId : Z) (text : string) (w : World) : World :=
  saveWindowTitle windowId (trim text) w.

(** [windowTitles[id] || `Window ${id}`] *)
Definition displayTitle (titles : gmap Z string) (id : Z) : string :=
  js_or (titles !! id) ("Window " +:+ pretty id).

(** ** Window order *)

Section WindowOrder.
(** [a.localeCompare(b, undefined, {numeric: true, sensitivity: 'base'})]:
    the host's collation, negative, zero or positive. *)
Variable localeCompare : string → string → Z.

(** The comparator passed to [windows.sort]. *)
Definition compareWindows (titles : gmap Z string) (a b : Window) : Z :=
  if win_focused a && negb (win_focused b) then -1
  else if negb (win_focused a) && win_focused b then 1
  else localeCompare (displayTitle titles (win_id a))
                     (displayTitle titles (win_id b)).

(** [Array.prototype.sort] is stable; it is embedded as a stable insertion
    sort: an element goes in front of the first one that does not sort
    strictly before it. *)
Fixpoint insertWindow (titles : gmap Z string) (x : Window) (l : list Window)
  : list Window :=
  match l with
  | [] => [x]
  | y :: l' => if bool_decide (compareWindows titles x y ≤ 0)
               then x :: y :: l' else y :: insertWindow titles x l'
  end.

Definition sortWindows (titles : gmap Z string) (ws : list Window) : list Window :=
  foldr (insertWindow titles) [] ws.
End WindowOrder.

(** ** The render loop of a window's tabs *)

(** [tab.groupId > -1 ? tab.groupId : 'none'], with [None] for ['none']. *)
Definition groupKey (tab : Tab) : option Z :=
  if bool_decide (tab_groupId tab > -1) then Some (tab_groupId tab) else None.

(** [new Map(tabGroups.map(group => [group.id, group]))]: a later group
    replaces an earlier one of the same id. *)
Definition mkGroupMap (tabGroups : list TabGroup) : gmap Z TabGroup :=
  foldl (λ m group, <[group_id group := group]> m) ∅ tabGroups.

(** What one iteration appends to the window's content: the list of a
    single ungrouped tab, or a group's header with the group's tabs. *)
Inductive Block :=
| TabBlock (tab : Tab)
| GroupBlock (groupId : Z) (groupInfo : TabGroup) (tabsInGroup : list Tab).

Global Instance Block_eq_dec : EqDecision Block.
Proof. solve_decision. Defined.

(** [win.tabs.filter(t => t.groupId === groupId)] *)
Definition tabsOfGroup (groupId : Z) (tabs : list Tab) : list Tab :=
  filter (λ t, tab_groupId t = groupId) tabs.

(** The block built the first time a tab of group [groupId] is met. *)
Definition firstBlock (groupMap : gmap Z TabGroup) (win : Window)
    (tab : Tab) (groupId : Z) : Block :=
  match groupMap !! groupId with
  | Some groupInfo =>
      if bool_decide (group_windowId groupInfo = win_id win)
      then GroupBlock groupId groupInfo (tabsOfGroup groupId (win_tabs win))
      else TabBlock tab
  | None => TabBlock tab
  end.

(** The loop [for (const tab of win.tabs)] of [renderList], from the tabs
    still to visit and the set [renderedGroups]. *)
Fixpoint renderTabs (groupMap : gmap Z TabGroup) (win : Window)
    (tabs : list Tab) (renderedGroups : gset Z) : list Block :=
  match tabs with
  | [] => []
  | tab :: rest =>
      match groupKey tab with
      | None => TabBlock tab :: renderTabs groupMap win rest renderedGroups
      | Some groupId =>
          if bool_decide (groupId ∈ renderedGroups)
          then renderTabs groupMap win rest renderedGroups
          else firstBlock groupMap win tab groupId
               :: renderTabs groupMap win rest ({[groupId]} ∪ renderedGroups)
      end
  end.

Definition windowBlocks (groupMap : gmap Z TabGroup) (win : Window) : list Block :=
  renderTabs groupMap win (win_tabs win) ∅.

(** ** The earlier render loop (group-first) *)

(** A JavaScript [Map] from ['none'] or a group id to a list of tabs, in
    insertion order. *)
Definition TabsByGroup := list (option Z * list Tab).

(** [m.set(k, v)] *)
Fixpoint map_set (k : option Z) (v : list Tab) (m : TabsByGroup) : TabsByGroup :=
  match m with
  | [] => [(k, v)]
  | (k', v') :: m' =>
      if bool_decide (k' = k) then (k', v) :: m' else (k', v') :: map_set k v m'
  end.

(** [m.has(k)] *)
Definition map_has (k : option Z) (m : TabsByGroup) : bool :=
  bool_decide (k ∈ m.*1).

(** [m.get(k)] *)
Fixpoint map_get (k : option Z) (m : TabsByGroup) : option (list Tab) :=
  match m with
  | [] => None
  | (k', v') :: m' => if bool_decide (k' = k) then Some v' else map_get k m'
  end.

(** [m.get(k).push(tab)] *)
Fixpoint map_push (k : option Z) (tab : Tab) (m : TabsByGroup) : TabsByGroup :=
  match m with
  | [] => []
  | (k', v') :: m' =>
      if bool_decide (k' = k) then (k', v' ++ [tab]) :: m'
      else (k', v') :: map_push k tab m'
  end.

(** The map [tabsByGroup] after the two filling loops. *)
Definition tabsByGroup (tabGroups : list TabGroup) (win : Window) : TabsByGroup :=
  let m := [(None, [])] in
  let m := foldl (λ m group,
                    if bool_decide (group_windowId group = win_id win)
                    then map_set (Some (group_id group)) [] m else m)
                 m tabGroups in
  foldl (λ m tab,
           let groupId := groupKey tab in
           if map_has groupId m then map_push groupId tab m else m)
        m (win_tabs win).

(** The group blocks of the earlier loop, in the order of the map's
    entries. *)
Definition oldGroupBlocks (groupMap : gmap Z TabGroup) (win : Window)
    (m : TabsByGroup) : list Block :=
  flat_map (λ entry,
    match entry with
    | (None, _) => []
    | (Some groupId, tabs) =>
        if bool_decide (tabs = []) then []
        else match groupMap !! groupId with
             | Some groupInfo =>
                 if bool_decide (group_windowId groupInfo = win_id win)
                 then [GroupBlock groupId groupInfo tabs] else []
             | None => []
             end
    end) m.

(** What the earlier loop shows for a window, top to bottom: the group
    blocks, then the rows of the one list of ungrouped tabs. *)
Definition oldWindowBlocks (tabGroups : list TabGroup) (win : Window) : list Block :=
  let m := tabsByGroup tabGroups win in
  oldGroupBlocks (mkGroupMap tabGroups) win m
  ++ (TabBlock <$> default [] (map_get None m)).

(** ** Building the tree *)

(** [collapsedState[key]] used as a condition: an absent key is falsy. *)
Definition isCollapsed (flags : gmap string bool) (key : string) : bool :=
  default false (flags !! key).

Definition createToggleArrow (flags : gmap string bool) (key : string) : node :=
  let arrow := withClassName ["toggle-arrow"] (createElement "span") in
  let arrow := if negb (isCollapsed flags key)
               then classList_add "expanded" arrow else arrow in
  Node (withListener (ToggleSection key) arrow) [].

(** The collapsible [div] of a section, before its content is appended. *)
Definition sectionContent (flags : gmap string bool) (key : string) : Element :=
  let content := withId key (createElement "div") in
  if isCollapsed flags key then classList_add "collapsed" content else content.

(** The template literal assigned to the [innerHTML] of a group's title
    area, line breaks and indentation included: the colour and the title of
    the group are spliced into the markup as they are. *)
Definition groupTitleMarkup (groupInfo : TabGroup) : string :=
  let quote := String (ascii_of_nat 34) "" in
  let newline := String (ascii_of_nat 10) "" in
  newline +:+ "                            "
  +:+ "<span class=" +:+ quote +:+ "group-color-dot" +:+ quote
  +:+ " style=" +:+ quote +:+ "background-color: " +:+ group_color groupInfo
  +:+ ";" +:+ quote +:+ "></span>"
  +:+ newline +:+ "                            "
  +:+ "<span class=" +:+ quote +:+ "item-title" +:+ quote +:+ ">"
  +:+ js_or (group_title groupInfo) "Untitled Group" +:+ "</span>"
  +:+ newline +:+ "                        ".

(** The [ul] appended for a group met for the first time. *)
Definition groupList {parser : HtmlParser} (flags : gmap string bool) (win : Window)
    (groupId : Z) (groupInfo : TabGroup) (tabsInGroup : list Tab) : node :=
  let groupList := Node (withClassName ["group-list"] (createElement "ul")) [] in
  let groupItem := Node (createElement "li") [] in
  let groupHeader := Node (withClassName ["group-item"] (createElement "div")) [] in
  let groupContentId := "group-content-" +:+ pretty groupId in
  let tabsInGroupContainer := Node (sectionContent flags groupContentId) [] in
  let groupArrow := createToggleArrow flags groupContentId in
  let groupHeader := appendChild groupHeader groupArrow in
  let groupTitleArea :=
    Node (withListener (ActivateGroup (win_id win) groupId)
           (withClassName ["group-title-area"] (createElement "div"))) [] in
  let groupTitleArea := setInnerHTML groupTitleArea (groupTitleMarkup groupInfo) in
  let groupHeader := appendChild groupHeader groupTitleArea in
  let groupItem := appendChild groupItem groupHeader in
  let tabsInGroupList := createTabList tabsInGroup (win_id win) "tab-list-in-group" in
  let tabsInGroupContainer := appendChild tabsInGroupContainer tabsInGroupList in
  let groupItem := appendChild groupItem tabsInGroupContainer in
  appendChild groupList groupItem.

(** The child of the window's content that a block stands for. *)
Definition blockNode {parser : HtmlParser}
    (flags : gmap string bool) (win : Window) (b : Block) : node :=
  match b with
  | TabBlock tab => createTabList [tab] (win_id win) "tab-list-no-group"
  | GroupBlock groupId groupInfo tabsInGroup =>
      groupList flags win groupId groupInfo tabsInGroup
  end.

(** The body of the loop [for (const win of windows)]: the [li] of one
    window. *)
Definition windowItem {parser : HtmlParser}
    (titles : gmap Z string) (flags : gmap string bool)
    (groupMap : gmap Z TabGroup) (win : Window) : node :=
  let windowItem := Node (createElement "li") [] in
  let windowHeader :=
    Node (withAttr "data-window-id" (pretty (win_id win))
           (withClassName ["window-item"] (createElement "div"))) [] in
  let windowContentId := "window-content-" +:+ pretty (win_id win) in
  let windowContent := Node (sectionContent flags windowContentId) [] in
  let windowArrow := createToggleArrow flags windowContentId in
  let windowHeader := appendChild windowHeader windowArrow in
  let windowTitleArea :=
    Node (withListener (FocusWindow (win_id win))
           (withClassName ["window-title-area"] (createElement "div"))) [] in
  let windowTitleSpan :=
    Node (withListener (EditTitle (win_id win))
           (withText (displayTitle titles (win_id win))
             (withAttr "data-window-id" (pretty (win_id win))
               (withAttr "contenteditable" "true"
                 (withClassName ["item-title"; "editable-title"]
                   (createElement "span")))))) [] in
  let windowTitleArea := appendChild windowTitleArea windowTitleSpan in
  let windowHeader := appendChild windowHeader windowTitleArea in
  let windowItem := appendChild windowItem windowHeader in
  let windowContent :=
    foldl appendChild windowContent
      (map (blockNode flags win) (windowBlocks groupMap win)) in
  appendChild windowItem windowContent.

(** ** Queries and updates on the tree *)

(** The value of an attribute: the one set last. *)
Fixpoint lookupAttr (k : string) (l : list (string * string)) : option string :=
  match l with
  | [] => None
  | (k', v) :: l' =>
      match lookupAttr k l' with
      | Some v' => Some v'
      | None => if bool_decide (k' = k) then Some v else None
      end
  end.

Definition getAttr (k : string) (e : Element) : option string :=
  lookupAttr k (attrs e).

(** [document.querySelectorAll(sel).forEach(f)] where [f] changes the
    element it is given and nothing else. *)
Fixpoint forEachMatching (sel : Element → bool) (f : Element → Element)
    (n : node) : node :=
  match n with
  | Node e ks =>
      Node (if sel e then f e else e) (map (forEachMatching sel f) ks)
  end.

(** [document.querySelector(sel)]: the first match in document order. *)
Definition querySelector (sel : Element → bool) (n : node) : option Element :=
  head (filter (λ e, sel e = true) (elements n)).

(** [f] applied to the first element, in document order, that matches
    [sel]; [None] when there is none. *)
Fixpoint updateFirst (sel : Element → bool) (f : Element → Element)
    (n : node) : option node :=
  match n with
  | Node e ks =>
      if sel e then Some (Node (f e) ks)
      else
        Node e <$>
          (fix first (l : list node) : option (list node) :=
             match l with
             | [] => None
             | k :: l' =>
                 match updateFirst sel f k with
                 | Some k' => Some (k' :: l')
                 | None => cons k <$> first l'
                 end
             end) ks
  end.

(** The same search through a list of sibling trees. *)
Fixpoint updateFirstIn (sel : Element → bool) (f : Element → Element)
    (l : list node) : option (list node) :=
  match l with
  | [] => None
  | k :: l' =>
      match updateFirst sel f k with
      | Some k' => Some (k' :: l')
      | None => cons k <$> updateFirstIn sel f l'
      end
  end.

(** [f] applied to the first element of a list that matches [sel]. *)
Fixpoint updateFirstL (sel : Element → bool) (f : Element → Element)
    (l : list Element) : list Element :=
  match l with
  | [] => []
  | e :: l' => if sel e then f e :: l' else e :: updateFirstL sel f l'
  end.

(** [const el = document.querySelector(sel); if (el) f(el)] *)
Definition withFirstMatch (sel : Element → bool) (f : Element → Element)
    (n : node) : node :=
  default n (updateFirst sel f n).

(** A node is addressed by the child indices leading to it from the root. *)
Fixpoint nodeAt (path : list nat) (n : node) : option node :=
  match path with
  | [] => Some n
  | i :: path' => children n !! i ≫= nodeAt path'
  end.

(** [f] applied to the element at [path]. *)
Fixpoint updateAt (path : list nat) (f : Element → Element) (n : node) : node :=
  match n with
  | Node e ks =>
      match path with
      | [] => Node (f e) ks
      | i :: path' => Node e (alter (updateAt path' f) i ks)
      end
  end.

Definition setDom (d : node) (w : World) : World :=
  {| dom := d; scrollTop := scrollTop w; windowTitles := windowTitles w;
     collapsedState := collapsedState w; storage := storage w;
     scheduledRenders := scheduledRenders w |}.

(** [container.scrollTop = position] *)
Definition setScrollTop (position : Z) (w : World) : World :=
  {| dom := dom w; scrollTop := position; windowTitles := windowTitles w;
     collapsedState := collapsedState w; storage := storage w;
     scheduledRenders := scheduledRenders w |}.

Definition captureScrollPosition (w : World) : Z := scrollTop w.


(** [container.innerHTML = '']: the mount point loses its children, and with
    nothing left to scroll its offset is 0. *)
Definition clearContainer (w : World) : World :=
  setScrollTop 0 (setDom (Node (elem (dom w)) []) w).

(** ** [updateActiveStates] *)

(** [.window-item.active-window] *)
Definition selActiveWindow (e : Element) : bool :=
  hasClass "window-item" e && hasClass "active-window" e.

(** [.tab-item.active-tab] *)
Definition selActiveTab (e : Element) : bool :=
  hasClass "tab-item" e && hasClass "active-tab" e.

(** [.window-item[data-window-id='${id}']] *)
Definition selWindowItem (id : Z) (e : Element) : bool :=
  hasClass "window-item" e &&
  bool_decide (getAttr "data-window-id" e = Some (pretty id)).

(** [.tab-item[data-tab-id='${id}']] *)
Definition selTabItem (id : Z) (e : Element) : bool :=
  hasClass "tab-item" e &&
  bool_decide (getAttr "data-tab-id" e = Some (pretty id)).

(** [currentWindow.tabs.find(tab => tab.active)] *)
Definition findActiveTab (tabs : list Tab) : option Tab :=
  head (filter (λ tab, tab_active tab = true) tabs).

(** The effect of [updateActiveStates] on the tree, given the window that
    [chrome.windows.getLastFocused] answered. *)
Definition updateActiveDom (currentWindow : option Window) (d : node) : node :=
  let d := forEachMatching selActiveWindow (classList_remove "active-window") d in
  let d := forEachMatching selActiveTab (classList_remove "active-tab") d in
  match currentWindow with
  | Some currentWindow =>
      let d := withFirstMatch (selWindowItem (win_id currentWindow))
                 (classList_add "active-window") d in
      match findActiveTab (win_tabs currentWindow) with
      | Some activeTab =>
          withFirstMatch (selTabItem (tab_id activeTab))
            (classList_add "active-tab") d
      | None => d
      end
  | None => d
  end.

Definition updateActiveStates (currentWindow : option Window) (w : World) : World :=
  setDom (updateActiveDom currentWindow (dom w)) w.

(** ** [renderList] *)

Section RenderList.
Variable localeCompare : string → string → Z.
Context {parser : HtmlParser}.

(** The list mounted by a render: one item per window, in sorted order. *)
Definition windowList (titles : gmap Z string) (flags : gmap string bool)
    (windows : list Window) (tabGroups : list TabGroup) : node :=
  let windows := sortWindows localeCompare titles windows in
  let groupMap := mkGroupMap tabGroups in
  Node (withClassName ["window-list"] (createElement "ul"))
    (map (windowItem titles flags groupMap) windows).

End RenderList.

(** ** The toggle arrow's click listener *)

(** [document.getElementById(key)] *)
Definition selId (key : string) (e : Element) : bool :=
  bool_decide (ident e = Some key).

Definition getElementById (key : string) (d : node) : option Element :=
  querySelector (selId key) d.

(** The listener that [createToggleArrow(key)] registers, fired on the
    arrow at [arrowPath]. *)
Definition onArrowClick (arrowPath : list nat) (key : string) (w : World) : World :=
  match getElementById key (dom w) with
  | Some targetElement =>
      let isNowCollapsed := negb (hasClass "collapsed" targetElement) in
      let d := updateAt arrowPath
                 (classList_toggle "expanded" (negb isNowCollapsed)) (dom w) in
      let d := withFirstMatch (selId key)
                 (classList_toggle "collapsed" isNowCollapsed) d in
      saveCollapsedState key isNowCollapsed (setDom d w)
  | None => w
  end.

(** A click on the node at [path].  Only the toggle arrows' listener acts on
    the panel's own state; the other listeners call the host. *)
Definition click (path : list nat) (w : World) : World :=
  match nodeAt path (dom w) with
  | Some (Node e _) =>
      match listener e with
      | Some (ToggleSection key) => onArrowClick path key w
      | _ => w
      end
  | None => w
  end.

(** ** Event wiring *)

(** The [changeInfo] of [chrome.tabs.onUpdated], as far as the listener
    reads it. *)
Record ChangeInfo := {
  change_active : option bool;
  change_title : option string;
  change_favIconUrl : option string
}.

(** The events the script listens to. *)
Inductive HostEvent :=
| DOMContentLoaded
| TabCreated | TabRemoved | TabMoved
| WindowCreated | WindowRemoved
| TabGroupCreated | TabGroupRemoved | TabGroupUpdated
| WindowFocusChanged
| TabUpdated (changeInfo : ChangeInfo).

Global Instance ChangeInfo_eq_dec : EqDecision ChangeInfo.
Proof. solve_decision. Defined.
Global Instance HostEvent_eq_dec : EqDecision HostEvent.
Proof. solve_decision. Defined.

(** What a listener calls: [renderList(b)], [updateActiveStates()], or
    [setTimeout(() => renderList(b), ms)]. *)
Inductive Call :=
| CallRenderList (shouldRestoreScroll : bool)
| CallUpdateActiveStates
| CallSetTimeout (shouldRestoreScroll : bool).

(** A string or [undefined] used as a condition. *)
Definition truthy (a : option string) : bool :=
  match a with
  | Some s => negb (String.eqb s "")
  | None => false
  end.

(** The calls made by the listener registered for an event, in order. *)
Definition listenerCalls (e : HostEvent) : list Call :=
  match e with
  | DOMContentLoaded => [CallSetTimeout false]
  | TabCreated | TabRemoved | TabMoved
  | WindowCreated | WindowRemoved
  | TabGroupCreated | TabGroupRemoved | TabGroupUpdated => [CallRenderList true]
  | WindowFocusChanged => [CallUpdateActiveStates]
  | TabUpdated changeInfo =>
      (if bool_decide (change_active changeInfo ≠ None)
       then [CallUpdateActiveStates] else [])
      ++ (if truthy (change_title changeInfo) || truthy (change_favIconUrl changeInfo)
          then [CallRenderList true] else [])
  end.

(** ** The event loop *)

(** The script runs one task at a time.  A call of an asynchronous function
    runs up to its first [await] and is then in flight: it resumes in a
    later task, when the storage or the host has answered, and other tasks
    can come in between.  Nothing guards a render in flight against
    another one, against a click or against a title edit. *)

(** A [chrome.storage.local.get] in flight: issued; answered by the storage,
    with what it held when it read; delivered to the script. *)
Inductive Load (A : Type) :=
| Issued
| Answered (data : option A)
| Delivered.
Global Arguments Issued {A}.
Global Arguments Answered {A} data.
Global Arguments Delivered {A}.

(** A call of [renderList] between its start and the mounting of its list:
    its argument, the scroll offset it captured, and its two loads. *)
Record Render := {
  shouldRestoreScroll : bool;
  initialScrollPosition : Z;
  titlesLoad : Load (gmap Z string);
  flagsLoad : Load (gmap string bool)
}.

(** The panel with what is in flight: the calls of [renderList], oldest
    first; the number of calls of [updateActiveStates] that wait for
    [chrome.windows.getLastFocused]; the offsets that the timers of
    [restoreScrollPosition] will put back, oldest first. *)
Record Panel := {
  world : World;
  renders : list Render;
  activations : nat;
  scrollRestores : list Z
}.

Definition setWorld (w : World) (p : Panel) : Panel :=
  {| world := w; renders := renders p; activations := activations p;
     scrollRestores := scrollRestores p |}.

Definition setRenders (rs : list Render) (p : Panel) : Panel :=
  {| world := world p; renders := rs; activations := activations p;
     scrollRestores := scrollRestores p |}.

(** A panel with nothing in flight. *)
Definition idle (w : World) : Panel :=
  {| world := w; renders := []; activations := 0; scrollRestores := [] |}.

(** What happens in one task. *)
Inductive Step :=
| Event (e : HostEvent)                  (* the host fires an event *)
| Click (path : list nat)                (* a click on the node at [path] *)
| Blur (windowId : Z) (text : string)    (* a title span loses focus *)
| Timer (i : nat)                        (* the timer of a scheduled render fires *)
| TitlesRead (i : nat)                   (* the storage answers a load of titles *)
| FlagsRead (i : nat)                    (* the storage answers a load of flags *)
| TitlesLoaded (i : nat)                 (* [loadWindowTitles] resumes *)
| FlagsLoaded (i : nat)                  (* [loadCollapsedState] resumes *)
| Snapshot (i : nat) (windows : list Window) (tabGroups : list TabGroup)
                                         (* [renderList] resumes with the host's answers *)
| ScrollTimer                            (* a timer of [restoreScrollPosition] fires *)
| Focused (currentWindow : option Window).
                                         (* [updateActiveStates] resumes *)

Section EventLoop.
Variable localeCompare : string → string → Z.
Context {parser : HtmlParser}.

(** [renderList(shouldRestoreScroll)] up to its first [await]: the scroll
    offset is captured, the mount point is emptied, both loads are
    issued. *)
Definition startRender (shouldRestoreScroll : bool) (p : Panel) : Panel :=
  let initialScrollPosition :=
    if shouldRestoreScroll then captureScrollPosition (world p) else 0 in
  {| world := clearContainer (world p);
     renders := renders p
                ++ [ {| shouldRestoreScroll := shouldRestoreScroll;
                        initialScrollPosition := initialScrollPosition;
                        titlesLoad := Issued; flagsLoad := Issued |} ];
     activations := activations p;
     scrollRestores := scrollRestores p |}.

(** [setTimeout(() => renderList(shouldRestoreScroll), ms)] *)
Definition setTimeoutRender (shouldRestoreScroll : bool) (w : World) : World :=
  {| dom := dom w; scrollTop := scrollTop w; windowTitles := windowTitles w;
     collapsedState := collapsedState w; storage := storage w;
     scheduledRenders := scheduledRenders w ++ [shouldRestoreScroll] |}.

Definition startCall (c : Call) (p : Panel) : Panel :=
  match c with
  | CallRenderList shouldRestoreScroll => startRender shouldRestoreScroll p
  | CallUpdateActiveStates =>
      {| world := world p; renders := renders p;
         activations := S (activations p);
         scrollRestores := scrollRestores p |}
  | CallSetTimeout shouldRestoreScroll =>
      setWorld (setTimeoutRender shouldRestoreScroll (world p)) p
  end.

(** The timer of the [i]-th scheduled render fires. *)
Definition fireTimer (i : nat) (p : Panel) : Panel :=
  let w := world p in
  match scheduledRenders w !! i with
  | Some shouldRestoreScroll =>
      let w := {| dom := dom w; scrollTop := scrollTop w;
                  windowTitles := windowTitles w;
                  collapsedState := collapsedState w; storage := storage w;
                  scheduledRenders := delete i (scheduledRenders w) |} in
      startRender shouldRestoreScroll (setWorld w p)
  | None => p
  end.

(** The storage answers the load of titles of the [i]-th render in flight. *)
Definition readTitles (i : nat) (p : Panel) : Panel :=
  match renders p !! i with
  | Some r =>
      match titlesLoad r with
      | Issued =>
          let r := {| shouldRestoreScroll := shouldRestoreScroll r;
                      initialScrollPosition := initialScrollPosition r;
                      titlesLoad := Answered (customWindowTitles (storage (world p)));
                      flagsLoad := flagsLoad r |} in
          setRenders (<[i := r]> (renders p)) p
      | _ => p
      end
  | None => p
  end.

Definition readFlags (i : nat) (p : Panel) : Panel :=
  match renders p !! i with
  | Some r =>
      match flagsLoad r with
      | Issued =>
          let r := {| shouldRestoreScroll := shouldRestoreScroll r;
                      initialScrollPosition := initialScrollPosition r;
                      titlesLoad := titlesLoad r;
                      flagsLoad := Answered (storedCollapsedState (storage (world p))) |} in
          setRenders (<[i := r]> (renders p)) p
      | _ => p
      end
  | None => p
  end.

(** [loadWindowTitles] of the [i]-th render resumes with the answer. *)
Definition resumeLoadTitles (i : nat) (p : Panel) : Panel :=
  match renders p !! i with
  | Some r =>
      match titlesLoad r with
      | Answered data =>
          let r := {| shouldRestoreScroll := shouldRestoreScroll r;
                      initialScrollPosition := initialScrollPosition r;
                      titlesLoad := Delivered;
                      flagsLoad := flagsLoad r |} in
          setWorld (setWindowTitles data (world p))
                   (setRenders (<[i := r]> (renders p)) p)
      | _ => p
      end
  | None => p
  end.

Definition resumeLoadFlags (i : nat) (p : Panel) : Panel :=
  match renders p !! i with
  | Some r =>
      match flagsLoad r with
      | Answered data =>
          let r := {| shouldRestoreScroll := shouldRestoreScroll r;
                      initialScrollPosition := initialScrollPosition r;
                      titlesLoad := titlesLoad r;
                      flagsLoad := Delivered |} in
          setWorld (setCollapsedState data (world p))
                   (setRenders (<[i := r]> (renders p)) p)
      | _ => p
      end
  | None => p
  end.

(** [renderList] of the [i]-th render resumes after both loads, with the
    answers of the host: the windows are sorted and the list is built from
    the two maps as they are in memory now, the list is appended to the
    mount point, the timer of [restoreScrollPosition] is set when asked
    for, and [updateActiveStates] is called. *)
Definition mount (i : nat) (windows : list Window) (tabGroups : list TabGroup)
    (p : Panel) : Panel :=
  match renders p !! i with
  | Some r =>
      match titlesLoad r, flagsLoad r with
      | Delivered, Delivered =>
          let w := world p in
          let list := windowList localeCompare (windowTitles w) (collapsedState w)
                        windows tabGroups in
          {| world := setDom (appendChild (dom w) list) w;
             renders := delete i (renders p);
             activations := S (activations p);
             scrollRestores :=
               scrollRestores p
               ++ (if shouldRestoreScroll r then [initialScrollPosition r] else []) |}
      | _, _ => p
      end
  | None => p
  end.

(** The oldest timer of [restoreScrollPosition] fires:
    [container.scrollTop = position]. *)
Definition restoreScroll (p : Panel) : Panel :=
  match scrollRestores p with
  | position :: rest =>
      {| world := setScrollTop position (world p); renders := renders p;
         activations := activations p; scrollRestores := rest |}
  | [] => p
  end.

(** A call of [updateActiveStates] in flight resumes with the host's last
    focused window. *)
Definition resumeActivation (currentWindow : option Window) (p : Panel) : Panel :=
  match activations p with
  | S n =>
      {| world := updateActiveStates currentWindow (world p); renders := renders p;
         activations := n; scrollRestores := scrollRestores p |}
  | O => p
  end.

(** One task.  A step that nothing in flight waits for does nothing. *)
Definition step (s : Step) (p : Panel) : Panel :=
  match s with
  | Event e => foldl (λ p c, startCall c p) p (listenerCalls e)
  | Click path => setWorld (click path (world p)) p
  | Blur windowId text => setWorld (onTitleBlur windowId text (world p)) p
  | Timer i => fireTimer i p
  | TitlesRead i => readTitles i p
  | FlagsRead i => readFlags i p
  | TitlesLoaded i => resumeLoadTitles i p
  | FlagsLoaded i => resumeLoadFlags i p
  | Snapshot i windows tabGroups => mount i windows tabGroups p
  | ScrollTimer => restoreScroll p
  | Focused currentWindow => resumeActivation currentWindow p
  end.

Definition run (steps : list Step) (p : Panel) : Panel :=
  foldl (λ p s, step s p) p steps.

(** The tasks of the [i]-th render in flight from the answers of the
    storage to its activation update, given the answers of the host. *)
Definition renderSteps (i : nat) (windows : list Window) (tabGroups : list TabGroup)
    (currentWindow : option Window) : list Step :=
  [ TitlesRead i; FlagsRead i; TitlesLoaded i; FlagsLoaded i;
    Snapshot i windows tabGroups; ScrollTimer; Focused currentWindow ].

(** A call of [renderList] that runs alone: it starts with nothing in
    flight, and no other task comes between its start and its activation
    update.  The mount point is emptied, both maps are reloaded from
    storage, the tree is built and mounted, the scroll offset is put back
    when asked for, and the active markers are refreshed. *)
Definition renderList (shouldRestoreScroll : bool)
    (windows : list Window) (tabGroups : list TabGroup)
    (currentWindow : option Window) (w : World) : World :=
  world (run (renderSteps 0 windows tabGroups currentWindow)
             (startRender shouldRestoreScroll (idle w))).
End EventLoop.

(** ** Notions used to state the properties *)

(** The string consists of white space only. *)
Definition blank (s : string) : Prop :=
  ∃ codes, Forall (λ c, c ∈ whiteSpace) codes ∧ bytes s = concat codes.

(** The string starts, or ends, with a white space character. *)
Definition startsWithSpace (s : string) : bool :=
  bool_decide (Exists (λ c, c `prefix_of` bytes s) whiteSpace).

Definition endsWithSpace (s : string) : bool :=
  bool_decide (Exists (λ c, c `suffix_of` bytes s) whiteSpace).

(** U+00A0, the no-break space that an editable element puts where a
    space would collapse. *)
Definition nbsp : string := ofBytes (ascii_of_nat <$> [194; 160]%nat).

(** What the tab [tab] adds to the window's content when the tabs [earlier]
    come before it. *)
Definition contribution (groupMap : gmap Z TabGroup) (win : Window)
    (earlier : list Tab) (tab : Tab) : list Block :=
  match groupKey tab with
  | None => [TabBlock tab]
  | Some groupId =>
      if bool_decide (Some groupId ∈ groupKey <$> earlier) then []
      else [firstBlock groupMap win tab groupId]
  end.

(** Sample host data for the worked scenarios: an unpinned, inactive tab,
    the group "Work" of window 1, and a window without tabs. *)
Definition exampleTab (id groupId : Z) : Tab :=
  {| tab_id := id; tab_groupId := groupId;
     tab_title := Some ("Tab " +:+ pretty id); tab_url := None;
     tab_favIconUrl := None; tab_pinned := false; tab_active := false |}.

Definition exampleGroup : TabGroup :=
  {| group_id := 5; group_windowId := 1;
     group_title := Some "Work"; group_color := "blue" |}.

(** [x] occurs before [y] in [l]. *)
Definition precedes {A} (l : list A) (x y : A) : Prop :=
  ∃ l1 l2 l3, l = l1 ++ x :: l2 ++ y :: l3.

(** The effective display title of a window: the custom title stored under
    its id when one is set, a stored empty title counting as none, and
    "Window {id}" otherwise. *)
Definition effectiveTitle (titles : gmap Z string) (W : Window) : string :=
  match titles !! win_id W with
  | Some custom =>
      if bool_decide (custom = "") then "Window " +:+ pretty (win_id W) else custom
  | None => "Window " +:+ pretty (win_id W)
  end.

(** A collation to run the sort with: digits runs are not special here,
    strings are compared by length. *)
Definition byLength (a b : string) : Z :=
  Z.of_nat (String.length a) - Z.of_nat (String.length b).

Definition exampleWindow (id : Z) (focused : bool) : Window :=
  {| win_id := id; win_focused := focused; win_tabs := [] |}.

(** An element with its class list rewritten by [F]. *)
Definition classOp (F : list string → list string) (e : Element) : Element :=
  withClassName (F (classList e)) e.

(** [classList.add] and [classList.remove] on the list of classes. *)
Definition addClass (c : string) (l : list string) : list string :=
  if bool_decide (c ∈ l) then l else l ++ [c].

Definition removeClass (c : string) (l : list string) : list string :=
  filter (λ x, x ≠ c) l.

(** What the two [forEach] passes of [updateActiveStates] do to a class
    list. *)
Definition clearWindowMark (l : list string) : list string :=
  if bool_decide ("window-item" ∈ l) then removeClass "active-window" l else l.

Definition clearTabMark (l : list string) : list string :=
  if bool_decide ("tab-item" ∈ l) then removeClass "active-tab" l else l.

Definition clearMarks (l : list string) : list string :=
  clearTabMark (clearWindowMark l).

(** The class list without the two markers. *)
Definition withoutMarks (l : list string) : list string :=
  removeClass "active-window" (removeClass "active-tab" l).

(** The second half of [updateActiveStates]: marking the row of the current
    window and the row of its active tab. *)
Definition markActive (currentWindow : option Window) (d : node) : node :=
  match currentWindow with
  | Some currentWindow =>
      let d := withFirstMatch (selWindowItem (win_id currentWindow))
                 (classList_add "active-window") d in
      match findActiveTab (win_tabs currentWindow) with
      | Some activeTab =>
          withFirstMatch (selTabItem (tab_id activeTab))
            (classList_add "active-tab") d
      | None => d
      end
  | None => d
  end.

(** The number of elements of the tree that match a selector. *)
Definition countMatching (sel : Element → bool) (d : node) : nat :=
  length (filter (λ e, sel e = true) (elements d)).

(** What the activation updater must leave alone on every element:
    everything but the class list. *)
Definition rowData (e : Element)
  : string * option string * list (string * string) * string * option Listener :=
  (tag e, ident e, attrs e, textContent e, listener e).

(** What a render must establish on an arrow, given the flags it was built
    from: an arrow made for [k] points down (expanded) exactly when the
    flag of [k] is not set. *)
Definition fromFlags (flags : gmap string bool) (e : Element) : Prop :=
  ∀ k, listener e = Some (ToggleSection k) →
       hasClass "expanded" e = negb (isCollapsed flags k).

(** Where a render puts the regions, as a path from the mount point: the
    second child of the item of a window in the list, and the second child
    of the item of a group in the content of a window. *)
Definition regionPath (path : list nat) : Prop :=
  (∃ i, path = [0; i; 1]%nat) ∨ (∃ i j, path = [0; i; 1; j; 0; 1]%nat).

(** The elements under the mount point. *)
Definition belowMount (d : node) : list Element := flat_map elements (children d).

(** The panel before its first render: an empty mount point, nothing in
    memory, nothing stored. *)
Definition emptyWorld : World :=
  {| dom := Node (withId "sidebar-content" (createElement "div")) [];
     scrollTop := 0; windowTitles := ∅; collapsedState := ∅;
     storage := {| customWindowTitles := None; storedCollapsedState := None |};
     scheduledRenders := [] |}.

(** A panel that has just been opened over a storage: an empty mount
    point and nothing in memory yet. *)
Definition freshSession (st : Storage) : World :=
  {| dom := Node (withId "sidebar-content" (createElement "div")) [];
     scrollTop := 0; windowTitles := ∅; collapsedState := ∅;
     storage := st; scheduledRenders := [] |}.

(** A window of three tabs of which only the second is in the group
    "Work". *)
Definition scenarioWindow : Window :=
  {| win_id := 1; win_focused := true;
     win_tabs := [exampleTab 1 (-1); exampleTab 2 5; exampleTab 3 (-1)] |}.

(** A stand-in for the browser's parser in the scenarios: it knows the
    markup of the title area of the group "Work", two [span]s, and makes
    nothing of any other markup. *)
Definition exampleParser : HtmlParser := λ markup,
  if String.eqb markup (groupTitleMarkup exampleGroup)
  then [ Node (withAttr "style" "background-color: blue;"
                 (withClassName ["group-color-dot"] (createElement "span"))) [];
         Node (withText "Work"
                 (withClassName ["item-title"] (createElement "span"))) [] ]
  else [].

(** A group whose title spells out an element that carries the key of the
    group's own region. *)
Definition markupGroup : TabGroup :=
  {| group_id := 5; group_windowId := 1;
     group_title := Some "<i id=group-content-5></i>"; group_color := "blue" |}.

(** What a browser makes of the markup of that group: the colour dot, and
    the title span that holds the element spelled out in the title. *)
Definition markupParser : HtmlParser := λ markup,
  if String.eqb markup (groupTitleMarkup markupGroup)
  then [ Node (withAttr "style" "background-color: blue;"
                 (withClassName ["group-color-dot"] (createElement "span"))) [];
         Node (withClassName ["item-title"] (createElement "span"))
              [ Node (withId "group-content-5" (createElement "i")) [] ] ]
  else [].

(** The panel after its first render of one window whose second tab is in
    the group "Work". *)
Definition scenarioWorld : World :=
  renderList (parser := exampleParser) byLength false [scenarioWindow] [exampleGroup]
    (Some scenarioWindow) emptyWorld.

(** The same window as the host reports it once its second tab is the
    active one. *)
Definition scenarioFocus : Window :=
  {| win_id := 1; win_focused := true;
     win_tabs :=
       [ exampleTab 1 (-1);
         {| tab_id := 2; tab_groupId := 5; tab_title := Some "Tab 2";
            tab_url := None; tab_favIconUrl := None;
            tab_pinned := false; tab_active := true |};
         exampleTab 3 (-1) ] |}.

(** The data attribute and the classes of the marked rows of a tree. *)
Definition markedRows (d : node) : list (list (string * string) * list string) :=
  (λ e, (attrs e, classList e))
  <$> filter (λ e, selActiveWindow e = true ∨ selActiveTab e = true) (elements d).

(** The arrow of the group's region in that tree: list, window item,
    content, group list, group item, group header, arrow. *)
Definition scenarioGroupArrow : list nat := [0; 0; 1; 1; 0; 0; 0]%nat.

(** The map after the first filling loop: one empty entry for ['none'] and
    one for each group id of this window, each key once. *)
Definition groupEntries (tabGroups : list TabGroup) (win : Window) : TabsByGroup :=
  foldl (λ m group,
           if bool_decide (group_windowId group = win_id win)
           then map_set (Some (group_id group)) [] m else m)
        [(None, [])] tabGroups.

(** One step of the second filling loop, as a map over the entries. *)
Definition pushedEntry (k : option Z) (tab : Tab) (e : option Z * list Tab)
  : option Z * list Tab :=
  (e.1, e.2 ++ if bool_decide (k = e.1) then [tab] else []).

(** The group block that the earlier loop shows for the key [k]. *)
Definition oldGroupBlock (groupMap : gmap Z TabGroup) (win : Window)
    (k : option Z) : list Block :=
  match k with
  | None => []
  | Some g =>
      let tabs := filter (λ t, groupKey t = Some g) (win_tabs win) in
      if bool_decide (tabs = []) then []
      else match groupMap !! g with
           | Some info =>
               if bool_decide (group_windowId info = win_id win)
               then [GroupBlock g info tabs] else []
           | None => []
           end
  end.

(** The block is a group's block, not the row of a single tab. *)
Definition isGroupBlock (b : Block) : Prop :=
  match b with GroupBlock _ _ _ => True | TabBlock _ => False end.

Global Instance isGroupBlock_dec (b : Block) : Decision (isGroupBlock b).
Proof. destruct b; cbn; apply _. Defined.

(** The two maps in memory hold what the storage holds. *)
Definition inSync (w : World) : Prop :=
  windowTitles w = default ∅ (customWindowTitles (storage w)) ∧
  collapsedState w = default ∅ (storedCollapsedState (storage w)).

(** Every answer of the storage that is under way to the script, for some
    render in flight, is what the storage holds now. *)
Definition answersCurrent (p : Panel) : Prop :=
  Forall (λ r,
            (∀ data, titlesLoad r = Answered data →
                     data = customWindowTitles (storage (world p))) ∧
            (∀ data, flagsLoad r = Answered data →
                     data = storedCollapsedState (storage (world p))))
         (renders p).



(** The tasks in which the two loads of the [i]-th render in flight are
    answered and delivered. *)
Definition loadSteps (i : nat) : list Step :=
  [TitlesRead i; FlagsRead i; TitlesLoaded i; FlagsLoaded i].

(** Two renders that overlap on a panel that has nothing stored: the second
    starts before the first has loaded anything, the first mounts the
    scenario's window, and the storage then answers the second's load of
    titles. *)
Definition overlapSteps : list Step :=
  [Event TabCreated; Event TabRemoved] ++ loadSteps 0
  ++ [Snapshot 0 [scenarioWindow] [exampleGroup]; TitlesRead 0].

(** The persisted title of a window, if any. *)
Definition storedTitle (w : World) (windowId : Z) : option string :=
  customWindowTitles (storage w) ≫= lookup windowId.

(** The persisted flag of a section, if any. *)
Definition storedFlag (w : World) (key : string) : option bool :=
  storedCollapsedState (storage w) ≫= lookup key.

(** The tabs whose rows a block holds, top to bottom. *)
Definition blockTabs (b : Block) : list Tab :=
  match b with
  | TabBlock tab => [tab]
  | GroupBlock _ _ tabsInGroup => tabsInGroup
  end.

(** The tab is in no group, or in an existing group of the window. *)
Definition validGroupRef (groupMap : gmap Z TabGroup) (win : Window) (t : Tab)
  : Prop :=
  ∀ g, groupKey t = Some g →
       ∃ info, groupMap !! g = Some info ∧ group_windowId info = win_id win.

(** The elements a user can act on, in document order: each element that
    has a listener, with the listener and the element's own text. *)
Definition interactive (l : list Element) : list (Listener * string) :=
  omap (λ e, (λ h, (h, textContent e)) <$> listener e) l.

(** What a block lets the user act on: the row of each of its tabs, after
    the arrow and the title area of the group for a group's block. *)
Definition blockControls (win : Window) (b : Block) : list (Listener * string) :=
  match b with
  | TabBlock tab => [(ActivateTab (win_id win) (tab_id tab), "")]
  | GroupBlock groupId _ tabsInGroup =>
      [ (ToggleSection ("group-content-" +:+ pretty groupId), "");
        (ActivateGroup (win_id win) groupId, "") ]
      ++ ((λ t, (ActivateTab (win_id win) (tab_id t), "")) <$> tabsInGroup)
  end.

(** What the item of a window lets the user act on: its arrow, its title
    area, its editable title with the title displayed, and its blocks. *)
Definition windowControls (titles : gmap Z string) (groupMap : gmap Z TabGroup)
    (win : Window) : list (Listener * string) :=
  [ (ToggleSection ("window-content-" +:+ pretty (win_id win)), "");
    (FocusWindow (win_id win), "");
    (EditTitle (win_id win), displayTitle titles (win_id win)) ]
  ++ flat_map (blockControls win) (windowBlocks groupMap win).

(** The texts that show: the non-empty ones, in order. *)
Definition visible (l : list string) : list string :=
  omap (λ s, if String.eqb s "" then None else Some s) l.

(** The texts that the elements of a list show, in document order. *)
Definition shownTexts (l : list Element) : list string :=
  visible (textContent <$> l).

(** What the row of a tab reads: its title, or else its URL, between the
    marker and the spoken label when the tab is pinned. *)
Definition tabTexts (t : Tab) : list string :=
  (if tab_pinned t then ["▴"] else [])
  ++ visible [js_or (tab_title t) (js_or (tab_url t) "")]
  ++ (if tab_pinned t then [" (pinned)"] else []).

(** What the title area of a group reads: the texts of the elements that
    the host's parser makes of the markup built around the group's colour
    and title. *)
Definition groupTitleTexts {parser : HtmlParser} (groupInfo : TabGroup) : list string :=
  shownTexts (flat_map elements (parseHTML (groupTitleMarkup groupInfo))).

(** What a block reads: the rows of its tabs, under the group's title area
    for a group's block. *)
Definition blockTexts {parser : HtmlParser} (b : Block) : list string :=
  match b with
  | TabBlock tab => tabTexts tab
  | GroupBlock _ groupInfo tabsInGroup =>
      groupTitleTexts groupInfo ++ flat_map tabTexts tabsInGroup
  end.

(** What the item of a window reads: the displayed title, then its
    blocks. *)
Definition windowTexts {parser : HtmlParser} (titles : gmap Z string)
    (groupMap : gmap Z TabGroup) (win : Window) : list string :=
  displayTitle titles (win_id win) :: flat_map blockTexts (windowBlocks groupMap win).




(** * Properties *)

(** ** Tab rows *)

Lemma node_eqb_refl (n : node) : node_eqb n n = true.
Proof.
  induction n as [e ks IH] using node_ind. simpl.
  rewrite bool_decide_eq_true_2 by reflexivity. simpl.
  induction IH as [|k ks Hk _ IHks]; [reflexivity|].
  rewrite Hk, IHks. reflexivity.
Qed.

Lemma favicon_is_not_title (tab : Tab) :
  node_eqb (Node (faviconEl tab) []) (Node (tabTitleEl tab) []) = false.
Proof.
  unfold node_eqb. rewrite bool_decide_eq_false_2; [reflexivity|].
  intros H. apply (f_equal tag) in H. discriminate H.
Qed.

(** The reference node of the script's [insertBefore] is a child of the row
    at the call. *)
Lemma insertBefore_title_found (tab : Tab) (new : node) :
  insertBeforeIn new (Node (tabTitleEl tab) [])
    [Node (faviconEl tab) []; Node (tabTitleEl tab) []]
  = [Node (faviconEl tab) []; new; Node (tabTitleEl tab) []].
Proof.
  unfold insertBeforeIn.
  rewrite favicon_is_not_title, node_eqb_refl. reflexivity.
Qed.

(** C8. The row of a pinned tab holds, in this order, the favicon, a
    visual marker (class [pinned-marker], hidden from assistive
    technology), the title element and a screen-reader-only element whose
    text is " (pinned)"; the title element's own text is the tab's title
    (else url, else empty) without that suffix.  The row of a tab that is
    not pinned holds the favicon and the title only, and no element of it
    carries the class [pinned-marker] or [sr-only]. *)
Theorem pinned_tab_row_marker (windowId : Z) (tab : Tab) :
  ∃ link,
    children (tabItem windowId tab) = [link] ∧
    hasClass "tab-item" (elem link) = true ∧
    if tab_pinned tab then
      ∃ marker title sr,
        children link = [Node (faviconEl tab) []; marker; title; sr] ∧
        hasClass "pinned-marker" (elem marker) = true ∧
        (attrs (elem marker)) = [("aria-hidden", "true")] ∧
        hasClass "item-title" (elem title) = true ∧
        textContent (elem title) = js_or (tab_title tab) (js_or (tab_url tab) "") ∧
        hasClass "sr-only" (elem sr) = true ∧
        textContent (elem sr) = " (pinned)"
    else
      ∃ title,
        children link = [Node (faviconEl tab) []; title] ∧
        textContent (elem title) = js_or (tab_title tab) (js_or (tab_url tab) "") ∧
        ∀ e, e ∈ elements (tabItem windowId tab) →
             hasClass "pinned-marker" e = false ∧ hasClass "sr-only" e = false.
Proof.
  unfold tabItem. cbn [appendChild insertBefore app].
  destruct (tab_pinned tab); cbn [appendChild insertBefore app].
  - rewrite insertBefore_title_found.
    eexists. split; [reflexivity|]. split; [reflexivity|].
    eexists _, _, _. repeat split.
  - eexists. split; [reflexivity|]. split; [reflexivity|].
    eexists. split; [reflexivity|]. split; [reflexivity|].
    intros e He. simpl in He.
    repeat (apply elem_of_cons in He as [->|He]); [| | | | by apply elem_of_nil in He];
      split; reflexivity.
Qed.

(** ** Custom titles *)

Lemma js_or_nonempty (a : option string) (d : string) :
  d ≠ "" → js_or a d ≠ "".
Proof.
  intros Hd. unfold js_or. destruct a as [s|]; [|exact Hd].
  destruct (String.eqb_spec s ""); [exact Hd|assumption].
Qed.

Lemma displayTitle_custom (titles : gmap Z string) (id : Z) (s : string) :
  titles !! id = Some s → s ≠ "" → displayTitle titles id = s.
Proof.
  intros Hs Hne. unfold displayTitle, js_or. rewrite Hs.
  destruct (String.eqb_spec s ""); [contradiction|reflexivity].
Qed.

(** C3, as the specification states it, fails: with the empty string stored
    for window 1 the displayed title is "Window 1", not the empty string. *)
Lemma cleared_title_not_displayed_empty :
  let titles : gmap Z string := <[1 := ""]> ∅ in
  titles !! 1 = Some "" ∧ displayTitle titles 1 = "Window 1" ∧
  displayTitle titles 1 ≠ "".
Proof. vm_compute. repeat split. discriminate. Qed.

(** C3 (amended). A window id whose stored title is the empty string is
    displayed with the default title "Window {id}", exactly like a window id
    with no entry; the displayed title is never the empty string. *)
Theorem cleared_title_displays_default (titles : gmap Z string) (id : Z) :
  titles !! id = Some "" ∨ titles !! id = None →
  displayTitle titles id = "Window " +:+ pretty id ∧
  displayTitle titles id = displayTitle (delete id titles) id ∧
  displayTitle titles id ≠ "".
Proof.
  intros H.
  assert (Hd : displayTitle titles id = "Window " +:+ pretty id).
  { unfold displayTitle. destruct H as [-> | ->]; reflexivity. }
  split; [exact Hd|]. split.
  - rewrite Hd. unfold displayTitle. rewrite lookup_delete_eq. reflexivity.
  - apply js_or_nonempty. discriminate.
Qed.

Lemma cleared_title_displays_default_witness :
  displayTitle (<[7 := ""]> ∅) 7 = "Window " +:+ pretty 7 ∧
  displayTitle (<[7 := ""]> ∅) 7 = displayTitle (delete 7 (<[7 := ""]> ∅)) 7 ∧
  displayTitle (<[7 := ""]> ∅) 7 ≠ "".
Proof.
  apply (cleared_title_displays_default (<[7 := ""]> ∅) 7).
  left. reflexivity.
Defined.

(** *** [trim] *)

Lemma bytes_app (a b : string) : bytes (a +:+ b) = bytes a ++ bytes b.
Proof.
  unfold bytes. induction a as [|c a IH]; [reflexivity|]. simpl.
  rewrite IH. reflexivity.
Qed.

Lemma bytes_ofBytes (l : list ascii) : bytes (ofBytes l) = l.
Proof. apply String.list_ascii_of_string_of_list_ascii. Qed.

Lemma ofBytes_bytes (s : string) : ofBytes (bytes s) = s.
Proof. apply String.string_of_list_ascii_of_string. Qed.

Lemma bytes_inj (a b : string) : bytes a = bytes b → a = b.
Proof. intros H. rewrite <- (ofBytes_bytes a), <- (ofBytes_bytes b), H. reflexivity. Qed.

Lemma dropPrefix_Some (p l l' : list ascii) :
  dropPrefix p l = Some l' ↔ l = p ++ l'.
Proof.
  revert l. induction p as [|a p IH]; intros l; cbn.
  - split; [intros [= ->]; reflexivity|intros ->; reflexivity].
  - destruct l as [|b l]; [split; discriminate|].
    destruct (Ascii.eqb a b) eqn:Hab.
    + apply Ascii.eqb_eq in Hab as ->. rewrite IH. split; [intros ->; reflexivity|].
      intros [= ->]. reflexivity.
    + apply Ascii.eqb_neq in Hab. split; [discriminate|]. intros [= -> _]. congruence.
Qed.

Lemma dropPrefix_None (p l : list ascii) :
  dropPrefix p l = None → ¬ p `prefix_of` l.
Proof.
  intros Hnone [l' ->].
  assert (H : dropPrefix p (p ++ l') = Some l') by (apply dropPrefix_Some; reflexivity).
  congruence.
Qed.

Lemma dropOne_Some (codes : list (list ascii)) (l l' : list ascii) :
  dropOne codes l = Some l' → ∃ c, c ∈ codes ∧ l = c ++ l'.
Proof.
  induction codes as [|c codes IH]; cbn; [discriminate|].
  destruct (dropPrefix c l) as [l1|] eqn:Hc.
  - intros [= ->]. exists c. split; [left|]. apply dropPrefix_Some, Hc.
  - intros H. destruct (IH H) as (c' & Hin & ->). exists c'. split; [right; exact Hin|reflexivity].
Qed.

Lemma dropOne_None (codes : list (list ascii)) (l : list ascii) :
  dropOne codes l = None → Forall (λ c, ¬ c `prefix_of` l) codes.
Proof.
  induction codes as [|c codes IH]; cbn; [constructor|].
  destruct (dropPrefix c l) as [l1|] eqn:Hc; [discriminate|].
  intros H. constructor; [apply dropPrefix_None, Hc|apply IH, H].
Qed.

(** What is dropped is a run of codes, and when the rounds suffice no code
    leads what is kept. *)
Lemma dropLeading_spec (codes : list (list ascii)) (n : nat) (l : list ascii) :
  Forall (λ c, c ≠ []) codes →
  ∃ dropped,
    Forall (λ c, c ∈ codes) dropped ∧
    l = concat dropped ++ dropLeading codes n l ∧
    ((length l ≤ n)%nat → Forall (λ c, ¬ c `prefix_of` dropLeading codes n l) codes).
Proof.
  intros Hne. revert l. induction n as [|n IH]; intros l; cbn.
  - exists []. split; [constructor|]. split; [reflexivity|].
    intros Hlen. destruct l; [|cbn in Hlen; lia].
    apply Forall_forall. intros c Hc [k Hk].
    symmetry in Hk. apply app_eq_nil in Hk as [-> _].
    rewrite Forall_forall in Hne. exact (Hne _ Hc eq_refl).
  - destruct (dropOne codes l) as [l'|] eqn:Hone.
    + destruct (dropOne_Some _ _ _ Hone) as (c & Hc & ->).
      destruct (IH l') as (dropped & Hd & Heq & Hfree).
      exists (c :: dropped). split; [constructor; assumption|]. split.
      * cbn. rewrite <- app_assoc, <- Heq. reflexivity.
      * intros Hlen. apply Hfree. rewrite length_app in Hlen.
        rewrite Forall_forall in Hne. specialize (Hne _ Hc).
        destruct c; [congruence|]. cbn in Hlen. lia.
    + exists []. split; [constructor|]. split; [reflexivity|].
      intros _. apply dropOne_None, Hone.
Qed.

Lemma whiteSpace_nonempty : Forall (λ c, c ≠ []) whiteSpace.
Proof. unfold whiteSpace. repeat constructor; discriminate. Qed.

Lemma reverse_concat {A} (ls : list (list A)) :
  reverse (concat ls) = concat (reverse (reverse <$> ls)).
Proof.
  induction ls as [|l ls IH]; [reflexivity|].
  rewrite fmap_cons, reverse_cons, concat_app, <- IH. cbn [concat].
  rewrite app_nil_r. apply reverse_app.
Qed.

Lemma trimStart_spec (l : list ascii) :
  ∃ dropped,
    Forall (λ c, c ∈ whiteSpace) dropped ∧
    l = concat dropped ++ trimStart l ∧
    Forall (λ c, ¬ c `prefix_of` trimStart l) whiteSpace.
Proof.
  destruct (dropLeading_spec whiteSpace (length l) l whiteSpace_nonempty)
    as (dropped & Hd & Heq & Hfree).
  exists dropped. split; [exact Hd|]. split; [exact Heq|]. apply Hfree. reflexivity.
Qed.

Lemma trimEnd_spec (l : list ascii) :
  ∃ dropped,
    Forall (λ c, c ∈ whiteSpace) dropped ∧
    l = trimEnd l ++ concat dropped ∧
    Forall (λ c, ¬ c `suffix_of` trimEnd l) whiteSpace.
Proof.
  assert (Hne : Forall (λ c : list ascii, c ≠ []) (reverse <$> whiteSpace)).
  { apply Forall_fmap. eapply Forall_impl; [apply whiteSpace_nonempty|].
    intros c Hc Hr. apply Hc. apply (f_equal reverse) in Hr.
    rewrite reverse_involutive in Hr. exact Hr. }
  destruct (dropLeading_spec _ (length l) (reverse l) Hne)
    as (dropped & Hd & Heq & Hfree).
  exists (reverse (reverse <$> dropped)). split; [|split].
  - apply Forall_reverse, Forall_fmap. eapply Forall_impl; [exact Hd|].
    intros c Hc. cbn. apply list_elem_of_fmap in Hc as (c' & -> & Hc').
    rewrite reverse_involutive. exact Hc'.
  - unfold trimEnd. rewrite <- reverse_concat, <- reverse_app, <- Heq.
    symmetry. apply reverse_involutive.
  - unfold trimEnd. apply Forall_forall. intros c Hc Hsuf.
    assert (Hlen : (length (reverse l) ≤ length l)%nat)
      by (rewrite length_reverse; reflexivity).
    specialize (Hfree Hlen). rewrite Forall_forall in Hfree.
    apply (Hfree (reverse c)).
    + apply list_elem_of_fmap. eauto.
    + destruct Hsuf as [k Hk]. exists (reverse k).
      rewrite <- reverse_app, <- Hk, reverse_involutive. reflexivity.
Qed.

(** [trim s] is [s] without a run of white space at each end, and has no
    white space at either end. *)
Lemma trim_spec (s : string) :
  (∃ l r, s = l +:+ trim s +:+ r ∧ blank l ∧ blank r) ∧
  startsWithSpace (trim s) = false ∧ endsWithSpace (trim s) = false.
Proof.
  destruct (trimStart_spec (bytes s)) as (dl & Hdl & Hl & Hfree).
  destruct (trimEnd_spec (trimStart (bytes s))) as (dr & Hdr & Hr & Hfree').
  assert (Hb : bytes (trim s) = trimEnd (trimStart (bytes s))) by apply bytes_ofBytes.
  split; [|split].
  - exists (ofBytes (concat dl)), (ofBytes (concat dr)). split; [|split].
    + apply bytes_inj. rewrite !bytes_app, !bytes_ofBytes, Hb, <- Hr. exact Hl.
    + exists dl. rewrite bytes_ofBytes. auto.
    + exists dr. rewrite bytes_ofBytes. auto.
  - unfold startsWithSpace. apply bool_decide_eq_false. rewrite Hb.
    intros Hex. apply Exists_exists in Hex as (c & Hc & Hpre).
    rewrite Forall_forall in Hfree. apply (Hfree c Hc).
    destruct (trimEnd (trimStart (bytes s))) as [|b t] eqn:Ht.
    + destruct Hpre as [k Hk]. symmetry in Hk. apply app_eq_nil in Hk as [-> _].
      exfalso. pose proof whiteSpace_nonempty as Hne. rewrite Forall_forall in Hne.
      exact (Hne _ Hc eq_refl).
    + rewrite Hr. apply prefix_app_r. exact Hpre.
  - unfold endsWithSpace. apply bool_decide_eq_false. rewrite Hb.
    intros Hex. apply Exists_exists in Hex as (c & Hc & Hsuf).
    rewrite Forall_forall in Hfree'. exact (Hfree' c Hc Hsuf).
Qed.

Lemma dropOne_code (c rest : list ascii) :
  c ∈ whiteSpace → dropOne whiteSpace (c ++ rest) = Some rest.
Proof.
  unfold whiteSpace. intros H.
  repeat (apply elem_of_cons in H as [->|H]; [reflexivity|]).
  by apply elem_of_nil in H.
Qed.

Lemma dropLeading_codes (codes : list (list ascii)) (n : nat) :
  Forall (λ c, c ∈ whiteSpace) codes → (length codes ≤ n)%nat →
  dropLeading whiteSpace n (concat codes) = [].
Proof.
  revert n. induction codes as [|c codes IH]; intros n Hcodes Hn.
  - destruct n; reflexivity.
  - destruct n as [|n]; [cbn in Hn; lia|].
    apply Forall_cons in Hcodes as [Hc Hcodes]. cbn [concat dropLeading].
    rewrite (dropOne_code c _ Hc). apply IH; [exact Hcodes|cbn in Hn; lia].
Qed.

Lemma length_concat_codes (codes : list (list ascii)) :
  Forall (λ c, c ∈ whiteSpace) codes → (length codes ≤ length (concat codes))%nat.
Proof.
  induction 1 as [|c codes Hc _ IH]; [reflexivity|]. cbn. rewrite length_app.
  pose proof whiteSpace_nonempty as Hne. rewrite Forall_forall in Hne.
  specialize (Hne _ Hc). destruct c; [congruence|]. cbn. lia.
Qed.

(** A string of white space only is trimmed to the empty string. *)
Lemma trim_blank (s : string) : blank s → trim s = "".
Proof.
  intros (codes & Hcodes & Hs). unfold trim, trimStart. rewrite Hs.
  rewrite dropLeading_codes by (auto using length_concat_codes). reflexivity.
Qed.

Example trim_example : trim "  Work  stuff " = "Work  stuff".
Proof. reflexivity. Qed.

Example trim_no_break_space :
  trim ("Mail" +:+ nbsp) = "Mail" ∧ trim nbsp = "" ∧ trim (" " +:+ nbsp +:+ " ") = "".
Proof. repeat split; reflexivity. Qed.

(** C5. Saving the text [s] as the custom title of a window (the blur
    listener trims it) and then reloading the titles from storage, in
    whatever panel reads that storage, yields exactly the trimmed form of
    [s] for that window id, whatever the maps held before: [s] without the
    run of white space at each of its ends, a string that neither starts nor
    ends with white space.  A text of white space only is stored, and read
    back, as the empty string. *)
Theorem saved_title_round_trip (w session : World) (windowId : Z) (s : string) :
  storage session = storage (onTitleBlur windowId s w) →
  windowTitles (loadWindowTitles session) !! windowId = Some (trim s) ∧
  (∃ l r, s = l +:+ trim s +:+ r ∧ blank l ∧ blank r) ∧
  startsWithSpace (trim s) = false ∧ endsWithSpace (trim s) = false ∧
  (blank s → windowTitles (loadWindowTitles session) !! windowId = Some "").
Proof.
  intros Hstorage.
  assert (Hread : windowTitles (loadWindowTitles session) !! windowId = Some (trim s)).
  { unfold loadWindowTitles. cbn [windowTitles]. rewrite Hstorage.
    unfold onTitleBlur, saveWindowTitle. cbn [storage customWindowTitles default id].
    apply lookup_insert_eq. }
  destruct (trim_spec s) as (Hparts & Hstart & Hend).
  split; [exact Hread|]. split; [exact Hparts|]. split; [exact Hstart|].
  split; [exact Hend|]. intros Hblank. rewrite Hread, (trim_blank s Hblank).
  reflexivity.
Qed.

Lemma saved_title_round_trip_witness :
  windowTitles (loadWindowTitles
                  (freshSession (storage (onTitleBlur 1 (" Mail" +:+ nbsp) emptyWorld))))
    !! 1 = Some "Mail".
Proof.
  destruct (saved_title_round_trip emptyWorld
              (freshSession (storage (onTitleBlur 1 (" Mail" +:+ nbsp) emptyWorld)))
              1 (" Mail" +:+ nbsp)) as [Hread _]; [reflexivity|].
  exact Hread.
Defined.

(** ** The render loop: first-encounter order *)

Lemma groupKey_Some (tab : Tab) (g : Z) :
  groupKey tab = Some g ↔ tab_groupId tab = g ∧ g > -1.
Proof.
  unfold groupKey. case_bool_decide; split.
  - intros [= <-]. split; [reflexivity|assumption].
  - intros [<- _]. reflexivity.
  - discriminate.
  - intros [<- ?]. contradiction.
Qed.


(** A group id has been met among [earlier] exactly when one of those tabs
    carries it. *)
Lemma seen_earlier (earlier : list Tab) (g : Z) :
  g > -1 →
  Some g ∈ groupKey <$> earlier ↔ ∃ t, t ∈ earlier ∧ tab_groupId t = g.
Proof.
  intros Hg. rewrite list_elem_of_fmap. split.
  - intros (t & Ht & Hin). exists t. split; [exact Hin|].
    symmetry in Ht. apply groupKey_Some in Ht. tauto.
  - intros (t & Hin & Ht). exists t. split; [|exact Hin].
    symmetry. apply groupKey_Some. tauto.
Qed.

(** The loop, started with [renderedGroups] holding the groups met among
    [earlier], emits the contributions of the remaining tabs in order. *)
Lemma renderTabs_contributions (groupMap : gmap Z TabGroup) (win : Window)
    (tabs earlier : list Tab) (renderedGroups : gset Z) :
  (∀ g, g ∈ renderedGroups ↔ Some g ∈ groupKey <$> earlier) →
  renderTabs groupMap win tabs renderedGroups
  = concat (imap (λ i tab, contribution groupMap win (earlier ++ take i tabs) tab) tabs).
Proof.
  revert earlier renderedGroups.
  induction tabs as [|tab rest IH]; intros earlier rg Hrg; [reflexivity|].
  rewrite imap_cons. cbn [concat take renderTabs].
  rewrite app_nil_r.
  assert (Hext : imap ((λ i t, contribution groupMap win
                                 (earlier ++ take i (tab :: rest)) t) ∘ S) rest
               = imap (λ i t, contribution groupMap win
                                 ((earlier ++ [tab]) ++ take i rest) t) rest).
  { apply imap_ext. intros i t _. unfold compose. cbn [take].
    rewrite <- app_assoc. reflexivity. }
  rewrite Hext. clear Hext.
  unfold contribution at 1.
  destruct (groupKey tab) as [g|] eqn:Hk.
  - rewrite <- (bool_decide_ext _ _ (Hrg g)).
    case_bool_decide as Hin.
    + cbn [app]. apply IH. intros g'.
      rewrite fmap_app, elem_of_app, Hrg. cbn. rewrite Hk.
      rewrite list_elem_of_singleton. split; [tauto|].
      intros [H|[= ->]]; [exact H|]. apply Hrg, Hin.
    + cbn [app]. f_equal. apply IH. intros g'.
      rewrite fmap_app, elem_of_app, elem_of_union, elem_of_singleton, Hrg.
      cbn. rewrite Hk, list_elem_of_singleton.
      split; intros [H|H]; try tauto; [right; congruence|left; congruence].
  - cbn [app]. f_equal. apply IH. intros g'.
    rewrite fmap_app, elem_of_app, Hrg. cbn. rewrite Hk.
    rewrite list_elem_of_singleton. split; [tauto|]. intros [H|[=]]. exact H.
Qed.

Lemma windowBlocks_contributions (groupMap : gmap Z TabGroup) (win : Window) :
  windowBlocks groupMap win
  = concat (imap (λ i tab, contribution groupMap win (take i (win_tabs win)) tab)
                 (win_tabs win)).
Proof.
  unfold windowBlocks.
  rewrite (renderTabs_contributions groupMap win (win_tabs win) [] ∅); [reflexivity|].
  intros g. rewrite fmap_nil.
  split; intros H; [by apply elem_of_empty in H|by apply elem_of_nil in H].
Qed.

Lemma foldl_appendChild (e : Element) (acc l : list node) :
  foldl appendChild (Node e acc) l = Node e (acc ++ l).
Proof.
  revert acc. induction l as [|k l IH]; intros acc; cbn [foldl appendChild].
  - rewrite app_nil_r. reflexivity.
  - rewrite IH, <- app_assoc. reflexivity.
Qed.

(** The item of a window is its header followed by its content region,
    whose children are the blocks of the loop, in order. *)
Lemma windowItem_content {parser : HtmlParser}
    (titles : gmap Z string) (flags : gmap string bool)
    (groupMap : gmap Z TabGroup) (win : Window) :
  ∃ header,
    elem header = withAttr "data-window-id" (pretty (win_id win))
                    (withClassName ["window-item"] (createElement "div")) ∧
    windowItem titles flags groupMap win
    = Node (createElement "li")
        [ header;
          Node (sectionContent flags ("window-content-" +:+ pretty (win_id win)))
               (blockNode flags win <$> windowBlocks groupMap win) ].
Proof.
  unfold windowItem. eexists (Node _ _). split; [reflexivity|].
  rewrite foldl_appendChild. reflexivity.
Qed.

Lemma elem_of_concat_imap {A B} (f : nat → A → list B) (l : list A) (b : B) :
  b ∈ concat (imap f l) ↔ ∃ i a, l !! i = Some a ∧ b ∈ f i a.
Proof.
  rewrite list_elem_of_In, in_concat. split.
  - intros (bs & Hbs & Hb). apply list_elem_of_In in Hbs, Hb.
    apply elem_of_lookup_imap in Hbs as (i & a & -> & Ha). eauto.
  - intros (i & a & Ha & Hb). exists (f i a).
    split; apply list_elem_of_In; [|exact Hb].
    apply elem_of_lookup_imap. eauto.
Qed.

(** The shape of a group's block: the header, then the collapsible region
    holding the list of the group's tabs. *)
Lemma groupList_shape {parser : HtmlParser} (flags : gmap string bool) (win : Window)
    (groupId : Z) (groupInfo : TabGroup) (tabsInGroup : list Tab) :
  ∃ header,
    hasClass "group-item" (elem header) = true ∧
    groupList flags win groupId groupInfo tabsInGroup
    = Node (withClassName ["group-list"] (createElement "ul"))
        [ Node (createElement "li")
            [ header;
              Node (sectionContent flags ("group-content-" +:+ pretty groupId))
                [ createTabList tabsInGroup (win_id win) "tab-list-in-group" ] ] ].
Proof. eexists (Node _ _). split; cycle 1; reflexivity. Qed.

(** The first tab that carries a group id whose group is missing, or sits
    in another window, is shown as an ungrouped row. *)
Lemma invalid_group_first_tab_is_row (groupMap : gmap Z TabGroup) (win : Window)
    (i : nat) (tab : Tab) (g : Z) :
  win_tabs win !! i = Some tab →
  groupKey tab = Some g →
  (∀ info, groupMap !! g = Some info → group_windowId info ≠ win_id win) →
  (∀ t, t ∈ take i (win_tabs win) → tab_groupId t ≠ g) →
  TabBlock tab ∈ windowBlocks groupMap win.
Proof.
  intros Hi Hk Hinv Hfirst.
  rewrite windowBlocks_contributions. apply elem_of_concat_imap.
  exists i, tab. split; [exact Hi|].
  unfold contribution. rewrite Hk.
  apply groupKey_Some in Hk as [_ Hg].
  rewrite bool_decide_eq_false_2.
  - unfold firstBlock. destruct (groupMap !! g) as [info|] eqn:Hinfo.
    + rewrite bool_decide_eq_false_2 by (apply Hinv; reflexivity).
      apply list_elem_of_singleton. reflexivity.
    + apply list_elem_of_singleton. reflexivity.
  - rewrite (seen_earlier _ _ Hg). intros (t & Ht & Hgt). exact (Hfirst t Ht Hgt).
Qed.

(** An ungrouped tab is never dropped. *)
Lemma ungrouped_tab_is_row (groupMap : gmap Z TabGroup) (win : Window) (tab : Tab) :
  tab ∈ win_tabs win → groupKey tab = None →
  TabBlock tab ∈ windowBlocks groupMap win.
Proof.
  intros Hin Hk. apply list_elem_of_lookup in Hin as [i Hi].
  rewrite windowBlocks_contributions. apply elem_of_concat_imap.
  exists i, tab. split; [exact Hi|].
  unfold contribution. rewrite Hk. apply list_elem_of_singleton. reflexivity.
Qed.

(** C1. Two tabs of window 1 carry the group id 7 and no group 7 exists.
    The loop shows the first as an ungrouped row, records 7 in
    [renderedGroups], and skips the second: no block and no element of the
    window's item stands for tab 2.  The earlier loop shows neither tab. *)
Theorem second_tab_of_missing_group_is_dropped {parser : HtmlParser} :
  let win := {| win_id := 1; win_focused := true;
                win_tabs := [exampleTab 1 7; exampleTab 2 7] |} in
  windowBlocks (mkGroupMap []) win = [TabBlock (exampleTab 1 7)] ∧
  Forall (λ e, getAttr "data-tab-id" e ≠ Some "2")
         (elements (windowItem ∅ ∅ (mkGroupMap []) win)) ∧
  oldWindowBlocks [] win = [].
Proof.
  split; [reflexivity|]. split; [|reflexivity].
  vm_compute. repeat (constructor; [discriminate|]). constructor.
Qed.

Example group_header_example :
  (λ e, (classList e, attrs e, textContent e))
  <$> elements (groupList (parser := exampleParser) ∅ scenarioWindow 5 exampleGroup
                  [exampleTab 2 5])
  = [ (["group-list"], [], ""); ([], [], "");
      (["group-item"], [], "");
      (["toggle-arrow"; "expanded"], [], "");
      (["group-title-area"], [], "");
      (["group-color-dot"], [("style", "background-color: blue;")], "");
      (["item-title"], [], "Work");
      ([], [], "");
      (["tab-list-in-group"], [], ""); ([], [], "");
      (["tab-item"], [("data-tab-id", "2")], "");
      (["item-icon"], [("src", "icons/icon16.png")], "");
      (["item-title"], [], "Tab 2") ].
Proof. reflexivity. Qed.

Lemma ident_sectionContent (flags : gmap string bool) (key : string) :
  ident (sectionContent flags key) = Some key.
Proof.
  unfold sectionContent, classList_add.
  destruct (isCollapsed flags key); [|reflexivity].
  destruct (hasClass _ _); reflexivity.
Qed.






(** ** Window order *)

Lemma precedes_or {A} (l : list A) (x y : A) :
  x ∈ l → y ∈ l → x ≠ y → precedes l x y ∨ precedes l y x.
Proof.
  intros Hx Hy Hne.
  apply list_elem_of_split in Hx as (l1 & l2 & ->).
  apply elem_of_app in Hy as [Hy|Hy].
  - right. apply list_elem_of_split in Hy as (k1 & k2 & ->).
    exists k1, k2, l2. rewrite <- app_assoc. reflexivity.
  - apply elem_of_cons in Hy as [->|Hy]; [contradiction|].
    left. apply list_elem_of_split in Hy as (k1 & k2 & ->).
    exists l1, k1, k2. reflexivity.
Qed.

Lemma precedes_sorted {A} (R : A → A → Prop) (l : list A) (x y : A) :
  StronglySorted R l → precedes l x y → R x y.
Proof.
  intros Hs (l1 & l2 & l3 & ->).
  apply StronglySorted_app_1_r in Hs.
  apply StronglySorted_inv in Hs as [_ Hall].
  rewrite Forall_forall in Hall. apply Hall.
  apply elem_of_app. right. apply list_elem_of_here.
Qed.

Lemma precedes_cons {A} (x a b : A) (l : list A) :
  precedes (x :: l) a b ↔ (a = x ∧ b ∈ l) ∨ precedes l a b.
Proof.
  split.
  - intros (l1 & l2 & l3 & H). destruct l1 as [|y l1]; cbn in H.
    + injection H as <- ->. left. split; [reflexivity|].
      apply elem_of_app. right. left.
    + injection H as <- ->. right. exists l1, l2, l3. reflexivity.
  - intros [[-> Hb]|(l1 & l2 & l3 & ->)].
    + apply list_elem_of_split in Hb as (l2 & l3 & ->). exists [], l2, l3. reflexivity.
    + exists (x :: l1), l2, l3. reflexivity.
Qed.

(** The sort is stable: two windows of which the first may stay first keep
    their host order.  No assumption on the collation is needed. *)
Lemma sortWindows_stable (localeCompare : string → string → Z)
    (titles : gmap Z string) (ws : list Window) (a b : Window) :
  precedes ws a b → compareWindows localeCompare titles a b ≤ 0 →
  precedes (sortWindows localeCompare titles ws) a b.
Proof.
  intros Hp Hle.
  assert (Hin : ∀ x l y, y ∈ insertWindow localeCompare titles x l ↔ y = x ∨ y ∈ l).
  { intros x l y. induction l as [|z l IH]; cbn.
    - rewrite list_elem_of_singleton, elem_of_nil. tauto.
    - case_bool_decide; rewrite !elem_of_cons; [tauto|]. rewrite IH. tauto. }
  assert (Hkept : ∀ x l, precedes l a b →
                         precedes (insertWindow localeCompare titles x l) a b).
  { intros x l. induction l as [|z l IH]; cbn; intros H.
    - destruct H as ([|??] & ? & ? & [=]).
    - case_bool_decide; [apply precedes_cons; right; exact H|].
      apply precedes_cons in H as [[-> Hb]|H]; apply precedes_cons.
      + left. split; [reflexivity|]. apply Hin. right. exact Hb.
      + right. apply IH, H. }
  assert (Hhead : ∀ l, b ∈ l → precedes (insertWindow localeCompare titles a l) a b).
  { intros l. induction l as [|z l IH]; cbn; intros Hb.
    - by apply elem_of_nil in Hb.
    - case_bool_decide as Hz; apply precedes_cons.
      + left. split; [reflexivity|exact Hb].
      + right. apply IH. apply elem_of_cons in Hb as [->|Hb]; [contradiction|exact Hb]. }
  induction ws as [|x ws IH]; cbn.
  - destruct Hp as ([|??] & ? & ? & [=]).
  - fold (sortWindows localeCompare titles ws).
    apply precedes_cons in Hp as [[-> Hb]|Hp].
    + apply Hhead.
      assert (Hperm : ∀ l, b ∈ l → b ∈ sortWindows localeCompare titles l).
      { clear -Hin. induction l as [|z l IHl]; cbn; [auto|].
        rewrite elem_of_cons. intros [->|H]; apply Hin; [left; reflexivity|].
        right. apply IHl, H. }
      apply Hperm, Hb.
    + apply Hkept, IH, Hp.
Qed.

Section SortProperties.
Variable localeCompare : string → string → Z.

(** The collation is a consistent comparator, as the language requires of
    [localeCompare]: swapping the arguments flips the sign, and "not
    after" is transitive. *)
Hypothesis localeCompare_antisym :
  ∀ a b, Z.sgn (localeCompare a b) = - Z.sgn (localeCompare b a).
Hypothesis localeCompare_trans :
  ∀ a b c, localeCompare a b ≤ 0 → localeCompare b c ≤ 0 → localeCompare a c ≤ 0.

Variable titles : gmap Z string.

Abbreviation cmp := (compareWindows localeCompare titles).
Abbreviation notAfter := (λ a b, compareWindows localeCompare titles a b ≤ 0).

Lemma compareWindows_total (a b : Window) : cmp a b ≤ 0 ∨ cmp b a ≤ 0.
Proof.
  unfold compareWindows.
  pose proof (localeCompare_antisym (displayTitle titles (win_id a))
                                    (displayTitle titles (win_id b))).
  destruct (win_focused a), (win_focused b); cbn; lia.
Qed.

Lemma compareWindows_trans (a b c : Window) :
  cmp a b ≤ 0 → cmp b c ≤ 0 → cmp a c ≤ 0.
Proof.
  unfold compareWindows.
  pose proof (localeCompare_trans (displayTitle titles (win_id a))
                (displayTitle titles (win_id b)) (displayTitle titles (win_id c))).
  destruct (win_focused a), (win_focused b), (win_focused c); cbn; lia.
Qed.

Lemma insertWindow_Permutation (x : Window) (l : list Window) :
  insertWindow localeCompare titles x l ≡ₚ x :: l.
Proof.
  induction l as [|y l IH]; [reflexivity|]. cbn.
  case_bool_decide; [reflexivity|].
  rewrite IH. apply Permutation_swap.
Qed.

Lemma sortWindows_Permutation (ws : list Window) :
  sortWindows localeCompare titles ws ≡ₚ ws.
Proof.
  induction ws as [|x ws IH]; [reflexivity|]. cbn.
  rewrite insertWindow_Permutation. fold (sortWindows localeCompare titles ws).
  rewrite IH. reflexivity.
Qed.

Lemma insertWindow_sorted (x : Window) (l : list Window) :
  StronglySorted notAfter l →
  StronglySorted notAfter (insertWindow localeCompare titles x l).
Proof.
  induction l as [|y l IH]; intros Hs; cbn.
  - repeat constructor.
  - apply StronglySorted_inv in Hs as [Hl Hy].
    case_bool_decide as Hxy.
    + constructor; [constructor; assumption|].
      constructor; [exact Hxy|].
      eapply Forall_impl; [exact Hy|].
      intros z Hyz. cbn in Hyz. eapply compareWindows_trans; eassumption.
    + constructor; [apply IH, Hl|].
      rewrite insertWindow_Permutation. constructor; [|exact Hy].
      destruct (compareWindows_total x y); [contradiction|assumption].
Qed.

Lemma sortWindows_sorted (ws : list Window) :
  StronglySorted notAfter (sortWindows localeCompare titles ws).
Proof.
  induction ws as [|x ws IH]; [constructor|].
  cbn. apply insertWindow_sorted, IH.
Qed.

Lemma sortWindows_places_before (ws : list Window) (W1 W2 : Window) :
  W1 ∈ ws → W2 ∈ ws → cmp W1 W2 < 0 →
  precedes (sortWindows localeCompare titles ws) W1 W2 ∧
  ¬ precedes (sortWindows localeCompare titles ws) W2 W1.
Proof.
  intros H1 H2 Hlt.
  assert (Hgt : ¬ cmp W2 W1 ≤ 0).
  { intros Hle. revert Hlt Hle. unfold compareWindows.
    pose proof (localeCompare_antisym (displayTitle titles (win_id W1))
                                      (displayTitle titles (win_id W2))).
    destruct (win_focused W1), (win_focused W2); cbn; lia. }
  assert (Hnot : ¬ precedes (sortWindows localeCompare titles ws) W2 W1).
  { intros Hp. apply Hgt.
    exact (precedes_sorted notAfter _ _ _ (sortWindows_sorted ws) Hp). }
  split; [|exact Hnot].
  destruct (precedes_or (sortWindows localeCompare titles ws) W1 W2) as [H|H].
  - rewrite sortWindows_Permutation. exact H1.
  - rewrite sortWindows_Permutation. exact H2.
  - intros ->. destruct (compareWindows_total W2 W2); contradiction.
  - exact H.
  - contradiction.
Qed.

Lemma displayTitle_effective (W : Window) :
  displayTitle titles (win_id W) = effectiveTitle titles W.
Proof.
  unfold displayTitle, effectiveTitle, js_or.
  destruct (titles !! win_id W) as [custom|]; [|reflexivity].
  destruct (String.eqb_spec custom "") as [->|Hne].
  - rewrite bool_decide_eq_true_2 by reflexivity. reflexivity.
  - rewrite bool_decide_eq_false_2 by exact Hne. reflexivity.
Qed.

(** C4. In the sorted list a focused window comes before every window
    that is not focused, whatever their titles; and two windows that are
    both not focused are ordered by the collation of their effective
    display titles (the custom title stored under the window's id when one
    is set, else "Window {id}"): the one whose title collates strictly
    first comes first, two whose titles collate equal keep their host
    order, and a window that comes first never collates after the
    other. *)
Theorem sorted_focused_first_then_by_title (ws : list Window) (W1 W2 : Window) :
  W1 ∈ ws → W2 ∈ ws →
  let sorted := sortWindows localeCompare titles ws in
  let title1 := effectiveTitle titles W1 in
  let title2 := effectiveTitle titles W2 in
  (win_focused W1 = true → win_focused W2 = false →
   precedes sorted W1 W2 ∧ ¬ precedes sorted W2 W1) ∧
  (win_focused W1 = false → win_focused W2 = false →
   (localeCompare title1 title2 < 0 →
    precedes sorted W1 W2 ∧ ¬ precedes sorted W2 W1) ∧
   (localeCompare title1 title2 = 0 → precedes ws W1 W2 → precedes sorted W1 W2) ∧
   (precedes sorted W1 W2 → localeCompare title1 title2 ≤ 0)).
Proof.
  intros H1 H2 sorted title1 title2. subst title1 title2.
  rewrite <- !displayTitle_effective. split.
  - intros Hf1 Hf2. apply sortWindows_places_before; [assumption..|].
    unfold compareWindows. rewrite Hf1, Hf2. reflexivity.
  - intros Hf1 Hf2. split.
    + intros Hlt. apply sortWindows_places_before; [assumption..|].
      unfold compareWindows. rewrite Hf1, Hf2. exact Hlt.
    + split.
      { intros Heq Hp. apply sortWindows_stable; [exact Hp|].
        unfold compareWindows. rewrite Hf1, Hf2. cbn. lia. }
      intros Hp.
      pose proof (precedes_sorted notAfter _ _ _ (sortWindows_sorted ws) Hp) as Hle.
      cbn in Hle. unfold compareWindows in Hle. rewrite Hf1, Hf2 in Hle. exact Hle.
Qed.
End SortProperties.

Example sortWindows_example :
  sortWindows byLength (<[3 := "Mail"]> ∅)
    [exampleWindow 10 false; exampleWindow 3 false; exampleWindow 2 true;
     exampleWindow 4 false]
  = [exampleWindow 2 true; exampleWindow 3 false; exampleWindow 4 false;
     exampleWindow 10 false].
Proof. reflexivity. Qed.

Lemma sorted_focused_first_then_by_title_witness :
  let ws := [exampleWindow 1 false; exampleWindow 2 false; exampleWindow 3 true] in
  let custom := <[1 := "Reading list"]> (∅ : gmap Z string) in
  (precedes (sortWindows byLength custom ws)
     (exampleWindow 3 true) (exampleWindow 2 false) ∧
   precedes (sortWindows byLength custom ws)
     (exampleWindow 2 false) (exampleWindow 1 false)) ∧
  precedes (sortWindows byLength ∅ ws) (exampleWindow 1 false) (exampleWindow 2 false).
Proof.
  intros ws custom.
  assert (Hanti : ∀ a b, Z.sgn (byLength a b) = - Z.sgn (byLength b a))
    by (intros a b; unfold byLength; lia).
  assert (Htrans : ∀ a b c, byLength a b ≤ 0 → byLength b c ≤ 0 → byLength a c ≤ 0)
    by (intros a b c; unfold byLength; lia).
  split; [split|].
  - destruct (sorted_focused_first_then_by_title byLength Hanti Htrans
                custom ws (exampleWindow 3 true) (exampleWindow 2 false))
      as [Hfocused _]; [right; right; left|right; left|].
    apply Hfocused; reflexivity.
  - destruct (sorted_focused_first_then_by_title byLength Hanti Htrans
                custom ws (exampleWindow 2 false) (exampleWindow 1 false))
      as [_ Htitles]; [right; left|left|].
    destruct Htitles as [Hlt _]; [reflexivity|reflexivity|].
    apply Hlt. reflexivity.
  - destruct (sorted_focused_first_then_by_title byLength Hanti Htrans
                ∅ ws (exampleWindow 1 false) (exampleWindow 2 false))
      as [_ Htitles]; [left|right; left|].
    destruct Htitles as (_ & Hstable & _); [reflexivity|reflexivity|].
    apply Hstable; [reflexivity|].
    exists [], [], [exampleWindow 3 true]. reflexivity.
Defined.

(** ** Trees: maps and first-match updates *)

Lemma updateFirst_unfold (sel : Element → bool) (f : Element → Element)
    (e : Element) (ks : list node) :
  updateFirst sel f (Node e ks)
  = if sel e then Some (Node (f e) ks)
    else Node e <$> updateFirstIn sel f ks.
Proof.
  cbn [updateFirst]. destruct (sel e); [reflexivity|]. f_equal.
  induction ks as [|k ks IH]; [reflexivity|].
  cbn [updateFirstIn]. rewrite IH. reflexivity.
Qed.

Lemma forEachMatching_mapNode (sel : Element → bool) (f : Element → Element)
    (n : node) :
  forEachMatching sel f n = mapNode (λ e, if sel e then f e else e) n.
Proof.
  induction n as [e ks IH] using node_ind. cbn. f_equal.
  induction IH as [|k ks Hk _ IHks]; [reflexivity|]. cbn. rewrite Hk, IHks. reflexivity.
Qed.

Lemma mapNode_mapNode (g h : Element → Element) (n : node) :
  mapNode g (mapNode h n) = mapNode (λ e, g (h e)) n.
Proof.
  induction n as [e ks IH] using node_ind. cbn. f_equal.
  induction IH as [|k ks Hk _ IHks]; [reflexivity|]. cbn. rewrite Hk, IHks. reflexivity.
Qed.

Lemma mapNode_ext (g h : Element → Element) (n : node) :
  (∀ e, g e = h e) → mapNode g n = mapNode h n.
Proof.
  intros Hgh. induction n as [e ks IH] using node_ind. cbn. rewrite Hgh. f_equal.
  induction IH as [|k ks Hk _ IHks]; [reflexivity|]. cbn. rewrite Hk, IHks. reflexivity.
Qed.

Lemma elements_mapNode (g : Element → Element) (n : node) :
  elements (mapNode g n) = g <$> elements n.
Proof.
  induction n as [e ks IH] using node_ind. cbn. f_equal.
  induction IH as [|k ks Hk _ IHks]; [reflexivity|].
  cbn. rewrite fmap_app, Hk, IHks. reflexivity.
Qed.

(** A map that does not see the change made at the first match does not see
    the update. *)
Lemma mapNode_updateFirst (g : Element → Element) (sel : Element → bool)
    (f : Element → Element) (n n' : node) :
  (∀ e, sel e = true → g (f e) = g e) →
  updateFirst sel f n = Some n' → mapNode g n' = mapNode g n.
Proof.
  intros Hg. revert n'.
  induction n as [e ks IH] using node_ind. intros n'.
  rewrite updateFirst_unfold. destruct (sel e) eqn:He.
  - intros [= <-]. cbn. rewrite (Hg e He). reflexivity.
  - destruct (updateFirstIn sel f ks) as [ks'|] eqn:Hks; [|discriminate].
    intros [= <-]. cbn. f_equal. clear He.
    revert ks' Hks. induction IH as [|k ks Hk _ IHks]; intros ks'; [discriminate|].
    cbn [updateFirstIn]. destruct (updateFirst sel f k) as [k'|] eqn:Hk'.
    + intros [= <-]. cbn. rewrite (Hk k' eq_refl). reflexivity.
    + destruct (updateFirstIn sel f ks) as [ks''|]; [|discriminate].
      intros [= <-]. cbn. rewrite (IHks ks'' eq_refl). reflexivity.
Qed.

Lemma mapNode_withFirstMatch (g : Element → Element) (sel : Element → bool)
    (f : Element → Element) (n : node) :
  (∀ e, sel e = true → g (f e) = g e) →
  mapNode g (withFirstMatch sel f n) = mapNode g n.
Proof.
  intros Hg. unfold withFirstMatch.
  destruct (updateFirst sel f n) as [n'|] eqn:Hn; [|reflexivity].
  exact (mapNode_updateFirst g sel f n n' Hg Hn).
Qed.

Lemma updateFirstL_app (sel : Element → bool) (f : Element → Element)
    (l1 l2 : list Element) :
  updateFirstL sel f (l1 ++ l2)
  = if bool_decide (Exists (λ e, sel e = true) l1)
    then updateFirstL sel f l1 ++ l2 else l1 ++ updateFirstL sel f l2.
Proof.
  induction l1 as [|e l1 IH].
  - rewrite bool_decide_eq_false_2 by (rewrite Exists_nil; tauto). reflexivity.
  - cbn. destruct (sel e) eqn:He.
    + rewrite bool_decide_eq_true_2 by (by left). reflexivity.
    + rewrite IH. case_bool_decide as H1.
      * rewrite bool_decide_eq_true_2 by (by right). reflexivity.
      * rewrite bool_decide_eq_false_2; [reflexivity|].
        rewrite Exists_cons. intros [H|H]; [congruence|contradiction].
Qed.

Lemma updateFirstL_no_match (sel : Element → bool) (f : Element → Element)
    (l : list Element) :
  ¬ Exists (λ e, sel e = true) l → updateFirstL sel f l = l.
Proof.
  induction l as [|e l IH]; [reflexivity|]. rewrite Exists_cons. intros H. cbn.
  destruct (sel e) eqn:He; [tauto|]. rewrite IH by tauto. reflexivity.
Qed.

(** The tree search finds a match exactly when the document-order list
    has one, and changes that element. *)
Lemma updateFirst_elements (sel : Element → bool) (f : Element → Element)
    (n : node) :
  match updateFirst sel f n with
  | Some n' => Exists (λ e, sel e = true) (elements n) ∧
               elements n' = updateFirstL sel f (elements n)
  | None => ¬ Exists (λ e, sel e = true) (elements n)
  end.
Proof.
  induction n as [e ks IH] using node_ind.
  rewrite updateFirst_unfold. cbn [elements]. destruct (sel e) eqn:He.
  - split; [by left|]. cbn. rewrite He. reflexivity.
  - assert (Hks : match updateFirstIn sel f ks with
                  | Some ks' =>
                      Exists (λ e, sel e = true) (flat_map elements ks) ∧
                      flat_map elements ks' = updateFirstL sel f (flat_map elements ks)
                  | None => ¬ Exists (λ e, sel e = true) (flat_map elements ks)
                  end).
    { clear He. induction IH as [|k ks Hk _ IHks]; cbn.
      - rewrite Exists_nil. tauto.
      - destruct (updateFirst sel f k) as [k'|].
        + destruct Hk as [Hex Hk]. split; [apply Exists_app; by left|].
          cbn. rewrite updateFirstL_app, bool_decide_eq_true_2 by exact Hex.
          rewrite Hk. reflexivity.
        + destruct (updateFirstIn sel f ks) as [ks'|]; cbn.
          * destruct IHks as [Hex IHks]. split; [apply Exists_app; by right|].
            rewrite updateFirstL_app, bool_decide_eq_false_2 by exact Hk.
            rewrite IHks. reflexivity.
          * rewrite Exists_app. tauto. }
    destruct (updateFirstIn sel f ks) as [ks'|]; cbn.
    + destruct Hks as [Hex Hks]. split; [by right|]. rewrite He, Hks. reflexivity.
    + rewrite Exists_cons. intros [H|H]; [congruence|contradiction].
Qed.

Lemma elements_withFirstMatch (sel : Element → bool) (f : Element → Element)
    (n : node) :
  elements (withFirstMatch sel f n) = updateFirstL sel f (elements n).
Proof.
  unfold withFirstMatch. pose proof (updateFirst_elements sel f n) as H.
  destruct (updateFirst sel f n) as [n'|]; cbn.
  - apply H.
  - symmetry. apply updateFirstL_no_match, H.
Qed.

(** ** Class lists *)

Lemma classOp_id (F : list string → list string) (e : Element) :
  F (classList e) = classList e → classOp F e = e.
Proof. destruct e. unfold classOp, withClassName. cbn. intros ->. reflexivity. Qed.

Lemma classOp_classOp (F G : list string → list string) (e : Element) :
  classOp F (classOp G e) = classOp (λ l, F (G l)) e.
Proof. reflexivity. Qed.

Lemma classOp_ext (F G : list string → list string) (e : Element) :
  F (classList e) = G (classList e) → classOp F e = classOp G e.
Proof. unfold classOp. intros ->. reflexivity. Qed.

Lemma classList_add_classOp (c : string) (e : Element) :
  classList_add c e = classOp (addClass c) e.
Proof.
  unfold classList_add, hasClass, classOp, addClass.
  destruct (bool_decide (c ∈ classList e)); [|reflexivity].
  destruct e; reflexivity.
Qed.

Lemma classList_remove_classOp (c : string) (e : Element) :
  classList_remove c e = classOp (removeClass c) e.
Proof. reflexivity. Qed.

Lemma elem_of_removeClass (c x : string) (l : list string) :
  x ∈ removeClass c l ↔ x ∈ l ∧ x ≠ c.
Proof. unfold removeClass. rewrite list_elem_of_filter. tauto. Qed.

Lemma elem_of_addClass (c x : string) (l : list string) :
  x ∈ addClass c l ↔ x ∈ l ∨ x = c.
Proof.
  unfold addClass. case_bool_decide as H.
  - split; [tauto|]. intros [?| ->]; assumption.
  - rewrite elem_of_app, list_elem_of_singleton. tauto.
Qed.

Lemma removeClass_absent (c : string) (l : list string) :
  c ∉ l → removeClass c l = l.
Proof.
  unfold removeClass. induction l as [|x l IH]; [reflexivity|].
  rewrite not_elem_of_cons. intros [Hx Hl].
  rewrite filter_cons_True by congruence. rewrite IH by exact Hl. reflexivity.
Qed.

Lemma removeClass_idemp (c : string) (l : list string) :
  removeClass c (removeClass c l) = removeClass c l.
Proof. apply removeClass_absent. rewrite elem_of_removeClass. tauto. Qed.

Lemma removeClass_comm (c d : string) (l : list string) :
  removeClass c (removeClass d l) = removeClass d (removeClass c l).
Proof.
  unfold removeClass. rewrite !list_filter_filter.
  apply list_filter_iff. tauto.
Qed.

Lemma removeClass_addClass (c : string) (l : list string) :
  removeClass c (addClass c l) = removeClass c l.
Proof.
  unfold addClass. case_bool_decide; [reflexivity|].
  unfold removeClass. rewrite filter_app, filter_cons_False, filter_nil by tauto.
  apply app_nil_r.
Qed.

Lemma removeClass_addClass_ne (c d : string) (l : list string) :
  c ≠ d → removeClass c (addClass d l) = addClass d (removeClass c l).
Proof.
  intros Hne. unfold addClass.
  rewrite (bool_decide_ext (d ∈ removeClass c l) (d ∈ l))
    by (rewrite elem_of_removeClass; split; [tauto|split; [assumption|congruence]]).
  case_bool_decide; [reflexivity|].
  unfold removeClass. rewrite filter_app, filter_cons_True, filter_nil by congruence.
  reflexivity.
Qed.

Lemma clear_active_window (e : Element) :
  (if selActiveWindow e then classList_remove "active-window" e else e)
  = classOp clearWindowMark e.
Proof.
  unfold selActiveWindow, hasClass, classOp, clearWindowMark.
  destruct (bool_decide ("window-item" ∈ classList e)); cbn.
  - case_bool_decide as H; [reflexivity|].
    rewrite (removeClass_absent _ _ H). destruct e; reflexivity.
  - destruct e; reflexivity.
Qed.

Lemma clear_active_tab (e : Element) :
  (if selActiveTab e then classList_remove "active-tab" e else e)
  = classOp clearTabMark e.
Proof.
  unfold selActiveTab, hasClass, classOp, clearTabMark.
  destruct (bool_decide ("tab-item" ∈ classList e)); cbn.
  - case_bool_decide as H; [reflexivity|].
    rewrite (removeClass_absent _ _ H). destruct e; reflexivity.
  - destruct e; reflexivity.
Qed.

Lemma elem_of_clearWindowMark (x : string) (l : list string) :
  x ∈ clearWindowMark l ↔
  x ∈ l ∧ ¬ (x = "active-window" ∧ "window-item" ∈ l).
Proof.
  unfold clearWindowMark. case_bool_decide; [rewrite elem_of_removeClass|]; tauto.
Qed.

Lemma elem_of_clearTabMark (x : string) (l : list string) :
  x ∈ clearTabMark l ↔ x ∈ l ∧ ¬ (x = "active-tab" ∧ "tab-item" ∈ l).
Proof.
  unfold clearTabMark. case_bool_decide; [rewrite elem_of_removeClass|]; tauto.
Qed.

Lemma clearMarks_idemp (l : list string) : clearMarks (clearMarks l) = clearMarks l.
Proof.
  unfold clearMarks.
  assert (HW : ∀ m, clearWindowMark (clearTabMark (clearWindowMark m))
                    = clearTabMark (clearWindowMark m)).
  { intros m. unfold clearWindowMark at 1. case_bool_decide as Hw; [|reflexivity].
    apply removeClass_absent.
    rewrite elem_of_clearTabMark, elem_of_clearWindowMark.
    rewrite elem_of_clearTabMark, elem_of_clearWindowMark in Hw. tauto. }
  rewrite HW. generalize (clearWindowMark l). intros m.
  unfold clearTabMark at 1. case_bool_decide as Ht; [|reflexivity].
  apply removeClass_absent. rewrite elem_of_clearTabMark.
  rewrite elem_of_clearTabMark in Ht. tauto.
Qed.

Lemma clearMarks_add_window (l : list string) :
  "window-item" ∈ l → clearMarks (addClass "active-window" l) = clearMarks l.
Proof.
  intros Hw. unfold clearMarks. f_equal. unfold clearWindowMark.
  rewrite !bool_decide_eq_true_2
    by (try rewrite elem_of_addClass; tauto).
  apply removeClass_addClass.
Qed.

Lemma clearMarks_add_tab (l : list string) :
  "tab-item" ∈ l → clearMarks (addClass "active-tab" l) = clearMarks l.
Proof.
  intros Ht. unfold clearMarks.
  assert (HW : clearWindowMark (addClass "active-tab" l)
               = addClass "active-tab" (clearWindowMark l)).
  { unfold clearWindowMark.
    rewrite (bool_decide_ext ("window-item" ∈ addClass "active-tab" l)
                             ("window-item" ∈ l))
      by (rewrite elem_of_addClass; split; [intros [?|?]; [assumption|discriminate]|tauto]).
    case_bool_decide; [|reflexivity].
    apply removeClass_addClass_ne. discriminate. }
  rewrite HW.
  assert (Ht' : "tab-item" ∈ clearWindowMark l).
  { rewrite elem_of_clearWindowMark. split; [exact Ht|]. intros [? _]. discriminate. }
  revert Ht'. generalize (clearWindowMark l). intros m Hm.
  unfold clearTabMark.
  rewrite !bool_decide_eq_true_2 by (try rewrite elem_of_addClass; tauto).
  apply removeClass_addClass.
Qed.

Lemma withoutMarks_add_window (l : list string) :
  withoutMarks (addClass "active-window" l) = withoutMarks l.
Proof.
  unfold withoutMarks. rewrite removeClass_addClass_ne by discriminate.
  apply removeClass_addClass.
Qed.

Lemma withoutMarks_add_tab (l : list string) :
  withoutMarks (addClass "active-tab" l) = withoutMarks l.
Proof. unfold withoutMarks. rewrite removeClass_addClass. reflexivity. Qed.

Lemma withoutMarks_clearMarks (l : list string) :
  withoutMarks (clearMarks l) = withoutMarks l.
Proof.
  unfold withoutMarks, clearMarks.
  assert (HT : ∀ m, removeClass "active-tab" (clearTabMark m)
                    = removeClass "active-tab" m).
  { intros m. unfold clearTabMark. case_bool_decide; [|reflexivity].
    apply removeClass_idemp. }
  rewrite HT. unfold clearWindowMark. case_bool_decide; [|reflexivity].
  rewrite (removeClass_comm "active-tab" "active-window").
  apply removeClass_idemp.
Qed.

(** ** The activation updater *)

Lemma updateActiveDom_clear_then_mark (cur : option Window) (d : node) :
  updateActiveDom cur d = markActive cur (mapNode (classOp clearMarks) d).
Proof.
  unfold updateActiveDom. rewrite !forEachMatching_mapNode, mapNode_mapNode.
  rewrite (mapNode_ext _ (classOp clearMarks)).
  - destruct cur; reflexivity.
  - intros e. rewrite clear_active_window, clear_active_tab. reflexivity.
Qed.

Lemma hasClass_classOp (c : string) (F : list string → list string) (e : Element) :
  hasClass c (classOp F e) = bool_decide (c ∈ F (classList e)).
Proof. reflexivity. Qed.

Lemma selWindowItem_hasClass (id : Z) (e : Element) :
  selWindowItem id e = true → "window-item" ∈ classList e.
Proof.
  unfold selWindowItem, hasClass. intros [H _]%andb_true_iff.
  apply bool_decide_eq_true in H. exact H.
Qed.

Lemma selTabItem_hasClass (id : Z) (e : Element) :
  selTabItem id e = true → "tab-item" ∈ classList e.
Proof.
  unfold selTabItem, hasClass. intros [H _]%andb_true_iff.
  apply bool_decide_eq_true in H. exact H.
Qed.

Lemma mapNode_markActive (F : list string → list string) (cur : option Window)
    (d : node) :
  (∀ l, "window-item" ∈ l → F (addClass "active-window" l) = F l) →
  (∀ l, "tab-item" ∈ l → F (addClass "active-tab" l) = F l) →
  mapNode (classOp F) (markActive cur d) = mapNode (classOp F) d.
Proof.
  intros HW HT. unfold markActive. destruct cur as [cw|]; [|reflexivity].
  assert (H1 : ∀ n, mapNode (classOp F)
                      (withFirstMatch (selWindowItem (win_id cw))
                         (classList_add "active-window") n)
                    = mapNode (classOp F) n).
  { intros n. apply mapNode_withFirstMatch. intros e He.
    rewrite classList_add_classOp, classOp_classOp.
    apply classOp_ext, HW, (selWindowItem_hasClass _ _ He). }
  destruct (findActiveTab (win_tabs cw)) as [t|]; [|apply H1].
  rewrite mapNode_withFirstMatch; [apply H1|].
  intros e He. rewrite classList_add_classOp, classOp_classOp.
  apply classOp_ext, HT, (selTabItem_hasClass _ _ He).
Qed.

Lemma updateActiveDom_idemp (cur : option Window) (d : node) :
  updateActiveDom cur (updateActiveDom cur d) = updateActiveDom cur d.
Proof.
  rewrite !updateActiveDom_clear_then_mark. f_equal.
  rewrite mapNode_markActive
    by (intros; auto using clearMarks_add_window, clearMarks_add_tab).
  rewrite mapNode_mapNode. apply mapNode_ext. intros e.
  rewrite classOp_classOp. apply classOp_ext, clearMarks_idemp.
Qed.

Lemma count_none (p : Element → bool) (l : list Element) :
  Forall (λ e, p e = false) l → length (filter (λ e, p e = true) l) = 0%nat.
Proof.
  induction 1 as [|e l He _ IH]; [reflexivity|].
  rewrite filter_cons_False by congruence. exact IH.
Qed.

Lemma count_updateFirstL_le (p sel : Element → bool) (f : Element → Element)
    (l : list Element) :
  (length (filter (λ e, p e = true) (updateFirstL sel f l))
   ≤ S (length (filter (λ e, p e = true) l)))%nat.
Proof.
  induction l as [|e l IH]; cbn [updateFirstL]; [cbn; lia|].
  destruct (sel e).
  - rewrite !filter_cons. repeat case_decide; cbn; lia.
  - rewrite !filter_cons. case_decide; cbn; lia.
Qed.

Lemma count_updateFirstL_same (p sel : Element → bool) (f : Element → Element)
    (l : list Element) :
  (∀ e, p (f e) = p e) →
  length (filter (λ e, p e = true) (updateFirstL sel f l))
  = length (filter (λ e, p e = true) l).
Proof.
  intros Hp. induction l as [|e l IH]; cbn [updateFirstL]; [reflexivity|].
  destruct (sel e).
  - rewrite !filter_cons, Hp. case_decide; reflexivity.
  - rewrite !filter_cons. case_decide; cbn; rewrite IH; reflexivity.
Qed.

Lemma Forall_updateFirstL (P Q : Element → Prop) (sel : Element → bool)
    (f : Element → Element) (l : list Element) :
  (∀ e, sel e = true → P e → Q (f e)) → (∀ e, P e → Q e) →
  Forall P l → Forall Q (updateFirstL sel f l).
Proof.
  intros Hf HPQ. induction 1 as [|e l He Hl IH]; cbn [updateFirstL]; [constructor|].
  destruct (sel e) eqn:Hs.
  - constructor; [apply Hf; assumption|]. eapply Forall_impl; eassumption.
  - constructor; [apply HPQ, He|exact IH].
Qed.

Lemma selActiveWindow_cleared (e : Element) :
  selActiveWindow (classOp clearMarks e) = false.
Proof.
  unfold selActiveWindow. rewrite !hasClass_classOp.
  apply andb_false_iff.
  destruct (decide ("window-item" ∈ classList e)) as [Hw|Hw].
  - right. apply bool_decide_eq_false. unfold clearMarks.
    rewrite elem_of_clearTabMark, elem_of_clearWindowMark. tauto.
  - left. apply bool_decide_eq_false. unfold clearMarks.
    rewrite elem_of_clearTabMark, elem_of_clearWindowMark. tauto.
Qed.

Lemma selActiveTab_cleared (e : Element) :
  selActiveTab (classOp clearMarks e) = false.
Proof.
  unfold selActiveTab. rewrite !hasClass_classOp.
  apply andb_false_iff.
  destruct (decide ("tab-item" ∈ classList e)) as [Hw|Hw].
  - right. apply bool_decide_eq_false. unfold clearMarks.
    rewrite elem_of_clearTabMark, elem_of_clearWindowMark.
    intros [[_ H] H']. apply H'. split; [reflexivity|].
    rewrite elem_of_clearWindowMark. split; [exact Hw|]. intros [? _]. discriminate.
  - left. apply bool_decide_eq_false. unfold clearMarks.
    rewrite elem_of_clearTabMark, elem_of_clearWindowMark. tauto.
Qed.

Lemma hasClass_add (c x : string) (e : Element) :
  hasClass x (classList_add c e) = hasClass x e || bool_decide (x = c).
Proof.
  rewrite classList_add_classOp, hasClass_classOp. unfold hasClass.
  apply eq_true_iff_eq.
  rewrite orb_true_iff, !bool_decide_eq_true. apply elem_of_addClass.
Qed.

Lemma getAttr_add (k c : string) (e : Element) :
  getAttr k (classList_add c e) = getAttr k e.
Proof. unfold classList_add. destruct (hasClass c e); reflexivity. Qed.

Lemma selActiveWindow_add_tab (e : Element) :
  selActiveWindow (classList_add "active-tab" e) = selActiveWindow e.
Proof.
  unfold selActiveWindow. rewrite !hasClass_add.
  rewrite !bool_decide_eq_false_2 by discriminate. rewrite !orb_false_r. reflexivity.
Qed.

Lemma selActiveTab_add_window (e : Element) :
  selActiveTab (classList_add "active-window" e) = selActiveTab e.
Proof.
  unfold selActiveTab. rewrite !hasClass_add.
  rewrite !bool_decide_eq_false_2 by discriminate. rewrite !orb_false_r. reflexivity.
Qed.

Lemma selWindowItem_add (id : Z) (c : string) (e : Element) :
  c ≠ "window-item" →
  selWindowItem id (classList_add c e) = selWindowItem id e.
Proof.
  intros Hc. unfold selWindowItem. rewrite hasClass_add, getAttr_add.
  rewrite (bool_decide_eq_false_2 ("window-item" = c)) by congruence.
  rewrite orb_false_r. reflexivity.
Qed.

Lemma selTabItem_add (id : Z) (c : string) (e : Element) :
  c ≠ "tab-item" →
  selTabItem id (classList_add c e) = selTabItem id e.
Proof.
  intros Hc. unfold selTabItem. rewrite hasClass_add, getAttr_add.
  rewrite (bool_decide_eq_false_2 ("tab-item" = c)) by congruence.
  rewrite orb_false_r. reflexivity.
Qed.

Lemma elements_updateActiveDom (cur : option Window) (d : node) :
  elements (updateActiveDom cur d)
  = let l := classOp clearMarks <$> elements d in
    match cur with
    | Some cw =>
        let l := updateFirstL (selWindowItem (win_id cw))
                   (classList_add "active-window") l in
        match findActiveTab (win_tabs cw) with
        | Some t => updateFirstL (selTabItem (tab_id t))
                      (classList_add "active-tab") l
        | None => l
        end
    | None => l
    end.
Proof.
  rewrite updateActiveDom_clear_then_mark. unfold markActive. cbn zeta.
  destruct cur as [cw|]; [|apply elements_mapNode].
  destruct (findActiveTab (win_tabs cw)) as [t|];
    rewrite ?elements_withFirstMatch, elements_mapNode; reflexivity.
Qed.

(** C6. Running the activation updater a second time on its own result,
    with the same host focus, changes nothing; and after a run at most one
    element is a marked window row, at most one is a marked tab row, a
    marked window row is a row of the current window, and a marked tab row
    is a row of that window's active tab. *)
Theorem activation_update_idempotent (cur : option Window) (w : World) :
  let w1 := updateActiveStates cur w in
  updateActiveStates cur w1 = w1 ∧
  (countMatching selActiveWindow (dom w1) ≤ 1)%nat ∧
  (countMatching selActiveTab (dom w1) ≤ 1)%nat ∧
  Forall (λ e, selActiveWindow e = true →
               ∃ cw, cur = Some cw ∧ selWindowItem (win_id cw) e = true)
         (elements (dom w1)) ∧
  Forall (λ e, selActiveTab e = true →
               ∃ cw t, cur = Some cw ∧ findActiveTab (win_tabs cw) = Some t ∧
                       selTabItem (tab_id t) e = true)
         (elements (dom w1)).
Proof.
  cbn zeta. unfold updateActiveStates, setDom, countMatching. cbn [dom].
  split; [rewrite updateActiveDom_idemp; reflexivity|].
  rewrite elements_updateActiveDom. cbn zeta.
  set (l := classOp clearMarks <$> elements (dom w)).
  assert (HW0 : Forall (λ e, selActiveWindow e = false) l)
    by (apply Forall_fmap, Forall_true; intros e; apply selActiveWindow_cleared).
  assert (HT0 : Forall (λ e, selActiveTab e = false) l)
    by (apply Forall_fmap, Forall_true; intros e; apply selActiveTab_cleared).
  assert (HcW : length (filter (λ e, selActiveWindow e = true) l) = 0%nat)
    by apply count_none, HW0.
  assert (HcT : length (filter (λ e, selActiveTab e = true) l) = 0%nat)
    by apply count_none, HT0.
  destruct cur as [cw|].
  2:{ rewrite HcW, HcT. repeat split; try lia.
      - eapply Forall_impl; [exact HW0|]. cbn. intros e ->. discriminate.
      - eapply Forall_impl; [exact HT0|]. cbn. intros e ->. discriminate. }
  set (l1 := updateFirstL (selWindowItem (win_id cw))
               (classList_add "active-window") l).
  assert (Hc1W : (length (filter (λ e, selActiveWindow e = true) l1) ≤ 1)%nat).
  { unfold l1. etrans; [apply count_updateFirstL_le|]. rewrite HcW. lia. }
  assert (Hc1T : length (filter (λ e, selActiveTab e = true) l1) = 0%nat).
  { unfold l1. rewrite count_updateFirstL_same by apply selActiveTab_add_window.
    exact HcT. }
  assert (H1W : Forall (λ e, selActiveWindow e = true →
                   ∃ cw', Some cw = Some cw' ∧ selWindowItem (win_id cw') e = true) l1).
  { unfold l1. eapply Forall_updateFirstL; [| |exact HW0]; cbn.
    - intros e He _ _. exists cw. split; [reflexivity|].
      rewrite selWindowItem_add by discriminate. exact He.
    - intros e ->. discriminate. }
  assert (H1T : Forall (λ e, selActiveTab e = false) l1).
  { unfold l1. eapply Forall_updateFirstL; [| |exact HT0]; cbn.
    - intros e _ He. rewrite selActiveTab_add_window. exact He.
    - auto. }
  destruct (findActiveTab (win_tabs cw)) as [t|] eqn:Ht.
  - repeat split.
    + rewrite count_updateFirstL_same by apply selActiveWindow_add_tab. exact Hc1W.
    + etrans; [apply count_updateFirstL_le|]. rewrite Hc1T. lia.
    + eapply Forall_updateFirstL; [| |exact H1W]; cbn.
      * intros e _ He Hsel. rewrite selActiveWindow_add_tab in Hsel.
        destruct (He Hsel) as (cw' & Hcw & Hid). exists cw'. split; [exact Hcw|].
        rewrite selWindowItem_add by discriminate. exact Hid.
      * auto.
    + eapply Forall_updateFirstL; [| |exact H1T]; cbn.
      * intros e He _ _. exists cw, t. repeat split; [exact Ht|].
        rewrite selTabItem_add by discriminate. exact He.
      * intros e ->. discriminate.
  - repeat split; [exact Hc1W|lia|exact H1W|].
    eapply Forall_impl; [exact H1T|]. cbn. intros e ->. discriminate.
Qed.

Example activation_update_example :
  let w1 := updateActiveStates (Some scenarioFocus) scenarioWorld in
  markedRows (dom scenarioWorld)
  = [ ([("data-window-id", "1")], ["window-item"; "active-window"]) ] ∧
  markedRows (dom w1)
  = [ ([("data-window-id", "1")], ["window-item"; "active-window"]);
      ([("data-tab-id", "2")], ["tab-item"; "active-tab"]) ] ∧
  markedRows (dom (updateActiveStates (Some scenarioFocus) w1)) = markedRows (dom w1) ∧
  markedRows (dom (updateActiveStates None w1)) = [].
Proof. vm_compute. repeat split. Qed.

(** C9. A run of the activation updater changes at most the presence of the
    two marker classes in class lists: with both classes erased from every
    element, the tree after the run is the tree before it, so the rows, their
    order, their other classes and all their other data are the same; the two
    maps in memory, both persisted maps, the number of scheduled renders and
    the scroll offset are unchanged. *)
Theorem activation_update_frame (cur : option Window) (w : World) :
  let w' := updateActiveStates cur w in
  mapNode (classOp withoutMarks) (dom w') = mapNode (classOp withoutMarks) (dom w) ∧
  rowData <$> elements (dom w') = rowData <$> elements (dom w) ∧
  windowTitles w' = windowTitles w ∧
  collapsedState w' = collapsedState w ∧
  storage w' = storage w ∧
  scheduledRenders w' = scheduledRenders w ∧
  scrollTop w' = scrollTop w.
Proof.
  cbn zeta. unfold updateActiveStates, setDom. cbn.
  assert (H : mapNode (classOp withoutMarks) (updateActiveDom cur (dom w))
              = mapNode (classOp withoutMarks) (dom w)).
  { rewrite updateActiveDom_clear_then_mark.
    rewrite mapNode_markActive
      by (intros; auto using withoutMarks_add_window, withoutMarks_add_tab).
    rewrite mapNode_mapNode. apply mapNode_ext. intros e.
    rewrite classOp_classOp. apply classOp_ext, withoutMarks_clearMarks. }
  split; [exact H|]. split; [|repeat split].
  apply (f_equal elements) in H. rewrite !elements_mapNode in H.
  apply (f_equal (fmap rowData)) in H. rewrite <- !list_fmap_compose in H.
  exact H.
Qed.

(** ** Collapsible regions *)

Lemma fromFlags_plain (flags : gmap string bool) (e : Element) :
  (∀ k, listener e ≠ Some (ToggleSection k)) →
  fromFlags flags e.
Proof. intros Hl k H. destruct (Hl k H). Qed.

Lemma ident_classList_add (c : string) (e : Element) :
  ident (classList_add c e) = ident e.
Proof. unfold classList_add. destruct (hasClass c e); reflexivity. Qed.

Lemma listener_classList_add (c : string) (e : Element) :
  listener (classList_add c e) = listener e.
Proof. unfold classList_add. destruct (hasClass c e); reflexivity. Qed.

Lemma fromFlags_sectionContent (flags : gmap string bool) (key : string) :
  fromFlags flags (sectionContent flags key).
Proof.
  unfold sectionContent. intros k H.
  destruct (isCollapsed flags key);
    [rewrite listener_classList_add in H|]; discriminate H.
Qed.

(** A region is collapsed exactly when the flag of its key is set. *)
Lemma collapsed_sectionContent (flags : gmap string bool) (key : string) :
  hasClass "collapsed" (sectionContent flags key) = isCollapsed flags key.
Proof.
  unfold sectionContent. destruct (isCollapsed flags key) eqn:Hc.
  - rewrite hasClass_add. reflexivity.
  - reflexivity.
Qed.

Lemma listener_mapNode_withoutListener (n : node) :
  Forall (λ e, listener e = None) (elements (mapNode withoutListener n)).
Proof.
  rewrite elements_mapNode. apply Forall_fmap, Forall_forall. reflexivity.
Qed.

(** What the parser makes of a markup carries no listener. *)
Lemma listener_parsed (l : list node) :
  Forall (λ e, listener e = None)
         (flat_map elements (map (mapNode withoutListener) l)).
Proof.
  induction l as [|n l IH]; [constructor|]. cbn [map flat_map].
  apply Forall_app. split; [apply listener_mapNode_withoutListener|exact IH].
Qed.

Lemma fromFlags_parsed (flags : gmap string bool) (l : list node) :
  Forall (fromFlags flags) (flat_map elements (map (mapNode withoutListener) l)).
Proof.
  eapply Forall_impl; [apply listener_parsed|].
  intros e He k H. congruence.
Qed.

Lemma fromFlags_arrow (flags : gmap string bool) (key : string) :
  fromFlags flags (elem (createToggleArrow flags key)).
Proof.
  unfold createToggleArrow. cbn [elem].
  intros k H; cbn in H; injection H as <-.
  destruct (isCollapsed flags key); reflexivity.
Qed.

Ltac from_flags :=
  repeat (apply Forall_cons; split;
          [first [ apply fromFlags_plain; intros ?; discriminate
                 | apply fromFlags_arrow
                 | apply fromFlags_sectionContent ]|]);
  try apply Forall_nil_2.

Lemma fromFlags_tabItem (flags : gmap string bool) (windowId : Z) (tab : Tab) :
  Forall (fromFlags flags) (elements (tabItem windowId tab)).
Proof.
  unfold tabItem. cbn [appendChild insertBefore app].
  destruct (tab_pinned tab); cbn [appendChild insertBefore app].
  - rewrite insertBefore_title_found. cbn. from_flags.
  - cbn. from_flags.
Qed.

Lemma Forall_flat_map_elements (P : Element → Prop) {A} (f : A → node) (l : list A) :
  (∀ a, a ∈ l → Forall P (elements (f a))) →
  Forall P (flat_map elements (map f l)).
Proof.
  induction l as [|a l IH]; intros H; cbn; [constructor|].
  apply Forall_app. split; [apply H; left|].
  apply IH. intros b Hb. apply H. right. exact Hb.
Qed.

Lemma fromFlags_createTabList (flags : gmap string bool) (tabs : list Tab)
    (windowId : Z) (className : string) :
  Forall (fromFlags flags) (elements (createTabList tabs windowId className)).
Proof.
  unfold createTabList. cbn [elements]. apply Forall_cons. split.
  - apply fromFlags_plain; intros ?; discriminate.
  - apply Forall_flat_map_elements. intros tab _. apply fromFlags_tabItem.
Qed.

Lemma fromFlags_groupList {parser : HtmlParser} (flags : gmap string bool)
    (win : Window) (groupId : Z) (groupInfo : TabGroup) (tabsInGroup : list Tab) :
  Forall (fromFlags flags)
         (elements (groupList flags win groupId groupInfo tabsInGroup)).
Proof.
  unfold groupList.
  cbn [appendChild app elements flat_map createToggleArrow setInnerHTML elem].
  rewrite !app_nil_r. cbn [app].
  do 5 (apply Forall_cons; split;
        [first [ apply fromFlags_plain; intros ?; discriminate
               | apply fromFlags_arrow ]|]).
  apply Forall_app. split; [apply fromFlags_parsed|].
  from_flags.
  apply Forall_flat_map_elements. intros tab _. apply fromFlags_tabItem.
Qed.

Lemma fromFlags_blockNode {parser : HtmlParser}
    (flags : gmap string bool) (win : Window) (b : Block) :
  Forall (fromFlags flags) (elements (blockNode flags win b)).
Proof.
  destruct b; [apply fromFlags_createTabList|apply fromFlags_groupList].
Qed.

Lemma elements_windowItem {parser : HtmlParser}
    (titles : gmap Z string) (flags : gmap string bool)
    (groupMap : gmap Z TabGroup) (win : Window) :
  ∃ pre,
    Forall (fromFlags flags) pre ∧
    elements (windowItem titles flags groupMap win)
    = pre ++ sectionContent flags ("window-content-" +:+ pretty (win_id win))
          :: flat_map elements (map (blockNode flags win) (windowBlocks groupMap win)).
Proof.
  unfold windowItem. rewrite foldl_appendChild.
  cbn [appendChild app elements flat_map createToggleArrow]. rewrite !app_nil_r.
  eexists [_; _; _; _; _]. split; [|reflexivity]. from_flags.
Qed.

Lemma fromFlags_windowItem {parser : HtmlParser}
    (titles : gmap Z string) (flags : gmap string bool)
    (groupMap : gmap Z TabGroup) (win : Window) :
  Forall (fromFlags flags) (elements (windowItem titles flags groupMap win)).
Proof.
  destruct (elements_windowItem titles flags groupMap win) as (pre & Hpre & ->).
  apply Forall_app. split; [exact Hpre|].
  apply Forall_cons. split; [apply fromFlags_sectionContent|].
  apply Forall_flat_map_elements. intros b _. apply fromFlags_blockNode.
Qed.

Lemma fromFlags_windowList {parser : HtmlParser} (localeCompare : string → string → Z)
    (titles : gmap Z string) (flags : gmap string bool)
    (windows : list Window) (tabGroups : list TabGroup) :
  Forall (fromFlags flags)
         (elements (windowList localeCompare titles flags windows tabGroups)).
Proof.
  unfold windowList. cbn [elements]. apply Forall_cons. split.
  - apply fromFlags_plain; intros ?; discriminate.
  - apply Forall_flat_map_elements. intros win _. apply fromFlags_windowItem.
Qed.

Lemma elements_belowMount (d : node) : elements d = elem d :: belowMount d.
Proof. destruct d. reflexivity. Qed.

Lemma tail_updateFirstL (P : Element → Prop) (sel : Element → bool)
    (f : Element → Element) (l : list Element) :
  (∀ e, P e → P (f e)) →
  Forall P (tail l) → Forall P (tail (updateFirstL sel f l)).
Proof.
  intros Hf. destruct l as [|e l]; cbn; [auto|]. intros Hl.
  destruct (sel e); cbn; [exact Hl|].
  eapply Forall_updateFirstL; [| |exact Hl]; auto.
Qed.

Lemma hasClass_clearMarks (c : string) (e : Element) :
  c ≠ "active-window" → c ≠ "active-tab" →
  hasClass c (classOp clearMarks e) = hasClass c e.
Proof.
  intros H1 H2. rewrite hasClass_classOp. unfold hasClass.
  apply bool_decide_ext. unfold clearMarks.
  rewrite elem_of_clearTabMark, elem_of_clearWindowMark. tauto.
Qed.

Lemma fromFlags_clearMarks (flags : gmap string bool) (e : Element) :
  fromFlags flags e → fromFlags flags (classOp clearMarks e).
Proof.
  intros H k Hk. rewrite hasClass_clearMarks by discriminate. apply H, Hk.
Qed.

Lemma fromFlags_add_mark (flags : gmap string bool) (c : string) (e : Element) :
  c ≠ "expanded" →
  fromFlags flags e → fromFlags flags (classList_add c e).
Proof.
  intros Hc H k Hk. rewrite hasClass_add.
  rewrite listener_classList_add in Hk.
  rewrite (bool_decide_eq_false_2 ("expanded" = c)) by congruence.
  rewrite orb_false_r. apply H, Hk.
Qed.

(** The activation updater keeps what a render established on the elements
    under the mount point. *)
Lemma fromFlags_updateActiveDom (flags : gmap string bool) (cur : option Window)
    (d : node) :
  Forall (fromFlags flags) (belowMount d) →
  Forall (fromFlags flags) (belowMount (updateActiveDom cur d)).
Proof.
  intros Hd.
  assert (Htail : ∀ n, belowMount n = tail (elements n))
    by (intros n; rewrite elements_belowMount; reflexivity).
  rewrite Htail, elements_updateActiveDom. cbn zeta.
  assert (H0 : Forall (fromFlags flags) (tail (classOp clearMarks <$> elements d))).
  { rewrite elements_belowMount. cbn. apply Forall_fmap.
    eapply Forall_impl; [exact Hd|]. apply fromFlags_clearMarks. }
  destruct cur as [cw|]; [|exact H0].
  assert (H1 : Forall (fromFlags flags)
                 (tail (updateFirstL (selWindowItem (win_id cw))
                          (classList_add "active-window")
                          (classOp clearMarks <$> elements d)))).
  { apply tail_updateFirstL; [|exact H0].
    intros e. apply fromFlags_add_mark; discriminate. }
  destruct (findActiveTab (win_tabs cw)); [|exact H1].
  apply tail_updateFirstL; [|exact H1].
  intros e. apply fromFlags_add_mark; discriminate.
Qed.

Lemma updateActiveDom_withoutMarks (cur : option Window) (d : node) :
  mapNode (classOp withoutMarks) (updateActiveDom cur d)
  = mapNode (classOp withoutMarks) d.
Proof.
  rewrite updateActiveDom_clear_then_mark.
  rewrite mapNode_markActive
    by (intros; auto using withoutMarks_add_window, withoutMarks_add_tab).
  rewrite mapNode_mapNode. apply mapNode_ext. intros e.
  rewrite classOp_classOp. apply classOp_ext, withoutMarks_clearMarks.
Qed.

(** A full render, field by field. *)
Lemma renderList_fields {parser : HtmlParser}
    (localeCompare : string → string → Z) (restore : bool)
    (windows : list Window) (tabGroups : list TabGroup) (cur : option Window)
    (w : World) :
  renderList localeCompare restore windows tabGroups cur w
  = {| dom := updateActiveDom cur
                (Node (elem (dom w))
                   [windowList localeCompare
                      (default ∅ (customWindowTitles (storage w)))
                      (default ∅ (storedCollapsedState (storage w)))
                      windows tabGroups]);
       scrollTop := if restore then scrollTop w else 0;
       windowTitles := default ∅ (customWindowTitles (storage w));
       collapsedState := default ∅ (storedCollapsedState (storage w));
       storage := storage w;
       scheduledRenders := scheduledRenders w |}.
Proof. destruct restore; reflexivity. Qed.

(** After a full render every arrow under the mount point is expanded
    exactly when the persisted flag of its key is not set. *)
Lemma renderList_from_persisted_flags {parser : HtmlParser}
    (localeCompare : string → string → Z)
    (restore : bool) (windows : list Window) (tabGroups : list TabGroup)
    (cur : option Window) (w : World) :
  Forall (fromFlags (default ∅ (storedCollapsedState (storage w))))
         (belowMount (dom (renderList localeCompare restore windows tabGroups cur w))).
Proof.
  rewrite renderList_fields. cbn [dom]. apply fromFlags_updateActiveDom.
  unfold belowMount; cbn [children flat_map].
  rewrite app_nil_r; apply fromFlags_windowList.
Qed.

(** *** Where the regions are *)

Lemma lookup_map {A B} (f : A → B) (l : list A) (i : nat) :
  map f l !! i = f <$> l !! i.
Proof.
  revert i. induction l as [|a l IH]; intros [|i]; cbn; auto.
Qed.

Lemma nodeAt_mapNode (g : Element → Element) (path : list nat) (n : node) :
  nodeAt path (mapNode g n) = mapNode g <$> nodeAt path n.
Proof.
  revert n. induction path as [|i path IH]; intros [e ks]; [reflexivity|].
  cbn [nodeAt mapNode children]. rewrite lookup_map.
  destruct (ks !! i) as [k|]; [apply IH|reflexivity].
Qed.

Lemma hasClass_withoutMarks (c : string) (e : Element) :
  c ≠ "active-window" → c ≠ "active-tab" →
  hasClass c (classOp withoutMarks e) = hasClass c e.
Proof.
  intros H1 H2. rewrite hasClass_classOp. unfold hasClass.
  apply bool_decide_ext. unfold withoutMarks.
  rewrite !elem_of_removeClass. tauto.
Qed.

(** The activation updater leaves every node where it is, with its id and
    with every class but the two markers. *)
Lemma nodeAt_updateActiveDom (cur : option Window) (path : list nat) (d n : node) :
  nodeAt path (updateActiveDom cur d) = Some n →
  ∃ n0, nodeAt path d = Some n0 ∧
        ident (elem n) = ident (elem n0) ∧
        listener (elem n) = listener (elem n0) ∧
        ∀ c, c ≠ "active-window" → c ≠ "active-tab" →
             hasClass c (elem n) = hasClass c (elem n0).
Proof.
  intros Hn.
  assert (H : nodeAt path (mapNode (classOp withoutMarks) d)
              = Some (mapNode (classOp withoutMarks) n)).
  { rewrite <- (updateActiveDom_withoutMarks cur), nodeAt_mapNode, Hn. reflexivity. }
  rewrite nodeAt_mapNode in H.
  destruct (nodeAt path d) as [n0|]; [|discriminate]. injection H as H.
  exists n0. split; [reflexivity|].
  apply (f_equal elem) in H. destruct n as [e ks], n0 as [e0 ks0].
  cbn [mapNode elem] in *. split; [|split].
  - apply (f_equal ident) in H. symmetry. exact H.
  - apply (f_equal listener) in H. symmetry. exact H.
  - intros c H1 H2. rewrite <- (hasClass_withoutMarks c e H1 H2),
      <- (hasClass_withoutMarks c e0 H1 H2), H. reflexivity.
Qed.

Lemma nodeAt_updateActiveDom_Some (cur : option Window) (path : list nat)
    (d n0 : node) :
  nodeAt path d = Some n0 →
  ∃ n, nodeAt path (updateActiveDom cur d) = Some n ∧
       ident (elem n) = ident (elem n0) ∧
       listener (elem n) = listener (elem n0) ∧
       ∀ c, c ≠ "active-window" → c ≠ "active-tab" →
            hasClass c (elem n) = hasClass c (elem n0).
Proof.
  intros Hn0.
  pose proof (nodeAt_mapNode (classOp withoutMarks) path (updateActiveDom cur d)) as H.
  rewrite updateActiveDom_withoutMarks, nodeAt_mapNode, Hn0 in H.
  destruct (nodeAt path (updateActiveDom cur d)) as [n|] eqn:Hn; [|discriminate].
  exists n. split; [reflexivity|].
  destruct (nodeAt_updateActiveDom cur path d n Hn) as (n0' & Hn0' & Hrest).
  rewrite Hn0 in Hn0'. injection Hn0' as <-. exact Hrest.
Qed.

Lemma nodeAt_first (e : Element) (k : node) (ks : list node) (path : list nat) :
  nodeAt (0%nat :: path) (Node e (k :: ks)) = nodeAt path k.
Proof. reflexivity. Qed.

Lemma nodeAt_second (e : Element) (k0 k1 : node) (ks : list node) (path : list nat) :
  nodeAt (1%nat :: path) (Node e (k0 :: k1 :: ks)) = nodeAt path k1.
Proof. reflexivity. Qed.

Lemma nodeAt_map {A} (f : A → node) (e : Element) (l : list A) (i : nat)
    (path : list nat) :
  nodeAt (i :: path) (Node e (map f l)) = l !! i ≫= (λ a, nodeAt path (f a)).
Proof. cbn [nodeAt children]. rewrite lookup_map. destruct (l !! i); reflexivity. Qed.

Lemma nodeAt_fmap {A} (f : A → node) (e : Element) (l : list A) (i : nat)
    (path : list nat) :
  nodeAt (i :: path) (Node e (f <$> l)) = l !! i ≫= (λ a, nodeAt path (f a)).
Proof.
  cbn [nodeAt children]. rewrite list_lookup_fmap. destruct (l !! i); reflexivity.
Qed.

(** The node at the place of the region of the [i]-th window. *)
Lemma nodeAt_window_region {parser : HtmlParser}
    (localeCompare : string → string → Z)
    (titles : gmap Z string) (flags : gmap string bool) (windows : list Window)
    (tabGroups : list TabGroup) (mount : Element) (i : nat) (rest : list nat) :
  nodeAt (0%nat :: i :: 1%nat :: rest)
    (Node mount [windowList localeCompare titles flags windows tabGroups])
  = sortWindows localeCompare titles windows !! i ≫= λ win,
      nodeAt rest
        (Node (sectionContent flags ("window-content-" +:+ pretty (win_id win)))
           (blockNode flags win <$> windowBlocks (mkGroupMap tabGroups) win)).
Proof.
  rewrite nodeAt_first. unfold windowList. rewrite nodeAt_map.
  destruct (sortWindows localeCompare titles windows !! i) as [win|]; [|reflexivity].
  cbn [mbind option_bind].
  destruct (windowItem_content titles flags (mkGroupMap tabGroups) win)
    as (header & _ & ->).
  apply nodeAt_second.
Qed.

(** The node at the place of the region of a block: there is none for the
    row of a single tab. *)
Lemma nodeAt_block_region {parser : HtmlParser} (flags : gmap string bool)
    (win : Window) (b : Block) :
  nodeAt [0; 1]%nat (blockNode flags win b)
  = match b with
    | TabBlock _ => None
    | GroupBlock g _ ts =>
        Some (Node (sectionContent flags ("group-content-" +:+ pretty g))
                [createTabList ts (win_id win) "tab-list-in-group"])
    end.
Proof.
  destruct b as [tab|g info ts]; cbn [blockNode].
  - unfold createTabList, tabItem. cbn [map]. rewrite nodeAt_first.
    destruct (tab_pinned tab); reflexivity.
  - destruct (groupList_shape flags win g info ts) as (header & _ & ->).
    reflexivity.
Qed.

(** In the list that a render builds, the node at the place of a region is
    a region built from the flags. *)
Lemma windowList_region {parser : HtmlParser} (localeCompare : string → string → Z)
    (titles : gmap Z string) (flags : gmap string bool) (windows : list Window)
    (tabGroups : list TabGroup) (mount : Element) (path : list nat) (n : node) :
  regionPath path →
  nodeAt path (Node mount [windowList localeCompare titles flags windows tabGroups])
  = Some n →
  ∃ key, elem n = sectionContent flags key.
Proof.
  intros [[i ->]|(i & j & ->)] Hn; rewrite nodeAt_window_region in Hn;
    (destruct (sortWindows localeCompare titles windows !! i) as [win|];
     [|discriminate]); cbn [mbind option_bind] in Hn.
  - injection Hn as <-. eauto.
  - rewrite nodeAt_fmap in Hn.
    destruct (windowBlocks (mkGroupMap tabGroups) win !! j) as [b|];
      [|discriminate]. cbn [mbind option_bind] in Hn.
    rewrite nodeAt_block_region in Hn.
    destruct b as [tab|g info ts]; [discriminate|]. injection Hn as <-. eauto.
Qed.

(** Each window of a render, and each group shown in it, has its region at
    its place. *)
Lemma windowList_has_regions {parser : HtmlParser}
    (localeCompare : string → string → Z)
    (titles : gmap Z string) (flags : gmap string bool) (windows : list Window)
    (tabGroups : list TabGroup) (mount : Element) (i : nat) (win : Window) :
  sortWindows localeCompare titles windows !! i = Some win →
  let list := Node mount [windowList localeCompare titles flags windows tabGroups] in
  (∃ shown, nodeAt [0; i; 1]%nat list
            = Some (Node (sectionContent flags
                            ("window-content-" +:+ pretty (win_id win))) shown)) ∧
  (∀ j g info ts,
     windowBlocks (mkGroupMap tabGroups) win !! j = Some (GroupBlock g info ts) →
     ∃ shown, nodeAt [0; i; 1; j; 0; 1]%nat list
              = Some (Node (sectionContent flags ("group-content-" +:+ pretty g))
                        shown)).
Proof.
  intros Hwin. cbn zeta. rewrite !nodeAt_window_region, Hwin.
  cbn [mbind option_bind]. split; [eauto|].
  intros j g info ts Hj. rewrite nodeAt_window_region, Hwin.
  cbn [mbind option_bind]. rewrite nodeAt_fmap, Hj. cbn [mbind option_bind].
  rewrite nodeAt_block_region. eauto.
Qed.

(** After a full render the node at the place of a region has an id, and is
    collapsed exactly when the persisted flag of that id is set. *)
Lemma renderList_region {parser : HtmlParser} (localeCompare : string → string → Z)
    (restore : bool) (windows : list Window) (tabGroups : list TabGroup)
    (cur : option Window) (w : World) (path : list nat) (n : node) :
  regionPath path →
  nodeAt path (dom (renderList localeCompare restore windows tabGroups cur w)) = Some n →
  ∃ key, ident (elem n) = Some key ∧
         hasClass "collapsed" (elem n)
         = isCollapsed (default ∅ (storedCollapsedState (storage w))) key.
Proof.
  intros Hpath Hn. rewrite renderList_fields in Hn. cbn [dom] in Hn.
  apply nodeAt_updateActiveDom in Hn as (n0 & Hn0 & Hid & _ & Hclass).
  apply (windowList_region _ _ _ _ _ _ _ _ Hpath) in Hn0 as (key & Hkey).
  exists key. rewrite Hid, Hclass, Hkey by discriminate.
  split; [apply ident_sectionContent|apply collapsed_sectionContent].
Qed.

Lemma renderList_has_regions {parser : HtmlParser}
    (localeCompare : string → string → Z)
    (restore : bool) (windows : list Window) (tabGroups : list TabGroup)
    (cur : option Window) (w : World) (i : nat) (win : Window) :
  sortWindows localeCompare (default ∅ (customWindowTitles (storage w))) windows !! i
  = Some win →
  let d := dom (renderList localeCompare restore windows tabGroups cur w) in
  (∃ n, nodeAt [0; i; 1]%nat d = Some n ∧
        ident (elem n) = Some ("window-content-" +:+ pretty (win_id win))) ∧
  (∀ j g info ts,
     windowBlocks (mkGroupMap tabGroups) win !! j = Some (GroupBlock g info ts) →
     ∃ n, nodeAt [0; i; 1; j; 0; 1]%nat d = Some n ∧
          ident (elem n) = Some ("group-content-" +:+ pretty g)).
Proof.
  intros Hwin. cbn zeta. rewrite renderList_fields. cbn [dom].
  destruct (windowList_has_regions localeCompare _
              (default ∅ (storedCollapsedState (storage w))) windows tabGroups
              (elem (dom w)) i win Hwin) as [Hregion Hgroups].
  assert (Hkept : ∀ path n0 key,
            nodeAt path (Node (elem (dom w))
                           [windowList localeCompare
                              (default ∅ (customWindowTitles (storage w)))
                              (default ∅ (storedCollapsedState (storage w)))
                              windows tabGroups]) = Some n0 →
            ident (elem n0) = Some key →
            ∃ n, nodeAt path (updateActiveDom cur
                                (Node (elem (dom w))
                                   [windowList localeCompare
                                      (default ∅ (customWindowTitles (storage w)))
                                      (default ∅ (storedCollapsedState (storage w)))
                                      windows tabGroups])) = Some n ∧
                 ident (elem n) = Some key).
  { intros path n0 key Hn0 Hkey.
    pose proof (nodeAt_mapNode (classOp withoutMarks) path
                  (updateActiveDom cur
                     (Node (elem (dom w))
                        [windowList localeCompare
                           (default ∅ (customWindowTitles (storage w)))
                           (default ∅ (storedCollapsedState (storage w)))
                           windows tabGroups]))) as H.
    rewrite updateActiveDom_withoutMarks, nodeAt_mapNode, Hn0 in H.
    destruct (nodeAt path (updateActiveDom cur _)) as [n|] eqn:Hn; [|discriminate].
    exists n. split; [reflexivity|].
    injection H as H. apply (f_equal elem) in H.
    destruct n as [e ks], n0 as [e0 ks0]. cbn [mapNode elem] in *.
    apply (f_equal ident) in H. cbn in H. congruence. }
  split.
  - destruct Hregion as (shown & Hn0).
    apply (Hkept _ _ _ Hn0), ident_sectionContent.
  - intros j g info ts Hj. destruct (Hgroups j g info ts Hj) as (shown & Hn0).
    apply (Hkept _ _ _ Hn0), ident_sectionContent.
Qed.

(** ** Toggling a region *)

Lemma hasClass_remove (c x : string) (e : Element) :
  hasClass x (classList_remove c e) = hasClass x e && negb (bool_decide (x = c)).
Proof.
  rewrite classList_remove_classOp, hasClass_classOp. unfold hasClass.
  apply eq_true_iff_eq.
  rewrite andb_true_iff, negb_true_iff, !bool_decide_eq_true, bool_decide_eq_false.
  apply elem_of_removeClass.
Qed.

Lemma hasClass_toggle_same (c : string) (force : bool) (e : Element) :
  hasClass c (classList_toggle c force e) = force.
Proof.
  destruct force; cbn [classList_toggle].
  - rewrite hasClass_add, bool_decide_eq_true_2 by reflexivity. apply orb_true_r.
  - rewrite hasClass_remove, bool_decide_eq_true_2 by reflexivity. apply andb_false_r.
Qed.

Lemma hasClass_toggle_other (c x : string) (force : bool) (e : Element) :
  x ≠ c → hasClass x (classList_toggle c force e) = hasClass x e.
Proof.
  intros Hne. destruct force; cbn [classList_toggle].
  - rewrite hasClass_add, bool_decide_eq_false_2 by exact Hne. apply orb_false_r.
  - rewrite hasClass_remove, bool_decide_eq_false_2 by exact Hne. apply andb_true_r.
Qed.

Lemma ident_classList_toggle (c : string) (force : bool) (e : Element) :
  ident (classList_toggle c force e) = ident e.
Proof. destruct force; [apply ident_classList_add|reflexivity]. Qed.

(** The first match after the first match has been updated. *)
Lemma head_filter_updateFirstL (sel : Element → bool) (f : Element → Element)
    (l : list Element) :
  (∀ e, sel e = true → sel (f e) = true) →
  head (filter (λ e, sel e = true) (updateFirstL sel f l))
  = f <$> head (filter (λ e, sel e = true) l).
Proof.
  intros Hf. induction l as [|e l IH]; [reflexivity|]. cbn [updateFirstL].
  destruct (sel e) eqn:He.
  - rewrite !filter_cons_True by auto. reflexivity.
  - rewrite !filter_cons_False by congruence. exact IH.
Qed.

(** The first match in two lists whose elements correspond one to one and
    match alike. *)
Lemma head_filter_Forall2 (R : Element → Element → Prop) (sel : Element → bool)
    (l l' : list Element) (a : Element) :
  (∀ x y, R x y → sel x = sel y) →
  Forall2 R l l' →
  head (filter (λ e, sel e = true) l) = Some a →
  ∃ b, head (filter (λ e, sel e = true) l') = Some b ∧ R a b.
Proof.
  intros Hsel. induction 1 as [|x y l l' Hxy _ IH]; [discriminate|].
  destruct (sel x) eqn:Hx.
  - rewrite !filter_cons_True by (rewrite <- ?(Hsel _ _ Hxy); exact Hx).
    intros [= <-]. exists y. split; [reflexivity|exact Hxy].
  - rewrite !filter_cons_False by (rewrite <- ?(Hsel _ _ Hxy); congruence).
    exact IH.
Qed.

(** An update at a path changes one element at most, and changes it by
    [g]. *)
Lemma elements_updateAt (g : Element → Element) (n : node) (path : list nat) :
  Forall2 (λ a b, b = a ∨ b = g a) (elements n) (elements (updateAt path g n)).
Proof.
  assert (Hrefl : ∀ l : list Element, Forall2 (λ a b, b = a ∨ b = g a) l l)
    by (intros l; apply Forall2_same_length_lookup_2; [reflexivity|];
        intros i a b Ha Hb; left; congruence).
  revert path. induction n as [e ks IH] using node_ind. intros [|i path]; cbn.
  - constructor; [right; reflexivity|apply Hrefl].
  - constructor; [left; reflexivity|].
    revert i. induction IH as [|k ks Hk _ IHks]; intros i; [constructor|].
    destruct i as [|i]; cbn.
    + apply Forall2_app; [apply Hk|apply Hrefl].
    + apply Forall2_app; [apply Hrefl|apply IHks].
Qed.

(** What the listener does to the tree and the maps, when the region
    exists. *)
Lemma onArrowClick_effect (arrowPath : list nat) (key : string) (w : World)
    (target : Element) :
  getElementById key (dom w) = Some target →
  let nowCollapsed := negb (hasClass "collapsed" target) in
  let w' := onArrowClick arrowPath key w in
  (∃ target', getElementById key (dom w') = Some target' ∧
              hasClass "collapsed" target' = nowCollapsed) ∧
  collapsedState w' = <[key := nowCollapsed]> (collapsedState w) ∧
  storedCollapsedState (storage w') = Some (<[key := nowCollapsed]> (collapsedState w)) ∧
  windowTitles w' = windowTitles w ∧
  customWindowTitles (storage w') = customWindowTitles (storage w) ∧
  scheduledRenders w' = scheduledRenders w.
Proof.
  intros Htarget. cbn zeta. unfold onArrowClick. rewrite Htarget.
  split; [|repeat split]. cbn [dom saveCollapsedState setDom].
  unfold getElementById, querySelector in *.
  rewrite elements_withFirstMatch.
  rewrite head_filter_updateFirstL
    by (intros e; unfold selId; rewrite ident_classList_toggle; auto).
  set (g := classList_toggle "expanded" (negb (negb (hasClass "collapsed" target)))).
  destruct (head_filter_Forall2 (λ a b, b = a ∨ b = g a) (selId key)
              (elements (dom w)) (elements (updateAt arrowPath g (dom w))) target)
    as (t1 & -> & Ht1).
  { intros x y [-> | ->]; unfold selId, g; rewrite ?ident_classList_toggle;
      reflexivity. }
  { apply elements_updateAt. }
  { exact Htarget. }
  eexists. split; [reflexivity|]. apply hasClass_toggle_same.
Qed.

(** X17. A click on a toggle arrow flips the [collapsed] class of the first
    element of the document that carries the arrow's key as its id, stores
    the new flag under the key in memory and in persistent storage, and
    schedules no render.  In a render that starts after it and runs alone,
    a region that carries that key is collapsed exactly when the stored flag
    is true.  In any render that runs alone the regions are at their
    places, the second child of the item of each window and of each group
    shown, each with its derived key; a region whose key has no persisted
    flag is not collapsed, and the arrows made for such a key are
    expanded. *)
Theorem toggle_persists_and_render_restores {parser : HtmlParser}
    (arrowPath : list nat) (key : string)
    (w : World) (arrow : node) (target : Element) :
  nodeAt arrowPath (dom w) = Some arrow →
  listener (elem arrow) = Some (ToggleSection key) →
  getElementById key (dom w) = Some target →
  let nowCollapsed := negb (hasClass "collapsed" target) in
  let w' := click arrowPath w in
  (∃ target', getElementById key (dom w') = Some target' ∧
              hasClass "collapsed" target' = nowCollapsed) ∧
  collapsedState w' !! key = Some nowCollapsed ∧
  (storedCollapsedState (storage w') ≫= lookup key) = Some nowCollapsed ∧
  scheduledRenders w' = scheduledRenders w ∧
  (∀ localeCompare restore windows tabGroups cur path region,
     regionPath path →
     nodeAt path (dom (renderList localeCompare restore windows tabGroups cur w'))
     = Some region →
     ident (elem region) = Some key →
     hasClass "collapsed" (elem region) = nowCollapsed) ∧
  (∀ localeCompare restore windows tabGroups cur w0,
     let d := dom (renderList localeCompare restore windows tabGroups cur w0) in
     let flags := default ∅ (storedCollapsedState (storage w0)) in
     (∀ i win,
        sortWindows localeCompare (default ∅ (customWindowTitles (storage w0)))
                    windows !! i = Some win →
        (∃ region, nodeAt [0; i; 1]%nat d = Some region ∧
                   ident (elem region)
                   = Some ("window-content-" +:+ pretty (win_id win))) ∧
        (∀ j g info ts,
           windowBlocks (mkGroupMap tabGroups) win !! j = Some (GroupBlock g info ts) →
           ∃ region, nodeAt [0; i; 1; j; 0; 1]%nat d = Some region ∧
                     ident (elem region) = Some ("group-content-" +:+ pretty g))) ∧
     (∀ path region k,
        regionPath path → nodeAt path d = Some region →
        ident (elem region) = Some k → flags !! k = None →
        hasClass "collapsed" (elem region) = false) ∧
     (∀ k, flags !! k = None →
           Forall (λ e, listener e = Some (ToggleSection k) →
                        hasClass "expanded" e = true)
                  (belowMount d))).
Proof.
  intros Harrow Hlistener Htarget. cbn zeta.
  assert (Hclick : click arrowPath w = onArrowClick arrowPath key w).
  { unfold click. rewrite Harrow. destruct arrow as [e ks]. cbn in Hlistener.
    rewrite Hlistener. reflexivity. }
  rewrite Hclick.
  destruct (onArrowClick_effect arrowPath key w target Htarget)
    as (Hdom & Hmem & Hstored & _ & _ & Hsched).
  split; [exact Hdom|]. split; [rewrite Hmem; apply lookup_insert_eq|].
  split; [rewrite Hstored; apply lookup_insert_eq|]. split; [exact Hsched|]. split.
  - intros localeCompare restore windows tabGroups cur path region Hpath Hregion Hid.
    destruct (renderList_region _ _ _ _ _ _ _ _ Hpath Hregion) as (k & Hk & Hc).
    assert (k = key) as -> by congruence.
    rewrite Hc, Hstored. cbn. unfold isCollapsed. rewrite lookup_insert_eq.
    reflexivity.
  - intros localeCompare restore windows tabGroups cur w0. split; [|split].
    + intros i win Hwin. apply renderList_has_regions, Hwin.
    + intros path region k Hpath Hregion Hid Hk.
      destruct (renderList_region _ _ _ _ _ _ _ _ Hpath Hregion) as (k' & Hk' & Hc).
      assert (k' = k) as -> by congruence.
      rewrite Hc. unfold isCollapsed. rewrite Hk. reflexivity.
    + intros k Hk.
      eapply Forall_impl; [apply renderList_from_persisted_flags|].
      intros e He H. rewrite (He k H). unfold isCollapsed. rewrite Hk. reflexivity.
Qed.

Lemma toggle_persists_and_render_restores_witness :
  let w' := click scenarioGroupArrow scenarioWorld in
  let d := dom (renderList (parser := exampleParser) byLength true [scenarioWindow]
                  [exampleGroup] (Some scenarioWindow) w') in
  (storedCollapsedState (storage w') ≫= lookup "group-content-5") = Some true ∧
  scheduledRenders w' = [] ∧
  (elem <$> nodeAt [0; 0; 1; 1; 0; 1]%nat d)
  = Some (classList_add "collapsed" (withId "group-content-5" (createElement "div"))) ∧
  ∀ region, nodeAt [0; 0; 1; 1; 0; 1]%nat d = Some region →
            hasClass "collapsed" (elem region) = true.
Proof.
  intros w' d.
  edestruct (toggle_persists_and_render_restores (parser := exampleParser)
               scenarioGroupArrow "group-content-5" scenarioWorld)
    as (_ & _ & Hstored & Hscheduled & Hrender & _).
  - vm_compute. reflexivity.
  - reflexivity.
  - vm_compute. reflexivity.
  - split; [exact Hstored|]. split; [exact Hscheduled|].
    split; [vm_compute; reflexivity|].
    intros region Hregion.
    apply (Hrender byLength true [scenarioWindow] [exampleGroup]
             (Some scenarioWindow) [0; 0; 1; 1; 0; 1]%nat region).
    + right. exists 0%nat, 1%nat. reflexivity.
    + exact Hregion.
    + vm_compute in Hregion. injection Hregion as <-. reflexivity.
Defined.

(** C7. The title of a group is spliced into the markup of the group's
    header, and the listener of an arrow looks its region up by id in the
    whole document.  For a group whose title spells out an element with the
    id of the group's region, that element comes first: a click on the
    group's arrow leaves the region as it was, visible, marks the spelled
    out element instead, turns the arrow, and persists the flag as
    collapsed.  The next render shows the region collapsed, and a click on
    the arrow then leaves it collapsed, with the flag still set. *)
Theorem toggle_misses_region_under_title_markup :
  let render := renderList (parser := markupParser) byLength false
                  [scenarioWindow] [markupGroup] (Some scenarioWindow) in
  let arrow d := elem <$> nodeAt scenarioGroupArrow d in
  let region d := elem <$> nodeAt [0; 0; 1; 1; 0; 1]%nat d in
  let spelled d := elem <$> nodeAt [0; 0; 1; 1; 0; 0; 1; 1; 0]%nat d in
  let w := render emptyWorld in
  let w1 := click scenarioGroupArrow w in
  let w2 := render w1 in
  let w3 := click scenarioGroupArrow w2 in
  (listener <$> arrow (dom w)) = Some (Some (ToggleSection "group-content-5")) ∧
  region (dom w) = Some (withId "group-content-5" (createElement "div")) ∧
  spelled (dom w) = Some (withId "group-content-5" (createElement "i")) ∧
  region (dom w1) = region (dom w) ∧
  (hasClass "collapsed" <$> spelled (dom w1)) = Some true ∧
  (hasClass "expanded" <$> arrow (dom w1)) = Some false ∧
  storedFlag w1 "group-content-5" = Some true ∧
  (hasClass "collapsed" <$> region (dom w2)) = Some true ∧
  (hasClass "expanded" <$> arrow (dom w2)) = Some false ∧
  region (dom w3) = region (dom w2) ∧
  storedFlag w3 "group-content-5" = Some true.
Proof. vm_compute. repeat split; reflexivity. Qed.

(** Every window of the snapshot has its content region in the rendered
    tree. *)
Lemma windowItem_region_present {parser : HtmlParser}
    (titles : gmap Z string) (flags : gmap string bool)
    (groupMap : gmap Z TabGroup) (win : Window) :
  sectionContent flags ("window-content-" +:+ pretty (win_id win))
  ∈ elements (windowItem titles flags groupMap win).
Proof.
  destruct (elements_windowItem titles flags groupMap win) as (pre & _ & ->).
  apply elem_of_app. right. left.
Qed.

(** ** The earlier loop *)

Lemma mkGroupMap_lookup (tabGroups : list TabGroup) (g : Z) (info : TabGroup) :
  mkGroupMap tabGroups !! g = Some info → info ∈ tabGroups ∧ group_id info = g.
Proof.
  unfold mkGroupMap.
  assert (H : ∀ (m : gmap Z TabGroup),
             foldl (λ m group, <[group_id group := group]> m) m tabGroups !! g = Some info →
             m !! g = Some info ∨ (info ∈ tabGroups ∧ group_id info = g)).
  { induction tabGroups as [|x l IH]; intros m; cbn [foldl]; [auto|].
    intros Hl. destruct (IH _ Hl) as [Hm|[Hin Hid]].
    - destruct (decide (group_id x = g)) as [Hx|Hx].
      + rewrite Hx, lookup_insert_eq in Hm. injection Hm as <-.
        right. split; [left|exact Hx].
      + rewrite lookup_insert_ne in Hm by exact Hx. auto.
    - right. split; [right; exact Hin|exact Hid]. }
  intros Hl. destruct (H ∅ Hl) as [Hm|Hr]; [|exact Hr].
  rewrite lookup_empty in Hm. discriminate.
Qed.

Lemma map_set_keys (k : option Z) (v : list Tab) (m : TabsByGroup) :
  (map_set k v m).*1 = if bool_decide (k ∈ m.*1) then m.*1 else m.*1 ++ [k].
Proof.
  induction m as [|[k' v'] m IH]; [reflexivity|]. cbn [map_set fmap list_fmap fst].
  destruct (decide (k' = k)) as [Hk|Hk].
  - rewrite (bool_decide_eq_true_2 _ Hk). subst k'.
    rewrite bool_decide_eq_true_2 by left. reflexivity.
  - rewrite (bool_decide_eq_false_2 _ Hk). cbn [fmap list_fmap fst]. rewrite IH.
    rewrite (bool_decide_ext (k ∈ k' :: m.*1) (k ∈ m.*1)).
    + case_bool_decide; reflexivity.
    + rewrite elem_of_cons. split; [intros [->|?]; [contradiction|assumption]|auto].
Qed.

Lemma map_set_empty_values (k : option Z) (m : TabsByGroup) :
  Forall (λ e, e.2 = []) m → Forall (λ e, e.2 = []) (map_set k [] m).
Proof.
  induction 1 as [|[k' v'] m He Hm IH]; cbn.
  - repeat constructor.
  - case_bool_decide; constructor; [reflexivity|exact Hm|exact He|exact IH].
Qed.

Lemma groupEntries_spec (tabGroups : list TabGroup) (win : Window) :
  let m := groupEntries tabGroups win in
  NoDup m.*1 ∧ Forall (λ e, e.2 = []) m ∧ None ∈ m.*1 ∧
  ∀ g, Some g ∈ m.*1 ↔
       ∃ group, group ∈ tabGroups ∧ group_windowId group = win_id win ∧
                group_id group = g.
Proof.
  unfold groupEntries.
  assert (H : ∀ m0 : TabsByGroup,
    NoDup m0.*1 → Forall (λ e, e.2 = []) m0 →
    let m := foldl (λ m group,
                      if bool_decide (group_windowId group = win_id win)
                      then map_set (Some (group_id group)) [] m else m)
                   m0 tabGroups in
    NoDup m.*1 ∧ Forall (λ e, e.2 = []) m ∧
    ∀ k, k ∈ m.*1 ↔
         k ∈ m0.*1 ∨ ∃ group, group ∈ tabGroups ∧
                              group_windowId group = win_id win ∧
                              k = Some (group_id group)).
  { induction tabGroups as [|x l IH]; intros m0 Hnd Hval; cbn [foldl].
    - repeat split; try assumption; [auto|].
      intros [?|(group & Hin & _)]; [assumption|]. by apply elem_of_nil in Hin.
    - cbn zeta in IH. case_bool_decide as Hx.
      + destruct (IH (map_set (Some (group_id x)) [] m0)) as (Hnd' & Hval' & Hkeys).
        { rewrite map_set_keys. case_bool_decide as Hin; [exact Hnd|].
          apply NoDup_app. repeat split; [exact Hnd| |apply NoDup_singleton].
          intros k Hk ->%list_elem_of_singleton. contradiction. }
        { apply map_set_empty_values, Hval. }
        repeat split; [exact Hnd'|exact Hval'| |].
        * intros Hk. apply Hkeys in Hk as [Hk|(group & Hin & Hw & ->)].
          -- rewrite map_set_keys in Hk. case_bool_decide; [auto|].
             apply elem_of_app in Hk as [?| ->%list_elem_of_singleton]; [auto|].
             right. exists x. split; [left|auto].
          -- right. exists group. split; [right; exact Hin|auto].
        * intros Hk. apply Hkeys. rewrite map_set_keys.
          destruct Hk as [Hk|(group & Hin & Hw & ->)].
          -- left. case_bool_decide; [exact Hk|]. apply elem_of_app. auto.
          -- apply elem_of_cons in Hin as [->|Hin].
             ++ left. case_bool_decide; [assumption|].
                apply elem_of_app. right. left.
             ++ right. exists group. auto.
      + destruct (IH m0 Hnd Hval) as (Hnd' & Hval' & Hkeys).
        repeat split; [exact Hnd'|exact Hval'| |].
        * intros Hk. apply Hkeys in Hk as [Hk|(group & Hin & Hw & ->)]; [auto|].
          right. exists group. split; [right; exact Hin|auto].
        * intros Hk. apply Hkeys.
          destruct Hk as [Hk|(group & Hin & Hw & ->)]; [auto|].
          apply elem_of_cons in Hin as [->|Hin]; [contradiction|].
          right. exists group. auto. }
  cbn zeta. destruct (H [(None, [])]) as (Hnd & Hval & Hkeys).
  { cbn. apply NoDup_singleton. }
  { repeat constructor. }
  repeat split; [exact Hnd|exact Hval| | |].
  - apply Hkeys. left. left.
  - intros Hk. apply Hkeys in Hk as [Hk|(group & Hin & Hw & [= ->])].
    + cbn in Hk. apply list_elem_of_singleton in Hk. discriminate.
    + exists group. auto.
  - intros (group & Hin & Hw & <-). apply Hkeys. right. exists group. auto.
Qed.

Lemma pushedEntry_absent (k : option Z) (tab : Tab) (m : TabsByGroup) :
  k ∉ m.*1 → pushedEntry k tab <$> m = m.
Proof.
  induction m as [|[k' v'] m IH]; [reflexivity|]. cbn [fmap list_fmap fst].
  rewrite not_elem_of_cons. intros [Hk Hm]. fold (fmap fst m) in Hm.
  unfold pushedEntry at 1. cbn [fst snd].
  rewrite bool_decide_eq_false_2 by exact Hk. rewrite app_nil_r.
  f_equal. apply IH, Hm.
Qed.

Lemma map_push_entries (k : option Z) (tab : Tab) (m : TabsByGroup) :
  NoDup m.*1 →
  (if map_has k m then map_push k tab m else m) = pushedEntry k tab <$> m.
Proof.
  unfold map_has. case_bool_decide as Hin.
  2:{ intros _. symmetry. apply pushedEntry_absent, Hin. }
  induction m as [|[k' v'] m IH]; [reflexivity|].
  cbn [fmap list_fmap fst map_push]. intros Hnd.
  apply NoDup_cons in Hnd as [Hk' Hnd]. fold (fmap fst m) in Hk', Hnd.
  unfold pushedEntry at 1. cbn [fst snd].
  destruct (decide (k' = k)) as [->|Hne].
  - rewrite !bool_decide_eq_true_2 by reflexivity.
    f_equal. symmetry. apply pushedEntry_absent, Hk'.
  - rewrite (bool_decide_eq_false_2 (k' = k)) by exact Hne.
    rewrite (bool_decide_eq_false_2 (k = k')) by congruence.
    rewrite app_nil_r. f_equal. apply IH; [|exact Hnd].
    cbn in Hin. apply elem_of_cons in Hin as [?|?]; [congruence|assumption].
Qed.

(** The map after both filling loops: every entry of the first loop, with
    the window's tabs of that key in host order. *)
Lemma tabsByGroup_entries (tabGroups : list TabGroup) (win : Window) :
  tabsByGroup tabGroups win
  = (λ e, (e.1, filter (λ t, groupKey t = e.1) (win_tabs win)))
    <$> groupEntries tabGroups win.
Proof.
  unfold tabsByGroup. fold (groupEntries tabGroups win).
  destruct (groupEntries_spec tabGroups win) as (Hnd & Hval & _).
  revert Hnd Hval. generalize (groupEntries tabGroups win). intros m Hnd Hval.
  assert (H : ∀ tabs (m : TabsByGroup), NoDup m.*1 →
    foldl (λ m tab, let groupId := groupKey tab in
                    if map_has groupId m then map_push groupId tab m else m) m tabs
    = (λ e, (e.1, e.2 ++ filter (λ t, groupKey t = e.1) tabs)) <$> m).
  { clear. induction tabs as [|tab rest IH]; intros m Hnd; cbn [foldl].
    - symmetry. rewrite <- (list_fmap_id m) at 2. apply list_fmap_ext.
      intros i [k v] _. cbn. rewrite app_nil_r. reflexivity.
    - cbn zeta. rewrite map_push_entries by exact Hnd.
      rewrite IH.
      + rewrite <- list_fmap_compose. apply list_fmap_ext.
        intros i [k v] _. cbn. rewrite <- app_assoc. f_equal.
        case_bool_decide; case_decide; try congruence; reflexivity.
      + rewrite <- list_fmap_compose.
        erewrite (list_fmap_ext (fst ∘ pushedEntry (groupKey tab) tab) fst);
          [exact Hnd|]. intros i [k v] _. reflexivity. }
  rewrite (H _ _ Hnd). apply Forall_fmap_ext_1.
  eapply Forall_impl; [exact Hval|]. intros [k v]. cbn. intros ->. reflexivity.
Qed.

Lemma map_get_entries (G : option Z → list Tab) (k : option Z) (m : TabsByGroup) :
  k ∈ m.*1 → map_get k ((λ e, (e.1, G e.1)) <$> m) = Some (G k).
Proof.
  induction m as [|[k' v'] m IH]; cbn [fmap list_fmap fst map_get].
  - intros H. by apply elem_of_nil in H.
  - intros H. destruct (decide (k' = k)) as [->|Hne].
    + rewrite bool_decide_eq_true_2 by reflexivity. reflexivity.
    + rewrite bool_decide_eq_false_2 by exact Hne. apply IH.
      apply elem_of_cons in H as [?|?]; [congruence|assumption].
Qed.

(** The earlier loop shows, for the keys of its map in insertion order,
    the blocks of the groups that have tabs, and then the ungrouped tabs in
    host order. *)
Lemma oldWindowBlocks_eq (tabGroups : list TabGroup) (win : Window) :
  oldWindowBlocks tabGroups win
  = flat_map (oldGroupBlock (mkGroupMap tabGroups) win)
             (groupEntries tabGroups win).*1
    ++ (TabBlock <$> filter (λ t, groupKey t = None) (win_tabs win)).
Proof.
  unfold oldWindowBlocks. cbn zeta. rewrite tabsByGroup_entries.
  destruct (groupEntries_spec tabGroups win) as (_ & _ & Hnone & _).
  pose proof (map_get_entries
                (λ k, filter (λ t, groupKey t = k) (win_tabs win))
                None (groupEntries tabGroups win) Hnone) as Hget.
  cbn beta in Hget. rewrite Hget. cbn [default].
  f_equal; [|f_equal; apply list_filter_iff; tauto].
  unfold oldGroupBlocks. generalize (groupEntries tabGroups win). intros m.
  induction m as [|[k v] m IH]; [reflexivity|].
  cbn [fmap list_fmap flat_map fst]. rewrite <- IH. f_equal.
  destruct k; reflexivity.
Qed.

Lemma tabsOfGroup_groupKey (g : Z) (tabs : list Tab) :
  g > -1 → filter (λ t, groupKey t = Some g) tabs = tabsOfGroup g tabs.
Proof.
  intros Hg. unfold tabsOfGroup. apply list_filter_iff. intros t.
  rewrite groupKey_Some. tauto.
Qed.

(** The group blocks of the current loop. *)
Lemma renderTabs_group_block (groupMap : gmap Z TabGroup) (win : Window)
    (tabs : list Tab) (renderedGroups : gset Z)
    (g : Z) (info : TabGroup) (ts : list Tab) :
  GroupBlock g info ts ∈ renderTabs groupMap win tabs renderedGroups ↔
  ((g ∉ renderedGroups) ∧ (∃ t, t ∈ tabs ∧ groupKey t = Some g) ∧
   groupMap !! g = Some info ∧ group_windowId info = win_id win ∧
   ts = tabsOfGroup g (win_tabs win)).
Proof.
  revert renderedGroups.
  induction tabs as [|tab rest IH]; intros rg; cbn [renderTabs].
  - split; [intros H; apply elem_of_nil in H; destruct H|].
    intros (_ & (t & Ht & _) & _). apply elem_of_nil in Ht. destruct Ht.
  - destruct (groupKey tab) as [g0|] eqn:Hk.
    + case_bool_decide as Hin.
      * rewrite IH. split.
        -- intros (Hg & (t & Ht & Hkt) & Hrest). split; [exact Hg|].
           split; [|exact Hrest]. exists t. split; [right; exact Ht|exact Hkt].
        -- intros (Hg & (t & Ht & Hkt) & Hrest). split; [exact Hg|].
           split; [|exact Hrest]. exists t. split; [|exact Hkt].
           apply elem_of_cons in Ht as [->|Ht]; [|exact Ht]. congruence.
      * rewrite elem_of_cons, IH. split.
        -- intros [Hfirst|(Hg & (t & Ht & Hkt) & Hrest)].
           ++ unfold firstBlock in Hfirst.
              destruct (groupMap !! g0) as [info0|] eqn:Hinfo; [|discriminate].
              case_bool_decide as Hw; [|discriminate].
              injection Hfirst as -> -> ->.
              split; [exact Hin|]. split; [exists tab; split; [left|exact Hk]|].
              auto.
           ++ split; [intros ?; apply Hg, elem_of_union; right; assumption|].
              split; [|exact Hrest].
              exists t. split; [right; exact Ht|exact Hkt].
        -- intros (Hg & (t & Ht & Hkt) & Hinfo & Hw & ->).
           destruct (decide (g = g0)) as [->|Hne].
           ++ left. unfold firstBlock. rewrite Hinfo.
              rewrite bool_decide_eq_true_2 by exact Hw. reflexivity.
           ++ right.
              split; [rewrite elem_of_union, elem_of_singleton; tauto|].
              split; [|auto].
              exists t. split; [|exact Hkt].
              apply elem_of_cons in Ht as [->|Ht]; [congruence|exact Ht].
    + rewrite elem_of_cons, IH. split.
      * intros [?|(Hg & (t & Ht & Hkt) & Hrest)]; [discriminate|].
        split; [exact Hg|]. split; [|exact Hrest].
        exists t. split; [right; exact Ht|exact Hkt].
      * intros (Hg & (t & Ht & Hkt) & Hrest). right. split; [exact Hg|].
        split; [|exact Hrest]. exists t. split; [|exact Hkt].
        apply elem_of_cons in Ht as [->|Ht]; [congruence|exact Ht].
Qed.

Lemma renderTabs_group_blocks_NoDup (groupMap : gmap Z TabGroup) (win : Window)
    (tabs : list Tab) (renderedGroups : gset Z) :
  NoDup (filter isGroupBlock (renderTabs groupMap win tabs renderedGroups)).
Proof.
  revert renderedGroups.
  induction tabs as [|tab rest IH]; intros rg; cbn [renderTabs]; [constructor|].
  destruct (groupKey tab) as [g0|] eqn:Hk.
  - case_bool_decide as Hin; [apply IH|].
    unfold firstBlock. destruct (groupMap !! g0) as [info0|] eqn:Hinfo.
    + case_bool_decide as Hw.
      * rewrite filter_cons_True by exact I. apply NoDup_cons. split; [|apply IH].
        rewrite list_elem_of_filter, renderTabs_group_block.
        intros (_ & Hn & _). apply Hn, elem_of_union. left.
        apply elem_of_singleton. reflexivity.
      * rewrite filter_cons_False by (cbn; tauto). apply IH.
    + rewrite filter_cons_False by (cbn; tauto). apply IH.
  - rewrite filter_cons_False by (cbn; tauto). apply IH.
Qed.

(** When every group reference of the window's tabs is valid, the rows of
    ungrouped tabs that the current loop shows are the ungrouped tabs, in
    host order. *)
Lemma renderTabs_tab_rows (groupMap : gmap Z TabGroup) (win : Window)
    (tabs : list Tab) (renderedGroups : gset Z) :
  (∀ t g, t ∈ tabs → groupKey t = Some g →
          ∃ info, groupMap !! g = Some info ∧ group_windowId info = win_id win) →
  filter (λ b, ¬ isGroupBlock b) (renderTabs groupMap win tabs renderedGroups)
  = TabBlock <$> filter (λ t, groupKey t = None) tabs.
Proof.
  revert renderedGroups.
  induction tabs as [|tab rest IH]; intros rg Hvalid; cbn [renderTabs]; [reflexivity|].
  assert (Hrest : ∀ t g, t ∈ rest → groupKey t = Some g →
            ∃ info, groupMap !! g = Some info ∧ group_windowId info = win_id win)
    by (intros t g Ht; apply Hvalid; right; exact Ht).
  destruct (groupKey tab) as [g0|] eqn:Hk.
  - rewrite (filter_cons_False (λ t, groupKey t = None)) by congruence.
    case_bool_decide as Hin; [apply IH, Hrest|].
    destruct (Hvalid tab g0 ltac:(left) Hk) as (info & Hinfo & Hw).
    unfold firstBlock. rewrite Hinfo, bool_decide_eq_true_2 by exact Hw.
    rewrite filter_cons_False by (cbn; tauto). apply IH, Hrest.
  - rewrite filter_cons_True by (cbn; tauto).
    rewrite (filter_cons_True (λ t, groupKey t = None)) by exact Hk.
    cbn. f_equal. apply IH, Hrest.
Qed.

Lemma oldGroupBlock_inv (groupMap : gmap Z TabGroup) (win : Window)
    (k : option Z) (b : Block) :
  b ∈ oldGroupBlock groupMap win k ↔
  ∃ g info,
    k = Some g ∧
    b = GroupBlock g info (filter (λ t, groupKey t = Some g) (win_tabs win)) ∧
    filter (λ t, groupKey t = Some g) (win_tabs win) ≠ [] ∧
    groupMap !! g = Some info ∧ group_windowId info = win_id win.
Proof.
  unfold oldGroupBlock. split.
  - destruct k as [g|]; [|intros H; apply elem_of_nil in H; destruct H].
    cbn zeta. case_bool_decide as Hne; [intros H; apply elem_of_nil in H; destruct H|].
    destruct (groupMap !! g) as [info|] eqn:Hinfo;
      [|intros H; apply elem_of_nil in H; destruct H].
    case_bool_decide as Hw; [|intros H; apply elem_of_nil in H; destruct H].
    intros ->%list_elem_of_singleton. exists g, info. repeat split; assumption.
  - intros (g & info & -> & -> & Hne & -> & Hw). cbn zeta.
    rewrite bool_decide_eq_false_2 by exact Hne.
    rewrite bool_decide_eq_true_2 by exact Hw. left.
Qed.

Lemma oldGroupBlocks_NoDup (groupMap : gmap Z TabGroup) (win : Window)
    (keys : list (option Z)) :
  NoDup keys → NoDup (flat_map (oldGroupBlock groupMap win) keys).
Proof.
  induction 1 as [|k keys Hk Hnd IH]; cbn [flat_map]; [constructor|].
  apply NoDup_app. split; [|split; [|exact IH]].
  - unfold oldGroupBlock. destruct k as [g|]; [|constructor]. cbn zeta.
    case_bool_decide; [constructor|].
    destruct (groupMap !! g); [|constructor].
    case_bool_decide; [apply NoDup_singleton|constructor].
  - intros b Hb Hb'.
    apply oldGroupBlock_inv in Hb as (g & info & -> & -> & _).
    apply list_elem_of_In, in_flat_map in Hb' as (k' & Hk' & Hb').
    apply list_elem_of_In in Hk', Hb'.
    apply oldGroupBlock_inv in Hb' as (g' & info' & -> & [= <- _] & _).
    contradiction.
Qed.

(** Both loops show the same group blocks: a block for every group of the
    window that one of the window's tabs carries, with all that group's
    tabs. *)
Lemma same_group_blocks (tabGroups : list TabGroup) (win : Window) :
  flat_map (oldGroupBlock (mkGroupMap tabGroups) win) (groupEntries tabGroups win).*1
  ≡ₚ filter isGroupBlock (windowBlocks (mkGroupMap tabGroups) win).
Proof.
  destruct (groupEntries_spec tabGroups win) as (Hnd & _ & _ & Hkeys).
  apply NoDup_Permutation.
  - apply oldGroupBlocks_NoDup, Hnd.
  - apply renderTabs_group_blocks_NoDup.
  - intros b. rewrite list_elem_of_filter. unfold windowBlocks. split.
    + intros Hb. apply list_elem_of_In, in_flat_map in Hb as (k & Hk & Hb).
      apply list_elem_of_In in Hk, Hb.
      apply oldGroupBlock_inv in Hb as (g & info & -> & -> & Hne & Hinfo & Hw).
      split; [exact I|]. apply renderTabs_group_block.
      destruct (filter (λ t, groupKey t = Some g) (win_tabs win)) as [|t ts] eqn:Hts;
        [contradiction|].
      assert (Ht : t ∈ filter (λ t, groupKey t = Some g) (win_tabs win))
        by (rewrite Hts; left).
      apply list_elem_of_filter in Ht as [Hkt Ht].
      pose proof Hkt as [_ Hg]%groupKey_Some.
      split; [apply not_elem_of_empty|]. split; [exists t; auto|].
      split; [exact Hinfo|]. split; [exact Hw|].
      rewrite <- Hts. apply tabsOfGroup_groupKey, Hg.
    + intros [Hgroup Hb]. destruct b as [|g info ts]; [destruct Hgroup|].
      apply renderTabs_group_block in Hb as (_ & (t & Ht & Hkt) & Hinfo & Hw & ->).
      pose proof Hkt as [_ Hg]%groupKey_Some.
      apply list_elem_of_In, in_flat_map. exists (Some g).
      split; apply list_elem_of_In.
      * apply Hkeys. exists info.
        destruct (mkGroupMap_lookup _ _ _ Hinfo) as [Hin Hid]. auto.
      * apply oldGroupBlock_inv. exists g, info.
        rewrite (tabsOfGroup_groupKey g _ Hg). repeat split; try assumption.
        intros Hnil. assert (Hin : t ∈ tabsOfGroup g (win_tabs win)).
        { unfold tabsOfGroup. apply list_elem_of_filter. split; [|exact Ht].
          apply groupKey_Some in Hkt. tauto. }
        rewrite Hnil in Hin. by apply elem_of_nil in Hin.
Qed.

Lemma filter_group_tab_rows (tabs : list Tab) :
  filter (λ b, ¬ isGroupBlock b) (TabBlock <$> tabs) = TabBlock <$> tabs ∧
  filter isGroupBlock (TabBlock <$> tabs) = [].
Proof.
  induction tabs as [|t tabs [IH1 IH2]]; [split; reflexivity|]. cbn [fmap list_fmap].
  rewrite filter_cons_True by (cbn; tauto).
  rewrite filter_cons_False by (cbn; tauto).
  split; [f_equal; exact IH1|exact IH2].
Qed.

Lemma filter_group_blocks (groupMap : gmap Z TabGroup) (win : Window)
    (keys : list (option Z)) :
  filter (λ b, ¬ isGroupBlock b) (flat_map (oldGroupBlock groupMap win) keys) = [] ∧
  filter isGroupBlock (flat_map (oldGroupBlock groupMap win) keys)
  = flat_map (oldGroupBlock groupMap win) keys.
Proof.
  assert (H : Forall isGroupBlock (flat_map (oldGroupBlock groupMap win) keys)).
  { apply Forall_forall. intros b Hb.
    apply list_elem_of_In, in_flat_map in Hb as (k & _ & Hb).
    apply list_elem_of_In in Hb.
    apply oldGroupBlock_inv in Hb as (g & info & _ & -> & _). exact I. }
  induction H as [|b l Hb _ [IH1 IH2]]; [split; reflexivity|].
  rewrite filter_cons_False by tauto. rewrite filter_cons_True by exact Hb.
  split; [exact IH1|f_equal; exact IH2].
Qed.

(** C10, as stated, fails: for the window of three tabs whose second tab is
    in the group "Work", the current loop shows tab 1, the group, tab 3,
    and the earlier loop shows the group, tab 1, tab 3. *)
Lemma renderers_differ_in_order :
  windowBlocks (mkGroupMap [exampleGroup]) scenarioWindow
  = [ TabBlock (exampleTab 1 (-1));
      GroupBlock 5 exampleGroup [exampleTab 2 5];
      TabBlock (exampleTab 3 (-1)) ] ∧
  oldWindowBlocks [exampleGroup] scenarioWindow
  = [ GroupBlock 5 exampleGroup [exampleTab 2 5];
      TabBlock (exampleTab 1 (-1));
      TabBlock (exampleTab 3 (-1)) ] ∧
  oldWindowBlocks [exampleGroup] scenarioWindow
  ≠ windowBlocks (mkGroupMap [exampleGroup]) scenarioWindow.
Proof. split; [reflexivity|]. split; [reflexivity|]. vm_compute. discriminate. Qed.

(** C10 (amended). For a window all of whose grouped tabs carry the id of an
    existing group of that window, the two loops show the same blocks, but
    not in the same order: what the earlier loop shows is a permutation of
    what the current loop shows, and the rows of ungrouped tabs come in the
    same relative order in both. *)
Theorem renderers_agree_up_to_order (tabGroups : list TabGroup) (win : Window) :
  (∀ t g, t ∈ win_tabs win → groupKey t = Some g →
          ∃ info, mkGroupMap tabGroups !! g = Some info ∧
                  group_windowId info = win_id win) →
  oldWindowBlocks tabGroups win ≡ₚ windowBlocks (mkGroupMap tabGroups) win ∧
  filter (λ b, ¬ isGroupBlock b) (oldWindowBlocks tabGroups win)
  = filter (λ b, ¬ isGroupBlock b) (windowBlocks (mkGroupMap tabGroups) win).
Proof.
  intros Hvalid.
  pose proof (renderTabs_tab_rows (mkGroupMap tabGroups) win (win_tabs win) ∅ Hvalid)
    as Hrows. fold (windowBlocks (mkGroupMap tabGroups) win) in Hrows.
  rewrite oldWindowBlocks_eq. split.
  - rewrite <- (filter_app_complement isGroupBlock
                 (windowBlocks (mkGroupMap tabGroups) win)).
    rewrite Hrows, same_group_blocks. reflexivity.
  - rewrite filter_app, Hrows.
    rewrite (proj1 (filter_group_blocks _ _ _)), (proj1 (filter_group_tab_rows _)).
    reflexivity.
Qed.

Lemma renderers_agree_up_to_order_witness :
  oldWindowBlocks [exampleGroup] scenarioWindow
  ≡ₚ windowBlocks (mkGroupMap [exampleGroup]) scenarioWindow ∧
  filter (λ b, ¬ isGroupBlock b) (oldWindowBlocks [exampleGroup] scenarioWindow)
  = filter (λ b, ¬ isGroupBlock b)
      (windowBlocks (mkGroupMap [exampleGroup]) scenarioWindow).
Proof.
  apply (renderers_agree_up_to_order [exampleGroup] scenarioWindow).
  intros t g Ht Hk. exists exampleGroup.
  cbn in Ht. repeat (apply elem_of_cons in Ht as [->|Ht]);
    [discriminate Hk| |discriminate Hk|by apply elem_of_nil in Ht].
  injection Hk as <-. split; reflexivity.
Defined.

(** * Further properties *)

(** ** The state store *)


Lemma renderList_storage {parser : HtmlParser}
    (localeCompare : string → string → Z) (restore : bool)
    (windows : list Window) (tabGroups : list TabGroup) (cur : option Window)
    (w : World) :
  storage (renderList localeCompare restore windows tabGroups cur w) = storage w.
Proof. unfold renderList. destruct restore; reflexivity. Qed.



Lemma answersCurrent_kept (p p' : Panel) :
  storage (world p') = storage (world p) → renders p' = renders p →
  answersCurrent p → answersCurrent p'.
Proof. unfold answersCurrent. intros -> ->. auto. Qed.

Lemma inSync_kept (w w' : World) :
  windowTitles w' = windowTitles w → collapsedState w' = collapsedState w →
  storage w' = storage w → inSync w → inSync w'.
Proof. unfold inSync. intros -> -> ->. auto. Qed.





(** X2. When memory holds what the storage holds, saving the title of one
    window leaves the persisted title of every other window as it was, and
    toggling one region leaves the persisted flag of every other key as it
    was. *)
Theorem saving_keeps_other_entries (w : World) :
  inSync w →
  (∀ windowId text other, other ≠ windowId →
     storedTitle (onTitleBlur windowId text w) other = storedTitle w other) ∧
  (∀ key flag other, other ≠ key →
     storedFlag (saveCollapsedState key flag w) other = storedFlag w other) ∧
  (∀ arrowPath key other, other ≠ key →
     storedFlag (onArrowClick arrowPath key w) other = storedFlag w other).
Proof.
  intros [Ht Hc].
  assert (Hflag : ∀ key flag other, other ≠ key →
            storedFlag (saveCollapsedState key flag w) other = storedFlag w other).
  { intros key flag other Hne. unfold storedFlag, saveCollapsedState. cbn.
    rewrite lookup_insert_ne by congruence. rewrite Hc.
    destruct (storedCollapsedState (storage w)); [reflexivity|apply lookup_empty]. }
  split; [|split; [exact Hflag|]].
  - intros id text other Hne. unfold storedTitle, onTitleBlur, saveWindowTitle. cbn.
    rewrite lookup_insert_ne by congruence. rewrite Ht.
    destruct (customWindowTitles (storage w)); [reflexivity|apply lookup_empty].
  - intros arrowPath key other Hne. unfold onArrowClick.
    destruct (getElementById key (dom w)); [|reflexivity].
    apply (Hflag key _ other Hne).
Qed.

Lemma saving_keeps_other_entries_witness :
  let w := onTitleBlur 1 "Mail" emptyWorld in
  storedTitle (onTitleBlur 2 "News" w) 1 = Some "Mail".
Proof.
  intros w.
  destruct (saving_keeps_other_entries w) as [Htitles _]; [split; reflexivity|].
  rewrite (Htitles 2 "News" 1) by discriminate. reflexivity.
Defined.

(** X3. After a title span loses focus with the text [s], every panel
    that loads the titles from that storage displays for the window the
    trimmed text, or the default title "Window {id}" when the trimmed text
    is empty, as it is for a text of white space only (a lone no-break
    space included); the windows of other ids display what the saving
    panel's map in memory gave them. *)
Theorem edited_title_display (w session : World) (windowId : Z) (s : string) :
  storage session = storage (onTitleBlur windowId s w) →
  let titles := windowTitles (loadWindowTitles session) in
  storedTitle session windowId = Some (trim s) ∧
  displayTitle titles windowId
  = (if String.eqb (trim s) "" then "Window " +:+ pretty windowId else trim s) ∧
  (blank s → displayTitle titles windowId = "Window " +:+ pretty windowId) ∧
  (∀ other, other ≠ windowId →
     displayTitle titles other = displayTitle (windowTitles w) other).
Proof.
  intros Hstorage. cbn zeta.
  assert (Htitles : windowTitles (loadWindowTitles session)
                    = <[windowId := trim s]> (windowTitles w)).
  { unfold loadWindowTitles. cbn [windowTitles]. rewrite Hstorage. reflexivity. }
  assert (Hshown : displayTitle (windowTitles (loadWindowTitles session)) windowId
                   = if String.eqb (trim s) ""
                     then "Window " +:+ pretty windowId else trim s).
  { rewrite Htitles. unfold displayTitle. rewrite lookup_insert_eq. reflexivity. }
  split; [|split; [exact Hshown|split]].
  - unfold storedTitle. rewrite Hstorage. cbn. apply lookup_insert_eq.
  - intros Hblank. rewrite Hshown, (trim_blank s Hblank). reflexivity.
  - intros other Hother. rewrite Htitles. unfold displayTitle.
    rewrite lookup_insert_ne by congruence. reflexivity.
Qed.

Lemma edited_title_display_witness :
  displayTitle
    (windowTitles (loadWindowTitles
                     (freshSession (storage (onTitleBlur 1 nbsp emptyWorld))))) 1
  = "Window 1".
Proof.
  destruct (edited_title_display emptyWorld
              (freshSession (storage (onTitleBlur 1 nbsp emptyWorld))) 1 nbsp)
    as (_ & _ & Hblank & _); [reflexivity|].
  apply Hblank. exists [ascii_of_nat <$> [194; 160]%nat].
  split; [|reflexivity]. repeat constructor.
Defined.

(** ** Which tabs a window shows *)

Lemma elem_of_flat_map_blockTabs (t : Tab) (bs : list Block) :
  t ∈ flat_map blockTabs bs ↔ ∃ b, b ∈ bs ∧ t ∈ blockTabs b.
Proof.
  rewrite list_elem_of_In, in_flat_map. split.
  - intros (b & Hb & Ht). exists b. split; apply list_elem_of_In; assumption.
  - intros (b & Hb & Ht). exists b. split; apply list_elem_of_In; assumption.
Qed.

Lemma groupEntries_has_valid_group (tabGroups : list TabGroup) (win : Window)
    (g : Z) (info : TabGroup) :
  mkGroupMap tabGroups !! g = Some info → group_windowId info = win_id win →
  Some g ∈ (groupEntries tabGroups win).*1.
Proof.
  intros Hinfo Hw. destruct (groupEntries_spec tabGroups win) as (_ & _ & _ & Hkeys).
  apply Hkeys. exists info.
  destruct (mkGroupMap_lookup _ _ _ Hinfo) as [Hin Hid]. auto.
Qed.

Lemma renderTabs_tab_block (groupMap : gmap Z TabGroup) (win : Window)
    (tabs : list Tab) (renderedGroups : gset Z) (t : Tab) :
  TabBlock t ∈ renderTabs groupMap win tabs renderedGroups → t ∈ tabs.
Proof.
  revert renderedGroups.
  induction tabs as [|tab rest IH]; intros rg; cbn [renderTabs].
  - intros H. by apply elem_of_nil in H.
  - destruct (groupKey tab) as [g|].
    + case_bool_decide as Hin; [intros Hb; right; exact (IH _ Hb)|].
      rewrite elem_of_cons. intros [Hfirst|Hb]; [|right; exact (IH _ Hb)].
      unfold firstBlock in Hfirst. destruct (groupMap !! g) as [info|].
      * case_bool_decide as Hw; [discriminate|]. injection Hfirst as ->. left.
      * injection Hfirst as ->. left.
    + rewrite elem_of_cons. intros [[= ->]|H]; [left|right; exact (IH _ H)].
Qed.

(** X4. Both loops only ever show tabs of the window, and neither drops a
    tab that is in no group or in an existing group of the window: such a
    tab has a row, whatever the other tabs of the window refer to. *)
Theorem valid_tab_is_shown (tabGroups : list TabGroup) (win : Window) (t : Tab) :
  let groupMap := mkGroupMap tabGroups in
  (t ∈ flat_map blockTabs (windowBlocks groupMap win) → t ∈ win_tabs win) ∧
  (t ∈ flat_map blockTabs (oldWindowBlocks tabGroups win) → t ∈ win_tabs win) ∧
  (t ∈ win_tabs win → validGroupRef groupMap win t →
   t ∈ flat_map blockTabs (windowBlocks groupMap win) ∧
   t ∈ flat_map blockTabs (oldWindowBlocks tabGroups win)).
Proof.
  cbn zeta. split; [|split].
  - rewrite elem_of_flat_map_blockTabs. intros (b & Hb & Ht).
    destruct b as [t'|g info ts]; cbn in Ht.
    + apply list_elem_of_singleton in Ht as ->.
      exact (renderTabs_tab_block _ _ _ _ _ Hb).
    + apply renderTabs_group_block in Hb as (_ & _ & _ & _ & ->).
      apply list_elem_of_filter in Ht. tauto.
  - rewrite oldWindowBlocks_eq, flat_map_app, elem_of_app. intros [Ht|Ht].
    + apply elem_of_flat_map_blockTabs in Ht as (b & Hb & Ht).
      apply list_elem_of_In, in_flat_map in Hb as (k & _ & Hb).
      apply list_elem_of_In, oldGroupBlock_inv in Hb as (g & info & _ & -> & _).
      cbn in Ht. apply list_elem_of_filter in Ht. tauto.
    + apply elem_of_flat_map_blockTabs in Ht as (b & Hb & Ht).
      apply list_elem_of_fmap in Hb as (t' & -> & Hb). cbn in Ht.
      apply list_elem_of_singleton in Ht as ->.
      apply list_elem_of_filter in Hb. tauto.
  - intros Hin Hvalid. destruct (groupKey t) as [g|] eqn:Hk.
    + destruct (Hvalid g Hk) as (info & Hinfo & Hw).
      pose proof Hk as [Hgt Hg]%groupKey_Some. split.
      * apply elem_of_flat_map_blockTabs.
        exists (GroupBlock g info (tabsOfGroup g (win_tabs win))). split.
        -- apply renderTabs_group_block.
           split; [apply not_elem_of_empty|]. split; [exists t; auto|auto].
        -- cbn. apply list_elem_of_filter. auto.
      * rewrite oldWindowBlocks_eq, flat_map_app, elem_of_app. left.
        apply elem_of_flat_map_blockTabs.
        exists (GroupBlock g info
                  (filter (λ t, groupKey t = Some g) (win_tabs win))). split.
        -- apply list_elem_of_In, in_flat_map. exists (Some g).
           split; apply list_elem_of_In.
           ++ eapply groupEntries_has_valid_group; eassumption.
           ++ apply oldGroupBlock_inv. exists g, info. repeat split; try assumption.
              intros Hnil.
              assert (Ht : t ∈ filter (λ t, groupKey t = Some g) (win_tabs win))
                by (apply list_elem_of_filter; auto).
              rewrite Hnil in Ht. by apply elem_of_nil in Ht.
        -- cbn. apply list_elem_of_filter. auto.
    + split.
      * apply elem_of_flat_map_blockTabs. exists (TabBlock t).
        split; [apply ungrouped_tab_is_row; assumption|left].
      * rewrite oldWindowBlocks_eq, flat_map_app, elem_of_app. right.
        apply elem_of_flat_map_blockTabs. exists (TabBlock t). split; [|left].
        apply list_elem_of_fmap. exists t. split; [reflexivity|].
        apply list_elem_of_filter. auto.
Qed.

Lemma valid_tab_is_shown_witness :
  exampleTab 2 5 ∈ flat_map blockTabs
                     (windowBlocks (mkGroupMap [exampleGroup]) scenarioWindow) ∧
  exampleTab 2 5 ∈ flat_map blockTabs (oldWindowBlocks [exampleGroup] scenarioWindow).
Proof.
  destruct (valid_tab_is_shown [exampleGroup] scenarioWindow (exampleTab 2 5))
    as (_ & _ & Hshown).
  apply Hshown.
  - right. left.
  - intros g [= <-]. exists exampleGroup. split; reflexivity.
Defined.

(** The tabs of a list, gathered key by key, are the tabs of the list. *)
Lemma gathered_by_key (keys : list (option Z)) (tabs : list Tab) :
  NoDup keys → (∀ t, t ∈ tabs → groupKey t ∈ keys) →
  flat_map (λ k, filter (λ t, groupKey t = k) tabs) keys ≡ₚ tabs.
Proof.
  intros Hnd. revert tabs.
  induction Hnd as [|k keys Hk Hnd IH]; intros tabs Hkeys; cbn [flat_map].
  - destruct tabs as [|t tabs]; [reflexivity|].
    specialize (Hkeys t ltac:(left)). by apply elem_of_nil in Hkeys.
  - etrans; [|apply (filter_app_complement (λ t, groupKey t = k) tabs)].
    apply Permutation_app_head.
    rewrite <- (IH (filter (λ t, ¬ groupKey t = k) tabs)).
    + assert (Hext : ∀ ks, k ∉ ks →
                flat_map (λ k', filter (λ t, groupKey t = k') tabs) ks
                = flat_map (λ k', filter (λ t, groupKey t = k')
                                    (filter (λ t, ¬ groupKey t = k) tabs)) ks).
      { clear. induction ks as [|k' ks IHks]; [reflexivity|].
        rewrite not_elem_of_cons. intros [Hne Hks]. cbn [flat_map].
        rewrite <- (IHks Hks). f_equal.
        rewrite list_filter_filter. apply list_filter_iff. intros t.
        split; [intros Ht; split; [exact Ht|congruence]|tauto]. }
      rewrite (Hext keys Hk). reflexivity.
    + intros t [Hne Ht]%list_elem_of_filter.
      specialize (Hkeys t Ht). apply elem_of_cons in Hkeys as [?|?]; [contradiction|assumption].
Qed.

(** What the earlier loop shows for one key when all group references of
    the window are valid. *)
Lemma oldGroupBlock_tabs (groupMap : gmap Z TabGroup) (win : Window) (k : option Z) :
  (∀ t, t ∈ win_tabs win → validGroupRef groupMap win t) →
  flat_map blockTabs (oldGroupBlock groupMap win k)
  = match k with
    | None => []
    | Some g => filter (λ t, groupKey t = Some g) (win_tabs win)
    end.
Proof.
  intros Hvalid. destruct k as [g|]; [|reflexivity]. unfold oldGroupBlock. cbn zeta.
  case_bool_decide as Hnil; [rewrite Hnil; reflexivity|].
  destruct (filter (λ t, groupKey t = Some g) (win_tabs win)) as [|t ts] eqn:Hts;
    [contradiction|].
  assert (Ht : t ∈ filter (λ t, groupKey t = Some g) (win_tabs win))
    by (rewrite Hts; left).
  apply list_elem_of_filter in Ht as [Hk Ht].
  destruct (Hvalid t Ht g Hk) as (info & -> & Hw).
  rewrite bool_decide_eq_true_2 by exact Hw. cbn. rewrite app_nil_r. reflexivity.
Qed.

Lemma flat_map_flat_map {A B C} (f : B → list C) (g : A → list B) (l : list A) :
  flat_map f (flat_map g l) = flat_map (λ a, flat_map f (g a)) l.
Proof.
  induction l as [|a l IH]; [reflexivity|]. cbn. rewrite flat_map_app, IH. reflexivity.
Qed.

Lemma flat_map_skipping_none (F : option Z → list Tab) (keys : list (option Z)) :
  NoDup keys →
  flat_map (λ k, match k with None => [] | Some g => F (Some g) end) keys
  ++ (if bool_decide (None ∈ keys) then F None else [])
  ≡ₚ flat_map F keys.
Proof.
  induction 1 as [|k keys Hk Hnd IH]; [reflexivity|]. cbn [flat_map].
  destruct k as [g|].
  - rewrite <- app_assoc. apply Permutation_app_head.
    rewrite (bool_decide_ext (None ∈ Some g :: keys) (None ∈ keys)); [exact IH|].
    rewrite elem_of_cons. split; [intros [?|?]; [discriminate|assumption]|auto].
  - rewrite bool_decide_eq_true_2 by left.
    rewrite (bool_decide_eq_false_2 _ Hk), app_nil_r in IH.
    cbn [app]. rewrite IH. apply Permutation_app_comm.
Qed.

(** X5. For a window all of whose grouped tabs carry the id of an existing
    group of that window, each of the two loops shows every tab of the
    window exactly once: the tabs of its blocks, read top to bottom, are a
    rearrangement of the window's tabs. *)
Theorem every_tab_shown_once (tabGroups : list TabGroup) (win : Window) :
  (∀ t, t ∈ win_tabs win → validGroupRef (mkGroupMap tabGroups) win t) →
  flat_map blockTabs (windowBlocks (mkGroupMap tabGroups) win) ≡ₚ win_tabs win ∧
  flat_map blockTabs (oldWindowBlocks tabGroups win) ≡ₚ win_tabs win.
Proof.
  intros Hvalid.
  destruct (groupEntries_spec tabGroups win) as (Hnd & _ & Hnone & _).
  assert (Hold : flat_map blockTabs (oldWindowBlocks tabGroups win) ≡ₚ win_tabs win).
  { rewrite oldWindowBlocks_eq, flat_map_app, flat_map_flat_map.
    rewrite (flat_map_ext _ _ (λ k, oldGroupBlock_tabs _ win k Hvalid)).
    assert (Hrows : flat_map blockTabs
                      (TabBlock <$> filter (λ t, groupKey t = None) (win_tabs win))
                    = filter (λ t, groupKey t = None) (win_tabs win)).
    { generalize (filter (λ t, groupKey t = None) (win_tabs win)). intros l.
      induction l as [|t l IH]; [reflexivity|]. cbn. f_equal. exact IH. }
    rewrite Hrows.
    pose proof (flat_map_skipping_none
                  (λ k, filter (λ t, groupKey t = k) (win_tabs win)) _ Hnd) as Hskip.
    rewrite (bool_decide_eq_true_2 _ Hnone) in Hskip. cbn beta in Hskip.
    etrans; [|apply (gathered_by_key _ _ Hnd)].
    - rewrite <- Hskip. apply Permutation_app_head.
      erewrite list_filter_iff; [reflexivity|]. tauto.
    - intros t Ht. destruct (groupKey t) as [g|] eqn:Hk; [|exact Hnone].
      destruct (Hvalid t Ht g Hk) as (info & Hinfo & Hw).
      eapply groupEntries_has_valid_group; eassumption. }
  split; [|exact Hold].
  rewrite <- Hold.
  assert (Hvalid' : ∀ t g, t ∈ win_tabs win → groupKey t = Some g →
            ∃ info, mkGroupMap tabGroups !! g = Some info ∧
                    group_windowId info = win_id win)
    by (intros t g Ht; apply Hvalid, Ht).
  pose proof (renderTabs_tab_rows (mkGroupMap tabGroups) win (win_tabs win) ∅ Hvalid')
    as Hrows. fold (windowBlocks (mkGroupMap tabGroups) win) in Hrows.
  rewrite oldWindowBlocks_eq.
  rewrite <- (filter_app_complement isGroupBlock
               (windowBlocks (mkGroupMap tabGroups) win)) at 1.
  rewrite Hrows, same_group_blocks. reflexivity.
Qed.

Lemma every_tab_shown_once_witness :
  flat_map blockTabs (windowBlocks (mkGroupMap [exampleGroup]) scenarioWindow)
  ≡ₚ win_tabs scenarioWindow ∧
  flat_map blockTabs (oldWindowBlocks [exampleGroup] scenarioWindow)
  ≡ₚ win_tabs scenarioWindow.
Proof.
  apply (every_tab_shown_once [exampleGroup] scenarioWindow).
  intros t Ht g Hk. exists exampleGroup.
  cbn in Ht. repeat (apply elem_of_cons in Ht as [->|Ht]);
    [discriminate Hk| |discriminate Hk|by apply elem_of_nil in Ht].
  injection Hk as <-. split; reflexivity.
Defined.

(** ** What the rendered tree offers *)

Lemma interactive_app (l1 l2 : list Element) :
  interactive (l1 ++ l2) = interactive l1 ++ interactive l2.
Proof. apply omap_app. Qed.

Lemma interactive_flat_map {A} (g : A → node) (l : list A) :
  interactive (flat_map elements (map g l))
  = flat_map (λ a, interactive (elements (g a))) l.
Proof.
  induction l as [|a l IH]; [reflexivity|]. cbn [map flat_map].
  rewrite interactive_app, IH. reflexivity.
Qed.

Lemma interactive_tabItem (windowId : Z) (tab : Tab) :
  interactive (elements (tabItem windowId tab))
  = [(ActivateTab windowId (tab_id tab), "")].
Proof.
  unfold tabItem. cbn [appendChild insertBefore app].
  destruct (tab_pinned tab); cbn [appendChild insertBefore app].
  - rewrite insertBefore_title_found. reflexivity.
  - reflexivity.
Qed.

Lemma interactive_plain (e : Element) (l : list Element) :
  listener e = None → interactive (e :: l) = interactive l.
Proof. intros H. unfold interactive. cbn. rewrite H. reflexivity. Qed.

Lemma interactive_listener (e : Element) (l : list Element) (h : Listener) :
  listener e = Some h → interactive (e :: l) = (h, textContent e) :: interactive l.
Proof. intros H. unfold interactive. cbn. rewrite H. reflexivity. Qed.

Ltac interactive_head :=
  repeat first [ rewrite interactive_plain by reflexivity
               | erewrite interactive_listener by reflexivity ].

Lemma interactive_createTabList (tabs : list Tab) (windowId : Z) (className : string) :
  interactive (elements (createTabList tabs windowId className))
  = (λ t, (ActivateTab windowId (tab_id t), "")) <$> tabs.
Proof.
  unfold createTabList. cbn [elements]. rewrite interactive_plain by reflexivity.
  rewrite interactive_flat_map.
  induction tabs as [|t tabs IH]; [reflexivity|]. cbn [flat_map fmap list_fmap].
  rewrite interactive_tabItem, IH. reflexivity.
Qed.

(** What the parser makes of a markup offers nothing to act on. *)
Lemma interactive_parsed (l : list node) :
  interactive (flat_map elements (map (mapNode withoutListener) l)) = [].
Proof.
  pose proof (listener_parsed l) as H.
  induction H as [|e es He _ IH]; [reflexivity|].
  rewrite interactive_plain by exact He. exact IH.
Qed.

Lemma interactive_blockNode {parser : HtmlParser} (flags : gmap string bool)
    (win : Window) (b : Block) :
  interactive (elements (blockNode flags win b)) = blockControls win b.
Proof.
  destruct b as [tab|g info ts]; cbn [blockNode blockControls].
  - apply (interactive_createTabList [tab]).
  - unfold groupList, sectionContent.
    cbn [appendChild app elements flat_map createToggleArrow setInnerHTML elem].
    rewrite !app_nil_r.
    destruct (isCollapsed flags ("group-content-" +:+ pretty g));
      cbn [negb]; interactive_head;
      rewrite interactive_app, interactive_parsed; cbn [app];
      interactive_head; rewrite interactive_createTabList; reflexivity.
Qed.

Lemma interactive_windowItem {parser : HtmlParser}
    (titles : gmap Z string) (flags : gmap string bool)
    (groupMap : gmap Z TabGroup) (win : Window) :
  interactive (elements (windowItem titles flags groupMap win))
  = windowControls titles groupMap win.
Proof.
  unfold windowItem, windowControls, sectionContent. rewrite foldl_appendChild.
  cbn [appendChild app elements flat_map createToggleArrow]. rewrite !app_nil_r.
  destruct (isCollapsed flags ("window-content-" +:+ pretty (win_id win)));
    cbn [negb]; interactive_head; rewrite interactive_flat_map;
    rewrite (flat_map_ext _ _ (interactive_blockNode flags win)); reflexivity.
Qed.

Lemma updateActiveDom_rowData (cur : option Window) (d : node) :
  rowData <$> belowMount (updateActiveDom cur d) = rowData <$> belowMount d.
Proof.
  pose proof (f_equal elements (updateActiveDom_withoutMarks cur d)) as H.
  rewrite !elements_mapNode in H.
  apply (f_equal (fmap rowData)) in H. rewrite <- !list_fmap_compose in H.
  rewrite !elements_belowMount in H. cbn [fmap list_fmap] in H.
  apply (f_equal tail) in H. exact H.
Qed.

Lemma interactive_rowData (l l' : list Element) :
  rowData <$> l = rowData <$> l' → interactive l = interactive l'.
Proof.
  revert l'. induction l as [|e l IH]; intros [|e' l']; cbn; try discriminate;
    [reflexivity|].
  intros [= Htag Hid Hattrs Htext Hlistener Hrest].
  unfold interactive. cbn. rewrite Htext, Hlistener.
  fold (interactive l) (interactive l'). rewrite (IH l' Hrest). reflexivity.
Qed.


(** ** Which rows the activation updater marks *)

Lemma count_updateFirstL_found (p sel : Element → bool) (f : Element → Element)
    (l : list Element) :
  (∀ e, sel e = true → p (f e) = true) →
  Forall (λ e, p e = false) l →
  Exists (λ e, sel e = true) l →
  length (filter (λ e, p e = true) (updateFirstL sel f l)) = 1%nat.
Proof.
  intros Hf Hnone Hex. induction Hnone as [|e l He Hl IH]; [inversion Hex|].
  cbn [updateFirstL]. destruct (sel e) eqn:Hs.
  - rewrite filter_cons_True by (apply Hf, Hs). cbn. f_equal. apply count_none, Hl.
  - rewrite filter_cons_False by congruence. apply IH.
    apply Exists_cons in Hex as [?|?]; [congruence|assumption].
Qed.

Lemma Exists_sel_clearMarks (sel : Element → bool) (l : list Element) :
  (∀ e, sel (classOp clearMarks e) = sel e) →
  Exists (λ e, sel e = true) (classOp clearMarks <$> l)
  ↔ Exists (λ e, sel e = true) l.
Proof.
  intros Hsel. rewrite Exists_fmap.
  split; intros H; (eapply Exists_impl; [exact H|]); intros e; cbn;
    rewrite Hsel; auto.
Qed.

Lemma getAttr_classOp (k : string) (F : list string → list string) (e : Element) :
  getAttr k (classOp F e) = getAttr k e.
Proof. reflexivity. Qed.

Lemma selWindowItem_clearMarks (id : Z) (e : Element) :
  selWindowItem id (classOp clearMarks e) = selWindowItem id e.
Proof.
  unfold selWindowItem. rewrite hasClass_clearMarks by discriminate. reflexivity.
Qed.

Lemma selTabItem_clearMarks (id : Z) (e : Element) :
  selTabItem id (classOp clearMarks e) = selTabItem id e.
Proof.
  unfold selTabItem. rewrite hasClass_clearMarks by discriminate. reflexivity.
Qed.

Lemma selActiveWindow_marked (id : Z) (e : Element) :
  selWindowItem id e = true →
  selActiveWindow (classList_add "active-window" e) = true.
Proof.
  intros He. unfold selActiveWindow. rewrite !hasClass_add.
  apply selWindowItem_hasClass in He. unfold hasClass.
  rewrite (bool_decide_eq_true_2 _ He).
  rewrite (bool_decide_eq_true_2 ("active-window" = "active-window")) by reflexivity.
  rewrite orb_true_r. reflexivity.
Qed.

Lemma selActiveTab_marked (id : Z) (e : Element) :
  selTabItem id e = true →
  selActiveTab (classList_add "active-tab" e) = true.
Proof.
  intros He. unfold selActiveTab. rewrite !hasClass_add.
  apply selTabItem_hasClass in He. unfold hasClass.
  rewrite (bool_decide_eq_true_2 _ He).
  rewrite (bool_decide_eq_true_2 ("active-tab" = "active-tab")) by reflexivity.
  rewrite orb_true_r. reflexivity.
Qed.

Lemma Exists_updateFirstL_other (p sel : Element → bool) (f : Element → Element)
    (l : list Element) :
  (∀ e, p (f e) = p e) →
  Exists (λ e, p e = true) (updateFirstL sel f l) ↔ Exists (λ e, p e = true) l.
Proof.
  intros Hp. induction l as [|e l IH]; [reflexivity|]. cbn [updateFirstL].
  destruct (sel e).
  - rewrite !Exists_cons, Hp. reflexivity.
  - rewrite !Exists_cons, IH. reflexivity.
Qed.

Lemma marked_window_count (cw : Window) (d : node) :
  Exists (λ e, selWindowItem (win_id cw) e = true) (elements d) →
  countMatching selActiveWindow (updateActiveDom (Some cw) d) = 1%nat.
Proof.
  intros Hex. unfold countMatching. rewrite elements_updateActiveDom. cbn zeta.
  apply (Exists_sel_clearMarks _ _ (selWindowItem_clearMarks (win_id cw))) in Hex.
  assert (H1 : length (filter (λ e, selActiveWindow e = true)
                         (updateFirstL (selWindowItem (win_id cw))
                            (classList_add "active-window")
                            (classOp clearMarks <$> elements d))) = 1%nat).
  { apply count_updateFirstL_found; [apply selActiveWindow_marked| |exact Hex].
    apply Forall_fmap, Forall_true. intros e. apply selActiveWindow_cleared. }
  destruct (findActiveTab (win_tabs cw)); [|exact H1].
  rewrite count_updateFirstL_same by apply selActiveWindow_add_tab. exact H1.
Qed.

Lemma marked_tab_count (cw : Window) (t : Tab) (d : node) :
  findActiveTab (win_tabs cw) = Some t →
  Exists (λ e, selTabItem (tab_id t) e = true) (elements d) →
  countMatching selActiveTab (updateActiveDom (Some cw) d) = 1%nat.
Proof.
  intros Ht Hex. unfold countMatching. rewrite elements_updateActiveDom. cbn zeta.
  rewrite Ht.
  apply (Exists_sel_clearMarks _ _ (selTabItem_clearMarks (tab_id t))) in Hex.
  assert (Hne : "active-window" ≠ "tab-item") by discriminate.
  apply (Exists_updateFirstL_other (selTabItem (tab_id t))
           (selWindowItem (win_id cw)) (classList_add "active-window") _
           (λ e, selTabItem_add (tab_id t) "active-window" e Hne)) in Hex.
  apply count_updateFirstL_found; [apply selActiveTab_marked| |exact Hex].
  eapply Forall_updateFirstL.
  - intros e _ He. rewrite selActiveTab_add_window. exact He.
  - auto.
  - apply Forall_fmap, Forall_true. intros e. apply selActiveTab_cleared.
Qed.

Lemma unmarked_without_row (p sel : Element → bool) (f : Element → Element)
    (l : list Element) :
  Forall (λ e, p e = false) l → ¬ Exists (λ e, sel e = true) l →
  length (filter (λ e, p e = true) (updateFirstL sel f l)) = 0%nat.
Proof.
  intros Hnone Hex. rewrite updateFirstL_no_match by exact Hex.
  apply count_none, Hnone.
Qed.

(** X7. After a run of the activation updater the tree has exactly one
    marked window row when the host reports a last-focused window and the
    tree has a row for it, and none otherwise; it has exactly one marked
    tab row when that window has an active tab and the tree has a row for
    that tab, and none otherwise. *)
Theorem activation_marks_present_rows (cur : option Window) (d : node) :
  countMatching selActiveWindow (updateActiveDom cur d)
  = match cur with
    | Some cw =>
        if bool_decide (Exists (λ e, selWindowItem (win_id cw) e = true) (elements d))
        then 1%nat else 0%nat
    | None => 0%nat
    end ∧
  countMatching selActiveTab (updateActiveDom cur d)
  = match cur ≫= (λ cw, findActiveTab (win_tabs cw)) with
    | Some t =>
        if bool_decide (Exists (λ e, selTabItem (tab_id t) e = true) (elements d))
        then 1%nat else 0%nat
    | None => 0%nat
    end.
Proof.
  assert (HW0 : Forall (λ e, selActiveWindow e = false)
                  (classOp clearMarks <$> elements d))
    by (apply Forall_fmap, Forall_true; intros e; apply selActiveWindow_cleared).
  assert (HT0 : Forall (λ e, selActiveTab e = false)
                  (classOp clearMarks <$> elements d))
    by (apply Forall_fmap, Forall_true; intros e; apply selActiveTab_cleared).
  destruct cur as [cw|]; cbn [mbind option_bind].
  2:{ unfold countMatching. rewrite elements_updateActiveDom.
      split; apply count_none; assumption. }
  assert (H1T : Forall (λ e, selActiveTab e = false)
                  (updateFirstL (selWindowItem (win_id cw))
                     (classList_add "active-window")
                     (classOp clearMarks <$> elements d))).
  { eapply Forall_updateFirstL; [| |exact HT0]; cbn.
    - intros e _ He. rewrite selActiveTab_add_window. exact He.
    - auto. }
  split.
  - case_bool_decide as Hex; [apply marked_window_count, Hex|].
    unfold countMatching. rewrite elements_updateActiveDom. cbn zeta.
    rewrite <- (Exists_sel_clearMarks _ _ (selWindowItem_clearMarks (win_id cw)))
      in Hex.
    destruct (findActiveTab (win_tabs cw));
      rewrite ?count_updateFirstL_same by apply selActiveWindow_add_tab;
      apply unmarked_without_row; assumption.
  - destruct (findActiveTab (win_tabs cw)) as [t|] eqn:Ht.
    + case_bool_decide as Hex; [apply (marked_tab_count cw t); assumption|].
      unfold countMatching. rewrite elements_updateActiveDom. cbn zeta. rewrite Ht.
      apply unmarked_without_row; [exact H1T|].
      assert (Hne : "active-window" ≠ "tab-item") by discriminate.
      rewrite (Exists_updateFirstL_other (selTabItem (tab_id t))
                 (selWindowItem (win_id cw)) (classList_add "active-window") _
                 (λ e, selTabItem_add (tab_id t) "active-window" e Hne)).
      rewrite (Exists_sel_clearMarks _ _ (selTabItem_clearMarks (tab_id t))).
      exact Hex.
    + unfold countMatching. rewrite elements_updateActiveDom. cbn zeta. rewrite Ht.
      apply count_none, H1T.
Qed.

Lemma Exists_flat_map_elements (P : Element → Prop) {A} (g : A → node)
    (l : list A) (a : A) :
  a ∈ l → Exists P (elements (g a)) → Exists P (flat_map elements (map g l)).
Proof.
  intros Ha Hp. apply Exists_flat_map, Exists_exists. exists (g a).
  split; [|exact Hp]. apply list_elem_of_In, in_map, list_elem_of_In, Ha.
Qed.

Lemma tabItem_has_row (windowId : Z) (tab : Tab) :
  Exists (λ e, selTabItem (tab_id tab) e = true) (elements (tabItem windowId tab)).
Proof.
  assert (Hrow : selTabItem (tab_id tab)
                   (withListener (ActivateTab windowId (tab_id tab))
                      (withAttr "data-tab-id" (pretty (tab_id tab))
                         (withClassName ["tab-item"] (createElement "div")))) = true).
  { unfold selTabItem. apply andb_true_iff. split; [reflexivity|].
    apply bool_decide_eq_true. reflexivity. }
  unfold tabItem. cbn [appendChild insertBefore app].
  destruct (tab_pinned tab); cbn [appendChild insertBefore app elements flat_map];
    apply Exists_cons; right; apply Exists_cons; left; exact Hrow.
Qed.

Lemma blockNode_has_row {parser : HtmlParser}
    (flags : gmap string bool) (win : Window) (b : Block)
    (t : Tab) :
  t ∈ blockTabs b →
  Exists (λ e, selTabItem (tab_id t) e = true) (elements (blockNode flags win b)).
Proof.
  assert (Hlist : ∀ tabs className, t ∈ tabs →
            Exists (λ e, selTabItem (tab_id t) e = true)
              (elements (createTabList tabs (win_id win) className))).
  { intros tabs className Ht. unfold createTabList. cbn [elements].
    apply Exists_cons. right.
    apply (Exists_flat_map_elements _ _ _ t Ht), tabItem_has_row. }
  destruct b as [tab|g info ts]; cbn [blockTabs blockNode]; intros Ht.
  - apply Hlist, Ht.
  - destruct (groupList_shape flags win g info ts) as (header & _ & ->).
    cbn [elements flat_map]. rewrite !app_nil_r.
    apply Exists_cons; right. apply Exists_cons; right.
    apply Exists_app; right. apply Exists_cons; right.
    apply (Hlist ts "tab-list-in-group" Ht).
Qed.

Lemma windowItem_has_rows {parser : HtmlParser}
    (titles : gmap Z string) (flags : gmap string bool)
    (groupMap : gmap Z TabGroup) (win : Window) :
  Exists (λ e, selWindowItem (win_id win) e = true)
    (elements (windowItem titles flags groupMap win)) ∧
  ∀ t, t ∈ flat_map blockTabs (windowBlocks groupMap win) →
       Exists (λ e, selTabItem (tab_id t) e = true)
         (elements (windowItem titles flags groupMap win)).
Proof.
  destruct (windowItem_content titles flags groupMap win) as (header & Hh & ->).
  cbn [elements flat_map]. rewrite !app_nil_r. split.
  - apply Exists_cons; right. apply Exists_app; left.
    destruct header as [e ks]. cbn [elem] in Hh. subst e. cbn [elements].
    apply Exists_cons; left.
    unfold selWindowItem. apply andb_true_iff. split; [reflexivity|].
    apply bool_decide_eq_true. reflexivity.
  - intros t (b & Hb & Ht)%elem_of_flat_map_blockTabs.
    apply Exists_cons; right. apply Exists_app; right. apply Exists_cons; right.
    apply (Exists_flat_map_elements _ (blockNode flags win) _ b Hb).
    apply blockNode_has_row, Ht.
Qed.

(** X8. After a render that runs alone, when the last-focused window that
    the host reports is one of the windows of the snapshot, exactly one
    window row is marked; and when the active tab of that window is, in the
    snapshot, a tab that is in no group or in an existing group of its
    window, exactly one tab row is marked. *)
Theorem render_highlights_focus {parser : HtmlParser}
    (localeCompare : string → string → Z)
    (restore : bool) (windows : list Window) (tabGroups : list TabGroup)
    (cw : Window) (w : World) :
  let w' := renderList localeCompare restore windows tabGroups (Some cw) w in
  ((∃ win, win ∈ windows ∧ win_id win = win_id cw) →
   countMatching selActiveWindow (dom w') = 1%nat) ∧
  (∀ t win t',
     findActiveTab (win_tabs cw) = Some t →
     win ∈ windows → t' ∈ win_tabs win → tab_id t' = tab_id t →
     validGroupRef (mkGroupMap tabGroups) win t' →
     countMatching selActiveTab (dom w') = 1%nat).
Proof.
  cbn zeta.
  set (titles := default ∅ (customWindowTitles (storage w))).
  set (flags := default ∅ (storedCollapsedState (storage w))).
  assert (Hdom : dom (renderList localeCompare restore windows tabGroups (Some cw) w)
                 = updateActiveDom (Some cw)
                     (Node (elem (dom w))
                        [windowList localeCompare titles flags windows tabGroups]))
    by (unfold renderList; destruct restore; reflexivity).
  rewrite Hdom. clear Hdom.
  assert (Hitem : ∀ (P : Element → Prop) win, win ∈ windows →
            Exists P (elements (windowItem titles flags (mkGroupMap tabGroups) win)) →
            Exists P (elements (Node (elem (dom w))
                        [windowList localeCompare titles flags windows tabGroups]))).
  { intros P win Hwin Hp. cbn [elements flat_map]. rewrite app_nil_r.
    apply Exists_cons; right. unfold windowList. cbn [elements].
    apply Exists_cons; right.
    apply (Exists_flat_map_elements _ _ _ win); [|exact Hp].
    rewrite sortWindows_Permutation. exact Hwin. }
  split.
  - intros (win & Hwin & Hid). apply marked_window_count.
    apply (Hitem _ win Hwin). rewrite <- Hid.
    apply windowItem_has_rows.
  - intros t win t' Ht Hwin Ht' Hid Hvalid. apply (marked_tab_count cw t _ Ht).
    apply (Hitem _ win Hwin). rewrite <- Hid.
    apply windowItem_has_rows.
    assert (Hshown : t' ∈ flat_map blockTabs (windowBlocks (mkGroupMap tabGroups) win)).
    { destruct (decide (groupKey t' = None)) as [Hk|Hk].
      - apply elem_of_flat_map_blockTabs. exists (TabBlock t').
        split; [apply ungrouped_tab_is_row; assumption|left].
      - destruct (groupKey t') as [g|] eqn:Hg; [|contradiction].
        destruct (Hvalid g Hg) as (info & Hinfo & Hw).
        pose proof Hg as [Hgt Hpos]%groupKey_Some.
        apply elem_of_flat_map_blockTabs.
        exists (GroupBlock g info (tabsOfGroup g (win_tabs win))). split.
        + apply renderTabs_group_block.
          split; [apply not_elem_of_empty|]. split; [exists t'; auto|auto].
        + cbn. apply list_elem_of_filter. auto. }
    exact Hshown.
Qed.

Lemma render_highlights_focus_witness :
  let w' := renderList (parser := exampleParser) byLength true [scenarioFocus] [exampleGroup]
              (Some scenarioFocus) emptyWorld in
  countMatching selActiveWindow (dom w') = 1%nat ∧
  countMatching selActiveTab (dom w') = 1%nat.
Proof.
  intros w'.
  destruct (render_highlights_focus (parser := exampleParser) byLength true
              [scenarioFocus] [exampleGroup]
              scenarioFocus emptyWorld) as [Hwindow Htab].
  split.
  - apply Hwindow. exists scenarioFocus. split; [left|reflexivity].
  - eapply (Htab _ scenarioFocus); [reflexivity|left|right; left|reflexivity|].
    intros g [= <-]. exists exampleGroup. split; reflexivity.
Defined.

(** ** A render only depends on the host and the storage *)

Lemma elem_mapNode (g : Element → Element) (n : node) :
  elem (mapNode g n) = g (elem n).
Proof. destruct n. reflexivity. Qed.

Lemma updateActiveDom_root (cur : option Window) (e e' : Element) (ks : list node) :
  classOp clearMarks e' = classOp clearMarks e →
  updateActiveDom cur (Node e' ks) = updateActiveDom cur (Node e ks).
Proof.
  intros He. rewrite !updateActiveDom_clear_then_mark. cbn [mapNode].
  rewrite He. reflexivity.
Qed.

Lemma updateActiveDom_root_cleared (cur : option Window) (d : node) :
  classOp clearMarks (elem (updateActiveDom cur d)) = classOp clearMarks (elem d).
Proof.
  rewrite updateActiveDom_clear_then_mark.
  rewrite <- !elem_mapNode.
  rewrite mapNode_markActive
    by (intros; auto using clearMarks_add_window, clearMarks_add_tab).
  rewrite mapNode_mapNode, !elem_mapNode, classOp_classOp.
  apply classOp_ext, clearMarks_idemp.
Qed.

(** X9. A render that runs alone does not depend on the tree, nor on the
    maps in memory, that it finds: two panels with the same storage and the
    same mount point element get the same tree and the same maps from the
    same answers of the host.  In particular a second render that starts
    after the first has finished, and gets the same answers, changes
    nothing. *)
Theorem render_depends_on_host_and_storage {parser : HtmlParser}
    (localeCompare : string → string → Z)
    (restore : bool) (windows : list Window) (tabGroups : list TabGroup)
    (cur : option Window) (w : World) :
  let render := renderList localeCompare restore windows tabGroups cur in
  (∀ w2, storage w2 = storage w → elem (dom w2) = elem (dom w) →
         dom (render w2) = dom (render w) ∧
         windowTitles (render w2) = windowTitles (render w) ∧
         collapsedState (render w2) = collapsedState (render w)) ∧
  render (render w) = render w.
Proof.
  cbn zeta. split.
  - intros w2 Hs He. rewrite !renderList_fields. cbn [dom windowTitles collapsedState].
    rewrite Hs, He. repeat split.
  - rewrite (renderList_fields _ _ _ _ _ (renderList _ _ _ _ _ w)).
    rewrite !renderList_fields.
    cbn [dom scrollTop windowTitles collapsedState storage scheduledRenders].
    f_equal.
    + apply updateActiveDom_root.
      apply (updateActiveDom_root_cleared cur (Node (elem (dom w)) [_])).
    + destruct restore; reflexivity.
Qed.

Lemma render_depends_on_host_and_storage_witness :
  dom (renderList (parser := exampleParser) byLength true [scenarioWindow] [exampleGroup]
         (Some scenarioWindow) scenarioWorld)
  = dom (renderList (parser := exampleParser) byLength true [scenarioWindow] [exampleGroup]
           (Some scenarioWindow) emptyWorld).
Proof.
  destruct (render_depends_on_host_and_storage (parser := exampleParser)
              byLength true [scenarioWindow]
              [exampleGroup] (Some scenarioWindow) emptyWorld) as [Hsame _].
  apply (Hsame scenarioWorld); reflexivity.
Defined.

(** ** Arrows and their regions *)

Lemma renderList_rowData {parser : HtmlParser}
    (localeCompare : string → string → Z) (restore : bool)
    (windows : list Window) (tabGroups : list TabGroup) (cur : option Window)
    (w : World) :
  rowData <$> belowMount (dom (renderList localeCompare restore windows tabGroups cur w))
  = rowData <$> elements (windowList localeCompare
                            (default ∅ (customWindowTitles (storage w)))
                            (default ∅ (storedCollapsedState (storage w)))
                            windows tabGroups).
Proof.
  assert (H : ∀ d L, d = Node (elem (dom w)) [L] →
            rowData <$> belowMount (updateActiveDom cur d) = rowData <$> elements L).
  { intros d L ->. rewrite updateActiveDom_rowData. unfold belowMount.
    cbn [children flat_map]. rewrite app_nil_r. reflexivity. }
  unfold renderList, updateActiveStates. destruct restore; apply H; reflexivity.
Qed.

Lemma elem_of_interactive (l : list Element) (h : Listener) (text : string) :
  (h, text) ∈ interactive l ↔ ∃ e, e ∈ l ∧ listener e = Some h ∧ textContent e = text.
Proof.
  unfold interactive. rewrite list_elem_of_omap. split.
  - intros (e & He & Hh). exists e. split; [exact He|].
    destruct (listener e); [|discriminate]. cbn in Hh. injection Hh as -> ->. auto.
  - intros (e & He & Hh & <-). exists e. split; [exact He|]. rewrite Hh. reflexivity.
Qed.

Lemma blockNode_region {parser : HtmlParser} (flags : gmap string bool) (win : Window)
    (g : Z) (info : TabGroup) (ts : list Tab) :
  sectionContent flags ("group-content-" +:+ pretty g)
  ∈ elements (blockNode flags win (GroupBlock g info ts)).
Proof.
  cbn [blockNode]. destruct (groupList_shape flags win g info ts) as (header & _ & ->).
  cbn [elements flat_map]. rewrite !app_nil_r.
  right. right. apply elem_of_app. right. left.
Qed.

(** In the item of a window every arrow has its region. *)
Lemma windowItem_arrow_region {parser : HtmlParser}
    (titles : gmap Z string) (flags : gmap string bool)
    (groupMap : gmap Z TabGroup) (win : Window) (a : Element) (k : string) :
  a ∈ elements (windowItem titles flags groupMap win) →
  listener a = Some (ToggleSection k) →
  ∃ r, r ∈ elements (windowItem titles flags groupMap win) ∧ ident r = Some k.
Proof.
  intros Ha Hl.
  assert (Hin : (ToggleSection k, textContent a)
                ∈ interactive (elements (windowItem titles flags groupMap win)))
    by (apply elem_of_interactive; eauto).
  rewrite interactive_windowItem in Hin. unfold windowControls in Hin.
  apply elem_of_app in Hin as [Hin|Hin].
  - repeat (apply elem_of_cons in Hin as [Hin|Hin]); try discriminate;
      [|by apply elem_of_nil in Hin].
    injection Hin as -> _.
    exists (sectionContent flags ("window-content-" +:+ pretty (win_id win))).
    split; [apply windowItem_region_present|apply ident_sectionContent].
  - apply list_elem_of_In, in_flat_map in Hin as (b & Hb & Hin).
    apply list_elem_of_In in Hb, Hin.
    destruct b as [tab|g info ts]; cbn [blockControls] in Hin.
    + apply list_elem_of_singleton in Hin. discriminate.
    + apply elem_of_app in Hin as [Hin|Hin].
      * repeat (apply elem_of_cons in Hin as [Hin|Hin]); try discriminate;
          [|by apply elem_of_nil in Hin].
        injection Hin as -> _.
        exists (sectionContent flags ("group-content-" +:+ pretty g)).
        split; [|apply ident_sectionContent].
        destruct (windowItem_content titles flags groupMap win) as (header & _ & ->).
        cbn [elements flat_map]. rewrite !app_nil_r.
        right. apply elem_of_app. right. right.
        apply list_elem_of_In, in_flat_map. exists (blockNode flags win (GroupBlock g info ts)).
        split; apply list_elem_of_In; [|apply blockNode_region].
        apply list_elem_of_fmap. eauto.
      * apply list_elem_of_fmap in Hin as (t & Ht & _). discriminate.
Qed.

Lemma nodeAt_elements (path : list nat) (n m : node) :
  nodeAt path n = Some m →
  elem m ∈ elements n ∧ (path ≠ [] → elem m ∈ belowMount n).
Proof.
  revert n. induction path as [|i path IH]; intros n; cbn [nodeAt].
  - intros [= ->]. split; [destruct m; left|congruence].
  - destruct (children n !! i) as [k|] eqn:Hk; [|discriminate]. cbn.
    intros Hm. destruct (IH k Hm) as [Hin _].
    assert (Hbelow : elem m ∈ belowMount n).
    { unfold belowMount. apply list_elem_of_In, in_flat_map. exists k.
      split; apply list_elem_of_In; [|exact Hin].
      apply list_elem_of_lookup. eauto. }
    split; [|auto]. rewrite elements_belowMount. right. exact Hbelow.
Qed.

Lemma windowItem_arrow {parser : HtmlParser} (titles : gmap Z string)
    (flags : gmap string bool) (groupMap : gmap Z TabGroup) (win : Window) :
  nodeAt [0; 0]%nat (windowItem titles flags groupMap win)
  = Some (createToggleArrow flags ("window-content-" +:+ pretty (win_id win))).
Proof. unfold windowItem. rewrite foldl_appendChild. reflexivity. Qed.

Lemma blockNode_arrow {parser : HtmlParser} (flags : gmap string bool)
    (win : Window) (g : Z) (info : TabGroup) (ts : list Tab) :
  nodeAt [0; 0; 0]%nat (blockNode flags win (GroupBlock g info ts))
  = Some (createToggleArrow flags ("group-content-" +:+ pretty g)).
Proof. reflexivity. Qed.

Lemma expanded_arrow (flags : gmap string bool) (key : string) :
  listener (elem (createToggleArrow flags key)) = Some (ToggleSection key) ∧
  hasClass "expanded" (elem (createToggleArrow flags key))
  = negb (isCollapsed flags key).
Proof. split; [reflexivity|]. apply fromFlags_arrow. reflexivity. Qed.

(** In the list that a render builds, the arrow and the region of each
    window, and of each group shown, are at their places. *)
Lemma windowList_sections {parser : HtmlParser} (localeCompare : string → string → Z)
    (titles : gmap Z string) (flags : gmap string bool) (windows : list Window)
    (tabGroups : list TabGroup) (mount : Element) (i : nat) (win : Window) :
  sortWindows localeCompare titles windows !! i = Some win →
  let list := Node mount [windowList localeCompare titles flags windows tabGroups] in
  nodeAt [0; i; 0; 0]%nat list
  = Some (createToggleArrow flags ("window-content-" +:+ pretty (win_id win))) ∧
  ∀ j g info ts,
    windowBlocks (mkGroupMap tabGroups) win !! j = Some (GroupBlock g info ts) →
    nodeAt [0; i; 1; j; 0; 0; 0]%nat list
    = Some (createToggleArrow flags ("group-content-" +:+ pretty g)).
Proof.
  intros Hwin. cbn zeta. split.
  - rewrite nodeAt_first. unfold windowList. rewrite nodeAt_map, Hwin.
    cbn [mbind option_bind]. apply windowItem_arrow.
  - intros j g info ts Hj. rewrite nodeAt_window_region, Hwin.
    cbn [mbind option_bind]. rewrite nodeAt_fmap, Hj. cbn [mbind option_bind].
    apply blockNode_arrow.
Qed.

(** X10. In the tree of a render that ran alone, the item of each window,
    and of each group shown in it, has its arrow as the first child of its
    header and its region as its second child; the arrow is made for the
    key that is the region's id, and it is expanded exactly when the region
    is not collapsed.  Every arrow under the mount point has an element
    with its key under the mount point, so a click on any arrow of the
    tree persists a flag for the arrow's key. *)
Theorem rendered_arrows_have_regions {parser : HtmlParser}
    (localeCompare : string → string → Z)
    (restore : bool) (windows : list Window) (tabGroups : list TabGroup)
    (cur : option Window) (w : World) :
  let w' := renderList localeCompare restore windows tabGroups cur w in
  let section (arrowPath regionPath : list nat) (key : string) :=
    ∃ arrow region,
      nodeAt arrowPath (dom w') = Some arrow ∧
      nodeAt regionPath (dom w') = Some region ∧
      listener (elem arrow) = Some (ToggleSection key) ∧
      ident (elem region) = Some key ∧
      hasClass "expanded" (elem arrow) = negb (hasClass "collapsed" (elem region)) in
  (∀ i win,
     sortWindows localeCompare (default ∅ (customWindowTitles (storage w))) windows !! i
     = Some win →
     section [0; i; 0; 0]%nat [0; i; 1]%nat
             ("window-content-" +:+ pretty (win_id win)) ∧
     ∀ j g info ts,
       windowBlocks (mkGroupMap tabGroups) win !! j = Some (GroupBlock g info ts) →
       section [0; i; 1; j; 0; 0; 0]%nat [0; i; 1; j; 0; 1]%nat
               ("group-content-" +:+ pretty g)) ∧
  (∀ a k, a ∈ belowMount (dom w') → listener a = Some (ToggleSection k) →
          ∃ r, r ∈ belowMount (dom w') ∧ ident r = Some k) ∧
  (∀ path arrow k, path ≠ [] → nodeAt path (dom w') = Some arrow →
                   listener (elem arrow) = Some (ToggleSection k) →
                   is_Some (storedFlag (click path w') k)).
Proof.
  cbn zeta.
  set (w' := renderList localeCompare restore windows tabGroups cur w).
  assert (Hregion : ∀ a k, a ∈ belowMount (dom w') →
            listener a = Some (ToggleSection k) →
            ∃ r, r ∈ belowMount (dom w') ∧ ident r = Some k).
  { intros a k Ha Hl.
    pose proof (renderList_rowData localeCompare restore windows tabGroups cur w)
      as Hrows. fold w' in Hrows.
    assert (Ha0 : rowData a ∈ rowData <$> belowMount (dom w'))
      by (apply list_elem_of_fmap; eauto).
    rewrite Hrows in Ha0. apply list_elem_of_fmap in Ha0 as (a0 & Hdata & Ha0).
    assert (Hl0 : listener a0 = Some (ToggleSection k))
      by (injection Hdata as _ _ _ _ <-; exact Hl).
    unfold windowList in Ha0. cbn [elements] in Ha0.
    apply elem_of_cons in Ha0 as [->|Ha0]; [discriminate|].
    apply list_elem_of_In, in_flat_map in Ha0 as (item & Hitem & Ha0).
    apply in_map_iff in Hitem as (win & <- & Hwin). apply list_elem_of_In in Ha0.
    destruct (windowItem_arrow_region _ _ _ win a0 k Ha0 Hl0) as (r0 & Hr0 & Hid0).
    assert (Hr : rowData r0 ∈ rowData <$> belowMount (dom w')).
    { rewrite Hrows. apply list_elem_of_fmap. exists r0. split; [reflexivity|].
      unfold windowList. cbn [elements]. right.
      apply list_elem_of_In, in_flat_map. eexists.
      split; [apply in_map, Hwin|apply list_elem_of_In, Hr0]. }
    apply list_elem_of_fmap in Hr as (r & Hdata' & Hr).
    exists r. split; [exact Hr|]. injection Hdata' as _ <- _ _ _. exact Hid0. }
  assert (Hsection : ∀ arrowPath regionPath key shown,
    nodeAt arrowPath
      (Node (elem (dom w))
         [windowList localeCompare (default ∅ (customWindowTitles (storage w)))
            (default ∅ (storedCollapsedState (storage w))) windows tabGroups])
    = Some (createToggleArrow (default ∅ (storedCollapsedState (storage w))) key) →
    nodeAt regionPath
      (Node (elem (dom w))
         [windowList localeCompare (default ∅ (customWindowTitles (storage w)))
            (default ∅ (storedCollapsedState (storage w))) windows tabGroups])
    = Some (Node (sectionContent (default ∅ (storedCollapsedState (storage w))) key)
              shown) →
    ∃ arrow region,
      nodeAt arrowPath (dom w') = Some arrow ∧
      nodeAt regionPath (dom w') = Some region ∧
      listener (elem arrow) = Some (ToggleSection key) ∧
      ident (elem region) = Some key ∧
      hasClass "expanded" (elem arrow) = negb (hasClass "collapsed" (elem region))).
  { intros arrowPath regionPath key shown Harrow Hreg.
    unfold w'. rewrite renderList_fields. cbn [dom].
    destruct (nodeAt_updateActiveDom_Some cur _ _ _ Harrow)
      as (arrow & -> & _ & Hl & Hc).
    destruct (nodeAt_updateActiveDom_Some cur _ _ _ Hreg)
      as (region & -> & Hid & _ & Hc').
    exists arrow, region. split; [reflexivity|]. split; [reflexivity|].
    destruct (expanded_arrow (default ∅ (storedCollapsedState (storage w))) key)
      as [Hlistener Hexpanded].
    rewrite Hl, Hid, Hc, Hc' by discriminate. cbn [elem].
    rewrite Hexpanded, collapsed_sectionContent, ident_sectionContent. auto. }
  split; [|split; [exact Hregion|]].
  - intros i win Hwin.
    destruct (windowList_sections localeCompare _
                (default ∅ (storedCollapsedState (storage w))) windows tabGroups
                (elem (dom w)) i win Hwin) as [Harrow Harrows].
    destruct (windowList_has_regions localeCompare _
                (default ∅ (storedCollapsedState (storage w))) windows tabGroups
                (elem (dom w)) i win Hwin) as [[shown Hreg] Hregs].
    split; [exact (Hsection _ _ _ _ Harrow Hreg)|].
    intros j g info ts Hj. destruct (Hregs j g info ts Hj) as [shown' Hreg'].
    exact (Hsection _ _ _ _ (Harrows j g info ts Hj) Hreg').
  - intros path arrow k Hpath Harrow Hl.
    destruct (nodeAt_elements _ _ _ Harrow) as [_ Hbelow].
    destruct (Hregion _ k (Hbelow Hpath) Hl) as (r & Hr & Hid).
    assert (Hfound : is_Some (getElementById k (dom w'))).
    { unfold getElementById, querySelector.
      destruct (filter (λ e, selId k e = true) (elements (dom w'))) as [|x l] eqn:Hf;
        [|eexists; reflexivity].
      assert (Hin : r ∈ filter (λ e, selId k e = true) (elements (dom w'))).
      { apply list_elem_of_filter. split.
        - unfold selId. apply bool_decide_eq_true. exact Hid.
        - rewrite elements_belowMount. right. exact Hr. }
      rewrite Hf in Hin. by apply elem_of_nil in Hin. }
    destruct Hfound as [target Htarget].
    unfold click. rewrite Harrow. destruct arrow as [e ks]. cbn [elem] in Hl.
    rewrite Hl.
    destruct (onArrowClick_effect path k w' target Htarget) as (_ & _ & Hstored & _).
    unfold storedFlag. rewrite Hstored. cbn. rewrite lookup_insert_eq. eexists. reflexivity.
Qed.

Lemma rendered_arrows_have_regions_witness :
  is_Some (storedFlag (click scenarioGroupArrow scenarioWorld) "group-content-5") ∧
  ∃ arrow region,
    nodeAt scenarioGroupArrow (dom scenarioWorld) = Some arrow ∧
    nodeAt [0; 0; 1; 1; 0; 1]%nat (dom scenarioWorld) = Some region ∧
    listener (elem arrow) = Some (ToggleSection "group-content-5") ∧
    ident (elem region) = Some "group-content-5" ∧
    hasClass "expanded" (elem arrow) = negb (hasClass "collapsed" (elem region)).
Proof.
  destruct (rendered_arrows_have_regions (parser := exampleParser) byLength false
              [scenarioWindow] [exampleGroup] (Some scenarioWindow) emptyWorld)
    as (Hsections & _ & Hclick).
  split.
  - eapply (Hclick scenarioGroupArrow).
    + discriminate.
    + vm_compute. reflexivity.
    + reflexivity.
  - destruct (Hsections 0%nat scenarioWindow eq_refl) as [_ Hgroups].
    exact (Hgroups 1%nat 5 exampleGroup [exampleTab 2 5] eq_refl).
Defined.

(** ** What the host's events do to the panel *)

Lemma run_app {parser : HtmlParser} (localeCompare : string → string → Z)
    (steps steps' : list Step) (p : Panel) :
  run localeCompare (steps ++ steps') p
  = run localeCompare steps' (run localeCompare steps p).
Proof. apply foldl_app. Qed.

Lemma run_cons {parser : HtmlParser} (localeCompare : string → string → Z)
    (s : Step) (steps : list Step) (p : Panel) :
  run localeCompare (s :: steps) p
  = run localeCompare steps (step localeCompare s p).
Proof. reflexivity. Qed.

(** The tasks of a render in flight, run with nothing in between: the
    render is the only one in flight and no scroll timer is pending. *)
Lemma run_render_alone {parser : HtmlParser} (localeCompare : string → string → Z)
    (restore : bool) (position : Z) (windows : list Window)
    (tabGroups : list TabGroup) (cur : option Window) (w : World) (n : nat) :
  run localeCompare (renderSteps 0 windows tabGroups cur)
    {| world := w;
       renders := [ {| shouldRestoreScroll := restore;
                       initialScrollPosition := position;
                       titlesLoad := Issued; flagsLoad := Issued |} ];
       activations := n; scrollRestores := [] |}
  = {| world :=
         {| dom := updateActiveDom cur
                     (appendChild (dom w)
                        (windowList localeCompare
                           (default ∅ (customWindowTitles (storage w)))
                           (default ∅ (storedCollapsedState (storage w)))
                           windows tabGroups));
            scrollTop := if restore then position else scrollTop w;
            windowTitles := default ∅ (customWindowTitles (storage w));
            collapsedState := default ∅ (storedCollapsedState (storage w));
            storage := storage w;
            scheduledRenders := scheduledRenders w |};
       renders := []; activations := n; scrollRestores := [] |}.
Proof. destruct restore; reflexivity. Qed.

Lemma children_updateActiveDom_nil (cur : option Window) (e : Element) :
  updateActiveDom cur (Node e []) = Node (elem (updateActiveDom cur (Node e []))) [].
Proof.
  pose proof (updateActiveDom_withoutMarks cur (Node e [])) as H.
  destruct (updateActiveDom cur (Node e [])) as [e' ks]. cbn [mapNode] in H.
  injection H as _ H. destruct ks; [reflexivity|discriminate].
Qed.

(** The shapes of what a listener calls. *)
Lemma listenerCalls_cases (e : HostEvent) :
  (e = DOMContentLoaded ∧ listenerCalls e = [CallSetTimeout false])
  ∨ (e ≠ DOMContentLoaded ∧
     (listenerCalls e = [CallRenderList true]
      ∨ listenerCalls e = [CallUpdateActiveStates; CallRenderList true]
      ∨ listenerCalls e = [CallUpdateActiveStates]
      ∨ listenerCalls e = [])).
Proof.
  destruct e as [| | | | | | | | | |changeInfo]; cbn [listenerCalls];
    [left; split; reflexivity|right; split; [discriminate|]..].
  1-8: left; reflexivity.
  - right; right; left; reflexivity.
  - case_bool_decide;
      destruct (truthy (change_title changeInfo)
                || truthy (change_favIconUrl changeInfo));
      cbn; auto.
Qed.

(** X11. The task in which a host event is handled reads and writes nothing
    of the storage and of the maps in memory, whatever is in flight.  Only
    the first load schedules a render, the one without scroll restoration.
    When the listener asks for no render, the tree and the scroll offset are
    untouched: an activation update, when there is one, only starts.  When
    it asks for a render, the mount point is emptied at once and the render
    is in flight.  If that render then runs alone, from a panel that had
    nothing in flight, the panel ends as after a lone render, whether the
    activation update that a tab update may have started resumes before
    the render's tasks or after them. *)
Theorem host_event_effects {parser : HtmlParser}
    (localeCompare : string → string → Z) (e : HostEvent) (p : Panel) :
  let p' := step localeCompare (Event e) p in
  (storage (world p') = storage (world p) ∧
   windowTitles (world p') = windowTitles (world p) ∧
   collapsedState (world p') = collapsedState (world p) ∧
   scrollRestores p' = scrollRestores p) ∧
  scheduledRenders (world p')
  = scheduledRenders (world p) ++ (if decide (e = DOMContentLoaded) then [false] else []) ∧
  ((∀ restore, CallRenderList restore ∉ listenerCalls e) →
   dom (world p') = dom (world p) ∧ scrollTop (world p') = scrollTop (world p) ∧
   renders p' = renders p) ∧
  (∀ restore, CallRenderList restore ∈ listenerCalls e →
     restore = true ∧
     dom (world p') = Node (elem (dom (world p))) [] ∧
     renders p' = renders p
                  ++ [ {| shouldRestoreScroll := true;
                          initialScrollPosition := scrollTop (world p);
                          titlesLoad := Issued; flagsLoad := Issued |} ] ∧
     ∀ w windows tabGroups cur,
       p = idle w →
       let finish := renderSteps 0 windows tabGroups cur in
       let resume := replicate (activations p') (Focused cur) in
       world (run localeCompare (finish ++ resume) p')
       = renderList localeCompare true windows tabGroups cur w ∧
       world (run localeCompare (resume ++ finish) p')
       = renderList localeCompare true windows tabGroups cur w).
Proof.
  cbn zeta. cbn [step].
  destruct (listenerCalls_cases e) as [[-> ->] | [Hne [-> | [-> | [-> | ->]]]]];
    cbn [foldl startCall];
    try (rewrite (decide_False (P := e = DOMContentLoaded)) by exact Hne;
         rewrite app_nil_r).
  - split; [repeat split|]. split; [reflexivity|]. split; [intros _; repeat split|].
    intros restore Hin. apply list_elem_of_singleton in Hin. discriminate.
  - split; [repeat split|]. split; [reflexivity|]. split.
    { intros Hno. destruct (Hno true). left. }
    intros restore Hin. apply list_elem_of_singleton in Hin. injection Hin as ->.
    split; [reflexivity|]. split; [reflexivity|]. split; [reflexivity|].
    intros w windows tabGroups cur ->. cbn [activations startRender idle replicate].
    rewrite app_nil_r. split; reflexivity.
  - split; [repeat split|]. split; [reflexivity|]. split.
    { intros Hno. destruct (Hno true). right. left. }
    intros restore Hin. apply elem_of_cons in Hin as [Hin|Hin]; [discriminate|].
    apply list_elem_of_singleton in Hin. injection Hin as ->.
    split; [reflexivity|]. split; [reflexivity|]. split; [reflexivity|].
    intros w windows tabGroups cur ->. unfold startRender, idle.
    cbn [activations replicate world renders scrollRestores app
         captureScrollPosition].
    rewrite renderList_fields. split.
    + rewrite run_app, run_render_alone. unfold run. cbn [foldl step resumeActivation
        activations world renders scrollRestores updateActiveStates setDom dom scrollTop
        windowTitles collapsedState storage scheduledRenders clearContainer setScrollTop
        appendChild app].
      unfold updateActiveStates, setDom, captureScrollPosition.
      cbn [dom scrollTop windowTitles collapsedState storage scheduledRenders].
      rewrite updateActiveDom_idemp. reflexivity.
    + rewrite run_cons. cbn [step resumeActivation activations
        world renders scrollRestores].
      rewrite run_render_alone.
      unfold updateActiveStates, clearContainer, setScrollTop,
        captureScrollPosition.
      cbn [dom scrollTop windowTitles collapsedState storage scheduledRenders world].
      unfold setDom.
      cbn [dom scrollTop windowTitles collapsedState storage scheduledRenders world].
      rewrite children_updateActiveDom_nil. cbn [appendChild app].
      f_equal. apply updateActiveDom_root.
      apply (updateActiveDom_root_cleared cur (Node (elem (dom w)) [])).
  - split; [repeat split|]. split; [reflexivity|]. split; [intros _; repeat split|].
    intros restore Hin. apply list_elem_of_singleton in Hin. discriminate.
  - split; [repeat split|]. split; [reflexivity|]. split; [intros _; repeat split|].
    intros restore Hin. by apply elem_of_nil in Hin.
Qed.

Lemma host_event_effects_witness :
  let e := TabUpdated {| change_active := Some true; change_title := Some "Inbox";
                         change_favIconUrl := None |} in
  let quiet := TabUpdated {| change_active := Some true; change_title := Some "";
                             change_favIconUrl := None |} in
  world (run (parser := exampleParser) byLength
           (Focused (Some scenarioFocus)
            :: renderSteps 0 [scenarioFocus] [exampleGroup] (Some scenarioFocus))
           (step (parser := exampleParser) byLength (Event e) (idle scenarioWorld)))
  = renderList (parser := exampleParser) byLength true [scenarioFocus] [exampleGroup]
      (Some scenarioFocus) scenarioWorld
  ∧ dom (world (step (parser := exampleParser) byLength (Event quiet)
                  (idle scenarioWorld)))
    = dom scenarioWorld.
Proof.
  intros e quiet. split.
  - destruct (host_event_effects (parser := exampleParser) byLength e
                (idle scenarioWorld)) as (_ & _ & _ & Hrender).
    destruct (Hrender true) as (_ & _ & _ & Hfinish); [right; left|].
    destruct (Hfinish scenarioWorld [scenarioFocus] [exampleGroup]
                (Some scenarioFocus) eq_refl) as [_ Hfirst].
    exact Hfirst.
  - destruct (host_event_effects (parser := exampleParser) byLength quiet
                (idle scenarioWorld)) as (_ & _ & Hframe & _).
    apply Hframe. intros restore Hin.
    apply list_elem_of_singleton in Hin. discriminate.
Defined.

(** ** A title edit and the render it schedules *)

Lemma interactive_renderList {parser : HtmlParser}
    (localeCompare : string → string → Z) (restore : bool)
    (windows : list Window) (tabGroups : list TabGroup) (cur : option Window)
    (w : World) :
  interactive (belowMount (dom (renderList localeCompare restore windows tabGroups cur w)))
  = flat_map (windowControls (default ∅ (customWindowTitles (storage w)))
                (mkGroupMap tabGroups))
      (sortWindows localeCompare (default ∅ (customWindowTitles (storage w))) windows).
Proof.
  rewrite (interactive_rowData _ _
             (renderList_rowData localeCompare restore windows tabGroups cur w)).
  unfold windowList. cbn [elements].
  rewrite interactive_plain by reflexivity. rewrite interactive_flat_map.
  apply flat_map_ext. intros win. apply interactive_windowItem.
Qed.

(** X12. A title span that loses focus leaves the tree alone and schedules
    one render, with scroll restoration.  When the timer of that render
    fires and the render then runs alone, from a panel that had nothing in
    flight, nothing is scheduled that was not before the edit, the scroll
    offset is where it was, and the tree shows the windows of the host
    sorted by, and labelled with, the titles in memory before the edit
    updated with the trimmed text for the edited window: its title control
    reads the trimmed text, or the default title when the trimmed text is
    empty, as it is for a text of white space only. *)
Theorem title_edit_then_render {parser : HtmlParser}
    (localeCompare : string → string → Z)
    (windows : list Window) (tabGroups : list TabGroup) (cur : option Window)
    (windowId : Z) (s : string) (w : World) :
  let p1 := step localeCompare (Blur windowId s) (idle w) in
  let p2 := run localeCompare
              (Timer (length (scheduledRenders w))
               :: renderSteps 0 windows tabGroups cur) p1 in
  let titles := <[windowId := trim s]> (windowTitles w) in
  dom (world p1) = dom w ∧
  scheduledRenders (world p1) = scheduledRenders w ++ [true] ∧
  scheduledRenders (world p2) = scheduledRenders w ∧
  scrollTop (world p2) = scrollTop w ∧
  windowTitles (world p2) = titles ∧
  interactive (belowMount (dom (world p2)))
  = flat_map (windowControls titles (mkGroupMap tabGroups))
      (sortWindows localeCompare titles windows) ∧
  (∀ win, win ∈ windows → win_id win = windowId →
          (EditTitle windowId,
           if String.eqb (trim s) "" then "Window " +:+ pretty windowId else trim s)
          ∈ interactive (belowMount (dom (world p2)))) ∧
  (blank s → ∀ win, win ∈ windows → win_id win = windowId →
          (EditTitle windowId, "Window " +:+ pretty windowId)
          ∈ interactive (belowMount (dom (world p2)))).
Proof.
  cbn zeta.
  assert (Hrun : world (run localeCompare
                          (Timer (length (scheduledRenders w))
                           :: renderSteps 0 windows tabGroups cur)
                          (step localeCompare (Blur windowId s) (idle w)))
                 = renderList localeCompare true windows tabGroups cur
                     {| dom := dom w; scrollTop := scrollTop w;
                        windowTitles := <[windowId := trim s]> (windowTitles w);
                        collapsedState := collapsedState w;
                        storage := {| customWindowTitles :=
                                        Some (<[windowId := trim s]> (windowTitles w));
                                      storedCollapsedState :=
                                        storedCollapsedState (storage w) |};
                        scheduledRenders := scheduledRenders w |}).
  { unfold run. cbn [foldl]. fold (run localeCompare).
    cbn [step]. unfold fireTimer, setWorld, idle, onTitleBlur, saveWindowTitle.
    cbn [world scheduledRenders dom scrollTop windowTitles collapsedState storage
         renders activations scrollRestores].
    assert (Hlook : (scheduledRenders w ++ [true]) !! length (scheduledRenders w)
                    = Some true).
    { induction (scheduledRenders w) as [|b l IH]; [reflexivity|exact IH]. }
    assert (Hdel : delete (length (scheduledRenders w)) (scheduledRenders w ++ [true])
                   = scheduledRenders w).
    { clear Hlook. induction (scheduledRenders w) as [|b l IH]; [reflexivity|].
      cbn. f_equal. exact IH. }
    rewrite Hlook, Hdel. reflexivity. }
  rewrite Hrun.
  assert (Hshown : interactive (belowMount (dom
            (renderList localeCompare true windows tabGroups cur
               {| dom := dom w; scrollTop := scrollTop w;
                  windowTitles := <[windowId := trim s]> (windowTitles w);
                  collapsedState := collapsedState w;
                  storage := {| customWindowTitles :=
                                  Some (<[windowId := trim s]> (windowTitles w));
                                storedCollapsedState :=
                                  storedCollapsedState (storage w) |};
                  scheduledRenders := scheduledRenders w |})))
    = flat_map (windowControls (<[windowId := trim s]> (windowTitles w))
                  (mkGroupMap tabGroups))
        (sortWindows localeCompare (<[windowId := trim s]> (windowTitles w)) windows))
    by apply interactive_renderList.
  assert (Htitle : ∀ win, win ∈ windows → win_id win = windowId →
            (EditTitle windowId,
             if String.eqb (trim s) "" then "Window " +:+ pretty windowId else trim s)
            ∈ flat_map (windowControls (<[windowId := trim s]> (windowTitles w))
                          (mkGroupMap tabGroups))
                (sortWindows localeCompare (<[windowId := trim s]> (windowTitles w))
                   windows)).
  { intros win Hwin Hid.
    apply list_elem_of_In, in_flat_map. exists win. split.
    - apply list_elem_of_In. rewrite sortWindows_Permutation. exact Hwin.
    - apply list_elem_of_In. unfold windowControls. rewrite Hid.
      assert (Hdisplay : displayTitle (<[windowId := trim s]> (windowTitles w)) windowId
                         = if String.eqb (trim s) ""
                           then "Window " +:+ pretty windowId else trim s).
      { unfold displayTitle. rewrite lookup_insert_eq. reflexivity. }
      rewrite Hdisplay. right. right. left. }
  rewrite Hshown, renderList_fields. cbn [scheduledRenders scrollTop windowTitles
    storage customWindowTitles default id].
  split; [reflexivity|]. split; [reflexivity|]. split; [reflexivity|].
  split; [reflexivity|]. split; [reflexivity|]. split; [reflexivity|].
  split; [exact Htitle|].
  intros Hblank win Hwin Hid. specialize (Htitle win Hwin Hid).
  rewrite (trim_blank s Hblank) in Htitle at 1. exact Htitle.
Qed.

Lemma title_edit_then_render_witness :
  (EditTitle 1, "Mail")
  ∈ interactive (belowMount (dom (world
      (run (parser := exampleParser) byLength
         (Timer 0 :: renderSteps 0 [scenarioWindow] [exampleGroup]
                       (Some scenarioWindow))
         (step (parser := exampleParser) byLength (Blur 1 (" Mail" +:+ nbsp))
            (idle scenarioWorld)))))).
Proof.
  destruct (title_edit_then_render (parser := exampleParser) byLength
              [scenarioWindow] [exampleGroup] (Some scenarioWindow)
              1 (" Mail" +:+ nbsp) scenarioWorld)
    as (_ & _ & _ & _ & _ & _ & Hshown & _).
  apply (Hshown scenarioWindow); [left|reflexivity].
Defined.

(** ** Toggling a section twice *)

(** X13. When the listener of an arrow whose region exists fires twice, the
    region is collapsed exactly when it was before, nothing is scheduled,
    and memory and storage hold the maps of before with, under the
    region's key, the region's state of before, now as an explicit flag.
    When that state was what memory said of the key, every key reads as
    before. *)
Theorem toggle_twice_round_trip (arrowPath : list nat) (key : string) (w : World)
    (target : Element) :
  getElementById key (dom w) = Some target →
  let collapsed := hasClass "collapsed" target in
  let w2 := onArrowClick arrowPath key (onArrowClick arrowPath key w) in
  (∃ target2, getElementById key (dom w2) = Some target2 ∧
              hasClass "collapsed" target2 = collapsed) ∧
  collapsedState w2 = <[key := collapsed]> (collapsedState w) ∧
  storedCollapsedState (storage w2) = Some (<[key := collapsed]> (collapsedState w)) ∧
  windowTitles w2 = windowTitles w ∧
  customWindowTitles (storage w2) = customWindowTitles (storage w) ∧
  scheduledRenders w2 = scheduledRenders w ∧
  (isCollapsed (collapsedState w) key = collapsed →
   ∀ k, isCollapsed (collapsedState w2) k = isCollapsed (collapsedState w) k).
Proof.
  intros Htarget. cbn zeta.
  destruct (onArrowClick_effect arrowPath key w target Htarget)
    as ((t1 & Ht1 & Hc1) & Hmem1 & _ & Htitles1 & Hstitles1 & Hsched1).
  destruct (onArrowClick_effect arrowPath key _ t1 Ht1)
    as ((t2 & Ht2 & Hc2) & Hmem2 & Hstored2 & Htitles2 & Hstitles2 & Hsched2).
  rewrite Hc1, negb_involutive in Hc2, Hmem2, Hstored2.
  rewrite Hmem1, insert_insert_eq in Hmem2, Hstored2.
  split; [eauto|]. split; [exact Hmem2|]. split; [exact Hstored2|].
  split; [congruence|]. split; [congruence|]. split; [congruence|].
  intros Hagree k. rewrite Hmem2. unfold isCollapsed in *.
  destruct (decide (k = key)) as [->|Hne].
  - rewrite lookup_insert_eq. cbn. symmetry. exact Hagree.
  - rewrite lookup_insert_ne by congruence. reflexivity.
Qed.

Lemma toggle_twice_round_trip_witness :
  let w2 := onArrowClick scenarioGroupArrow "group-content-5"
              (onArrowClick scenarioGroupArrow "group-content-5" scenarioWorld) in
  storedCollapsedState (storage w2) = Some {[ "group-content-5" := false ]} ∧
  ∀ k, isCollapsed (collapsedState w2) k = isCollapsed (collapsedState scenarioWorld) k.
Proof.
  intros w2.
  edestruct (toggle_twice_round_trip scenarioGroupArrow "group-content-5"
               scenarioWorld) as (_ & _ & Hstored & _ & _ & _ & Hreads).
  - vm_compute. reflexivity.
  - split; [exact Hstored|]. apply Hreads. reflexivity.
Defined.

(** ** How a render reads the storage *)

Lemma sectionContent_ext (f1 f2 : gmap string bool) (key : string) :
  isCollapsed f1 key = isCollapsed f2 key →
  sectionContent f1 key = sectionContent f2 key.
Proof. unfold sectionContent. intros ->. reflexivity. Qed.

Lemma createToggleArrow_ext (f1 f2 : gmap string bool) (key : string) :
  isCollapsed f1 key = isCollapsed f2 key →
  createToggleArrow f1 key = createToggleArrow f2 key.
Proof. unfold createToggleArrow. intros ->. reflexivity. Qed.

Lemma blockNode_ext {parser : HtmlParser}
    (f1 f2 : gmap string bool) (win : Window) (b : Block) :
  (∀ k, isCollapsed f1 k = isCollapsed f2 k) →
  blockNode f1 win b = blockNode f2 win b.
Proof.
  intros H. destruct b as [tab|g info ts]; [reflexivity|].
  cbn [blockNode]. unfold groupList.
  rewrite (sectionContent_ext f1 f2), (createToggleArrow_ext f1 f2) by apply H.
  reflexivity.
Qed.

Lemma windowItem_ext {parser : HtmlParser}
    (titles : gmap Z string) (f1 f2 : gmap string bool)
    (groupMap : gmap Z TabGroup) (win : Window) :
  (∀ k, isCollapsed f1 k = isCollapsed f2 k) →
  windowItem titles f1 groupMap win = windowItem titles f2 groupMap win.
Proof.
  intros H. unfold windowItem.
  rewrite (sectionContent_ext f1 f2), (createToggleArrow_ext f1 f2) by apply H.
  rewrite (map_ext _ _ (λ b, blockNode_ext f1 f2 win b H)). reflexivity.
Qed.

(** X14. A render that runs alone reads the storage through two views
    only: the stored titles, with no entry standing for the empty map, and
    for each key whether its stored flag is true, with no map, no flag and
    the flag false all standing for expanded.  Two panels with the same
    mount point element whose storages agree in these views get the same
    tree from the same answers of the host. *)
Theorem render_reads_flags_as_booleans {parser : HtmlParser}
    (localeCompare : string → string → Z)
    (restore : bool) (windows : list Window) (tabGroups : list TabGroup)
    (cur : option Window) (w w2 : World) :
  default ∅ (customWindowTitles (storage w2))
  = default ∅ (customWindowTitles (storage w)) →
  (∀ k, isCollapsed (default ∅ (storedCollapsedState (storage w2))) k
        = isCollapsed (default ∅ (storedCollapsedState (storage w))) k) →
  elem (dom w2) = elem (dom w) →
  dom (renderList localeCompare restore windows tabGroups cur w2)
  = dom (renderList localeCompare restore windows tabGroups cur w).
Proof.
  intros Htitles Hflags Hroot.
  assert (Hlist : windowList localeCompare
                    (default ∅ (customWindowTitles (storage w2)))
                    (default ∅ (storedCollapsedState (storage w2))) windows tabGroups
                = windowList localeCompare
                    (default ∅ (customWindowTitles (storage w)))
                    (default ∅ (storedCollapsedState (storage w))) windows tabGroups).
  { rewrite Htitles. unfold windowList. f_equal.
    apply map_ext. intros win. apply windowItem_ext, Hflags. }
  rewrite !renderList_fields. cbn [dom]. rewrite Hroot, Hlist. reflexivity.
Qed.

Lemma render_reads_flags_as_booleans_witness :
  let stored :=
    {| dom := dom emptyWorld; scrollTop := 0; windowTitles := ∅; collapsedState := ∅;
       storage := {| customWindowTitles := Some ∅;
                     storedCollapsedState := Some (<["group-content-5" := false]> ∅) |};
       scheduledRenders := [] |} in
  dom (renderList (parser := exampleParser) byLength true [scenarioWindow]
         [exampleGroup] (Some scenarioWindow) stored)
  = dom (renderList (parser := exampleParser) byLength true [scenarioWindow]
           [exampleGroup] (Some scenarioWindow) emptyWorld).
Proof.
  intros stored. apply (render_reads_flags_as_booleans (parser := exampleParser)).
  - reflexivity.
  - intros k. unfold isCollapsed, stored, emptyWorld.
    cbn [storage storedCollapsedState default id].
    destruct (decide (k = "group-content-5")) as [->|Hne].
    + rewrite lookup_insert_eq, lookup_empty. reflexivity.
    + rewrite lookup_insert_ne by congruence. reflexivity.
  - reflexivity.
Defined.

(** ** What the rendered tree reads *)

Lemma shownTexts_app (l1 l2 : list Element) :
  shownTexts (l1 ++ l2) = shownTexts l1 ++ shownTexts l2.
Proof. unfold shownTexts, visible. rewrite fmap_app. apply omap_app. Qed.

Lemma shownTexts_flat_map {A} (g : A → node) (l : list A) :
  shownTexts (flat_map elements (map g l))
  = flat_map (λ a, shownTexts (elements (g a))) l.
Proof.
  induction l as [|a l IH]; [reflexivity|]. cbn [map flat_map].
  rewrite shownTexts_app, IH. reflexivity.
Qed.

Lemma shownTexts_rowData (l l' : list Element) :
  rowData <$> l = rowData <$> l' → shownTexts l = shownTexts l'.
Proof.
  intros H. unfold shownTexts. f_equal.
  revert l' H. induction l as [|e l IH]; intros [|e' l']; cbn; try discriminate;
    [reflexivity|].
  intros [= _ _ _ Htext _ Hrest]. rewrite Htext. f_equal. apply IH, Hrest.
Qed.

Lemma shownTexts_silent (e : Element) (l : list Element) :
  textContent e = "" → shownTexts (e :: l) = shownTexts l.
Proof. intros H. unfold shownTexts, visible. cbn. rewrite H. reflexivity. Qed.

Lemma js_or_shows (a : option string) (d : string) :
  String.eqb d "" = false → String.eqb (js_or a d) "" = false.
Proof.
  intros Hd. unfold js_or. destruct a as [s|]; [|exact Hd].
  destruct (String.eqb s "") eqn:Hs; [exact Hd|exact Hs].
Qed.

Lemma shownTexts_tabItem (windowId : Z) (tab : Tab) :
  shownTexts (elements (tabItem windowId tab)) = tabTexts tab.
Proof.
  unfold tabItem, tabTexts. cbn [appendChild insertBefore app].
  destruct (tab_pinned tab); cbn [appendChild insertBefore app].
  - rewrite insertBefore_title_found. unfold shownTexts, visible. cbn.
    destruct (String.eqb _ ""); reflexivity.
  - unfold shownTexts, visible. cbn. destruct (String.eqb _ ""); reflexivity.
Qed.

Lemma shownTexts_createTabList (tabs : list Tab) (windowId : Z) (className : string) :
  shownTexts (elements (createTabList tabs windowId className))
  = flat_map tabTexts tabs.
Proof.
  unfold createTabList. cbn [elements]. rewrite shownTexts_silent by reflexivity.
  rewrite shownTexts_flat_map. apply flat_map_ext. intros t. apply shownTexts_tabItem.
Qed.

Lemma shownTexts_shown (e : Element) (l : list Element) :
  String.eqb (textContent e) "" = false →
  shownTexts (e :: l) = textContent e :: shownTexts l.
Proof. intros H. unfold shownTexts, visible. cbn. rewrite H. reflexivity. Qed.

Ltac shown_head :=
  repeat first [ rewrite shownTexts_silent by reflexivity
               | rewrite shownTexts_shown by (apply js_or_shows; reflexivity) ].

(** Dropping the listeners changes no text. *)
Lemma shownTexts_parsed (l : list node) :
  shownTexts (flat_map elements (map (mapNode withoutListener) l))
  = shownTexts (flat_map elements l).
Proof.
  induction l as [|n l IH]; [reflexivity|]. cbn [map flat_map].
  rewrite !shownTexts_app, IH, elements_mapNode. f_equal.
  unfold shownTexts. rewrite <- list_fmap_compose. reflexivity.
Qed.

Lemma shownTexts_blockNode {parser : HtmlParser} (flags : gmap string bool)
    (win : Window) (b : Block) :
  shownTexts (elements (blockNode flags win b)) = blockTexts b.
Proof.
  destruct b as [tab|g info ts]; cbn [blockNode blockTexts].
  - rewrite shownTexts_createTabList. cbn. apply app_nil_r.
  - unfold groupList, sectionContent, groupTitleTexts.
    cbn [appendChild app elements flat_map createToggleArrow setInnerHTML elem].
    rewrite !app_nil_r.
    destruct (isCollapsed flags ("group-content-" +:+ pretty g));
      cbn [negb]; shown_head;
      rewrite shownTexts_app, shownTexts_parsed; f_equal;
      shown_head; apply shownTexts_createTabList.
Qed.

Lemma shownTexts_windowItem {parser : HtmlParser}
    (titles : gmap Z string) (flags : gmap string bool)
    (groupMap : gmap Z TabGroup) (win : Window) :
  shownTexts (elements (windowItem titles flags groupMap win))
  = windowTexts titles groupMap win.
Proof.
  unfold windowItem, windowTexts, sectionContent. rewrite foldl_appendChild.
  cbn [appendChild app elements flat_map createToggleArrow]. rewrite !app_nil_r.
  destruct (isCollapsed flags ("window-content-" +:+ pretty (win_id win)));
    cbn [negb]; shown_head; rewrite shownTexts_flat_map;
    rewrite (flat_map_ext _ _ (shownTexts_blockNode flags win)); reflexivity.
Qed.

(** X15. Under the mount point, the texts that a render that runs alone
    shows are, in document order: for each window of the snapshot, in
    sorted order, its displayed title, then for each block of the window
    the title of each of its tabs (or else the tab's URL; nothing when both
    are empty), between a marker and a spoken label when the tab is pinned,
    and, for a group's block, under the texts of the elements that the
    host's parser makes of the markup built around the group's colour and
    its title or [Untitled Group]: a title is read as markup, not as
    text. *)
Theorem rendered_texts {parser : HtmlParser}
    (localeCompare : string → string → Z) (restore : bool)
    (windows : list Window) (tabGroups : list TabGroup) (cur : option Window)
    (w : World) :
  let titles := default ∅ (customWindowTitles (storage w)) in
  shownTexts (belowMount (dom (renderList localeCompare restore windows tabGroups cur w)))
  = flat_map (windowTexts titles (mkGroupMap tabGroups))
             (sortWindows localeCompare titles windows).
Proof.
  cbn zeta.
  rewrite (shownTexts_rowData _ _
             (renderList_rowData localeCompare restore windows tabGroups cur w)).
  unfold windowList. cbn [elements].
  rewrite shownTexts_silent by reflexivity. rewrite shownTexts_flat_map.
  apply flat_map_ext. intros win. apply shownTexts_windowItem.
Qed.

(** ** The group map *)

Lemma mkGroupMap_snoc (tabGroups : list TabGroup) (group : TabGroup) :
  mkGroupMap (tabGroups ++ [group])
  = <[group_id group := group]> (mkGroupMap tabGroups).
Proof. unfold mkGroupMap. rewrite foldl_app. reflexivity. Qed.

(** X16. The group map holds, under each id, the last group with that id
    in the list that the host reports, and nothing under an id that no
    group of the list has. *)
Theorem group_map_holds_last_group (tabGroups : list TabGroup) (g : Z) :
  mkGroupMap tabGroups !! g = last (filter (λ group, group_id group = g) tabGroups).
Proof.
  induction tabGroups as [|group tabGroups IH] using rev_ind; [reflexivity|].
  rewrite mkGroupMap_snoc, filter_app.
  destruct (decide (group_id group = g)) as [Hg|Hg].
  - rewrite filter_cons_True by exact Hg. rewrite filter_nil, last_snoc.
    rewrite <- Hg. apply lookup_insert_eq.
  - rewrite filter_cons_False by exact Hg. rewrite filter_nil, app_nil_r.
    rewrite lookup_insert_ne by exact Hg. exact IH.
Qed.

(** ** Renders that overlap *)

Lemma children_updateActiveDom_length (cur : option Window) (d : node) :
  length (children (updateActiveDom cur d)) = length (children d).
Proof.
  pose proof (updateActiveDom_withoutMarks cur d) as H.
  destruct (updateActiveDom cur d) as [e' ks'], d as [e ks].
  cbn [mapNode] in H. apply (f_equal children) in H. cbn [children] in *.
  apply (f_equal length) in H. rewrite !length_map in H. exact H.
Qed.

(** X18. Nothing keeps two renders apart.  When a second event asks for a
    render before the first render has mounted its list, each of the two
    empties the mount point when it starts and appends its list when it
    resumes with the answers of the host: the mount point then holds two
    lists, the first built from the answers to the first render and the
    second from the answers to the second, where a render that runs alone
    leaves one. *)
Theorem overlapping_renders_mount_two_lists {parser : HtmlParser}
    (localeCompare : string → string → Z) (e1 e2 : HostEvent)
    (windows windows' : list Window) (tabGroups tabGroups' : list TabGroup)
    (w : World) :
  listenerCalls e1 = [CallRenderList true] →
  listenerCalls e2 = [CallRenderList true] →
  let titles := default ∅ (customWindowTitles (storage w)) in
  let flags := default ∅ (storedCollapsedState (storage w)) in
  let p := run localeCompare
             ([Event e1; Event e2] ++ loadSteps 0 ++ loadSteps 1
              ++ [Snapshot 0 windows tabGroups; Snapshot 0 windows' tabGroups'])
             (idle w) in
  children (dom (world p))
  = [ windowList localeCompare titles flags windows tabGroups;
      windowList localeCompare titles flags windows' tabGroups' ] ∧
  renders p = [] ∧
  ∀ restore cur,
    length (children (dom (renderList localeCompare restore windows tabGroups cur w)))
    = 1%nat.
Proof.
  intros H1 H2. cbn zeta. split; [|split].
  - unfold run, loadSteps. cbn [app foldl step]. rewrite H1, H2. reflexivity.
  - unfold run, loadSteps. cbn [app foldl step]. rewrite H1, H2. reflexivity.
  - intros restore cur. rewrite renderList_fields. cbn [dom].
    apply children_updateActiveDom_length.
Qed.

Lemma overlapping_renders_mount_two_lists_witness :
  length (children (dom (world
    (run (parser := exampleParser) byLength
       ([Event TabCreated; Event TabRemoved] ++ loadSteps 0 ++ loadSteps 1
        ++ [Snapshot 0 [scenarioWindow] [exampleGroup];
            Snapshot 0 [scenarioFocus] [exampleGroup]])
       (idle scenarioWorld))))) = 2%nat.
Proof.
  destruct (overlapping_renders_mount_two_lists (parser := exampleParser) byLength
              TabCreated TabRemoved [scenarioWindow] [scenarioFocus]
              [exampleGroup] [exampleGroup] scenarioWorld eq_refl eq_refl)
    as (Hlists & _).
  rewrite Hlists. reflexivity.
Defined.

(** X19. An answer of the storage that is under way when a click saves a
    flag is out of date when it is delivered.  When the storage has answered
    a render's load of flags, a click on an arrow of the tree saves the new
    flag of the arrow's key, and the answer is delivered after it, the map
    in memory is the answer again while the storage holds the new flag: when
    the answer does not hold that flag, memory is behind the storage. *)
Theorem late_answer_outdates_saved_flag {parser : HtmlParser}
    (localeCompare : string → string → Z) (i : nat) (arrowPath : list nat)
    (key : string) (p : Panel) (r : Render) (arrow : node) (target : Element)
    (data : option (gmap string bool)) :
  renders p !! i = Some r →
  flagsLoad r = Answered data →
  nodeAt arrowPath (dom (world p)) = Some arrow →
  listener (elem arrow) = Some (ToggleSection key) →
  getElementById key (dom (world p)) = Some target →
  let nowCollapsed := negb (hasClass "collapsed" target) in
  let p' := run localeCompare [Click arrowPath; FlagsLoaded i] p in
  collapsedState (world p') = default ∅ data ∧
  storedFlag (world p') key = Some nowCollapsed ∧
  (default ∅ data !! key ≠ Some nowCollapsed → ¬ inSync (world p')).
Proof.
  intros Hr Hload Harrow Hlistener Htarget. cbn zeta.
  assert (Hclick : click arrowPath (world p) = onArrowClick arrowPath key (world p)).
  { unfold click. rewrite Harrow. destruct arrow as [e ks]. cbn in Hlistener.
    rewrite Hlistener. reflexivity. }
  destruct (onArrowClick_effect arrowPath key (world p) target Htarget)
    as (_ & _ & Hstored & _).
  unfold run. cbn [foldl step]. unfold resumeLoadFlags.
  cbn [renders setWorld]. rewrite Hr, Hload. cbn [world setWorld setRenders].
  rewrite Hclick.
  assert (Hflag : storedFlag (setCollapsedState data (onArrowClick arrowPath key (world p)))
                    key = Some (negb (hasClass "collapsed" target))).
  { unfold storedFlag, setCollapsedState. cbn [storage]. rewrite Hstored.
    cbn. apply lookup_insert_eq. }
  split; [reflexivity|]. split; [exact Hflag|].
  intros Hstale [_ Hsync]. apply Hstale.
  unfold storedFlag in Hflag. unfold setCollapsedState in Hsync, Hflag.
  cbn [collapsedState storage] in Hsync, Hflag. rewrite Hsync.
  destruct (storedCollapsedState (storage (onArrowClick arrowPath key (world p))))
    as [m|]; [exact Hflag|discriminate].
Qed.

Lemma late_answer_outdates_saved_flag_witness :
  let p := run (parser := exampleParser) byLength
             (overlapSteps ++ [FlagsRead 0; Click scenarioGroupArrow; FlagsLoaded 0])
             (idle emptyWorld) in
  collapsedState (world p) = ∅ ∧
  storedFlag (world p) "group-content-5" = Some true ∧
  ¬ inSync (world p).
Proof.
  intros p.
  assert (Hp : p = run (parser := exampleParser) byLength
                     [Click scenarioGroupArrow; FlagsLoaded 0]
                     (run (parser := exampleParser) byLength
                        (overlapSteps ++ [FlagsRead 0]) (idle emptyWorld))).
  { unfold p. rewrite <- run_app, <- app_assoc. reflexivity. }
  rewrite Hp.
  edestruct (late_answer_outdates_saved_flag (parser := exampleParser) byLength 0
               scenarioGroupArrow "group-content-5"
               (run (parser := exampleParser) byLength
                  (overlapSteps ++ [FlagsRead 0]) (idle emptyWorld)))
    as (Hmemory & Hstored & Hbehind).
  - vm_compute. reflexivity.
  - reflexivity.
  - vm_compute. reflexivity.
  - reflexivity.
  - vm_compute. reflexivity.
  - split; [exact Hmemory|]. split; [exact Hstored|].
    apply Hbehind. discriminate.
Defined.
